(** * VideoCaptioner: the subtitle data model of [app/core/bk_asr/asr_data.py]

    A shallow embedding of the classes [ASRDataSeg] and [ASRData] and of
    the parsers, serializers and timing operations defined on them,
    followed by the properties established about them.

    Python values are modelled as follows.
    - [str] is a list of Unicode code points ([Z]); string literals of
      the source are written [u "..."] (UTF-8 decoded).
    - [int] is [Z]; [//] is [Z.div] (both floor).
    - [float] is the binary64 type of the kernel ([PrimFloat]), so that
      [/], [*], [>=] and [int(...)] on floats round as they do in Python.
    - a regular expression is a term of [regex], run by a backtracking
      matcher with the priorities of the [re] module.
    - a method that mutates [self] is a function returning the new
      document; a method that may raise returns a [result].
    - the segments of a document are taken to be distinct objects, as
      the parsers build them: no two positions of the list share one
      segment.

    File access ([save], [from_subtitle_file], the [save_path]
    arguments) and the LRC time format ([to_lrc_ts]) are left out. *)

From Stdlib Require Import String Ascii.
From Stdlib Require Import ZArith List Bool Lia Floats.
From Stdlib Require Import Sorting.Sorted Sorting.Permutation.
Import ListNotations.
Open Scope Z_scope.

(** ** Strings *)

Definition str := list Z.

Definition bytes_of_string (s : string) : list Z :=
  map (fun a => Z.of_N (N_of_ascii a)) (list_ascii_of_string s).

(** UTF-8 decoding of a well-formed byte sequence. *)
Fixpoint utf8_decode (bs : list Z) : str :=
  match bs with
  | [] => []
  | b :: tl =>
      if b <? 128 then b :: utf8_decode tl
      else if b <? 224 then
        match tl with
        | b1 :: tl1 => ((b - 192) * 64 + (b1 - 128)) :: utf8_decode tl1
        | _ => []
        end
      else if b <? 240 then
        match tl with
        | b1 :: b2 :: tl2 =>
            ((b - 224) * 4096 + (b1 - 128) * 64 + (b2 - 128)) :: utf8_decode tl2
        | _ => []
        end
      else
        match tl with
        | b1 :: b2 :: b3 :: tl3 =>
            ((b - 240) * 262144 + (b1 - 128) * 4096 + (b2 - 128) * 64 + (b3 - 128))
              :: utf8_decode tl3
        | _ => []
        end
  end.

Definition u (s : string) : str := utf8_decode (bytes_of_string s).

Definition NL : Z := 10.

Definition in_range (lo hi c : Z) : bool := (lo <=? c) && (c <=? hi).

Definition is_char (a c : Z) : bool := c =? a.

Fixpoint str_eqb (a b : str) : bool :=
  match a, b with
  | [], [] => true
  | x :: a', y :: b' => (x =? y) && str_eqb a' b'
  | _, _ => false
  end.

Definition is_empty (s : str) : bool :=
  match s with [] => true | _ => false end.

(** [str.isspace] on one character, which is also what [str.strip],
    [str.split] and the pattern [\s] use. *)
Definition isspace (c : Z) : bool :=
  in_range 9 13 c || in_range 28 32 c || (c =? 133) || (c =? 160)
  || (c =? 5760) || in_range 8192 8202 c || in_range 8232 8233 c
  || (c =? 8239) || (c =? 8287) || (c =? 12288).

Fixpoint lstrip (s : str) : str :=
  match s with
  | c :: tl => if isspace c then lstrip tl else s
  | [] => []
  end.

Definition rstrip (s : str) : str := rev (lstrip (rev s)).

Definition strip (s : str) : str := rstrip (lstrip s).

(** Truth value of [s and s.strip()]. *)
Definition nonblank (s : str) : bool :=
  negb (is_empty s) && negb (is_empty (strip s)).

(** [str.split()] with no argument: the maximal runs of non-space
    characters.  [cur] is the run being read, reversed. *)
Fixpoint split_ws_aux (s cur : str) : list str :=
  match s with
  | [] => match cur with [] => [] | _ => [rev cur] end
  | c :: tl =>
      if isspace c
      then match cur with
           | [] => split_ws_aux tl []
           | _ => rev cur :: split_ws_aux tl []
           end
      else split_ws_aux tl (c :: cur)
  end.

Definition split_ws (s : str) : list str := split_ws_aux s [].

Definition isascii (s : str) : bool := forallb (fun c => c <? 128) s.

(** The line boundaries of [str.splitlines]. *)
Definition is_linebreak (c : Z) : bool :=
  in_range 10 13 c || in_range 28 30 c || (c =? 133) || (c =? 8232) || (c =? 8233).

(** [str.splitlines]: [\r\n] counts as one boundary and a final
    boundary does not open an empty last line. *)
Fixpoint splitlines_aux (s cur : str) : list str :=
  match s with
  | [] => match cur with [] => [] | _ => [rev cur] end
  | c :: tl =>
      if is_linebreak c then
        match c, tl with
        | 13, 10 :: tl' => rev cur :: splitlines_aux tl' []
        | _, _ => rev cur :: splitlines_aux tl []
        end
      else splitlines_aux tl (c :: cur)
  end.

Definition splitlines (s : str) : list str := splitlines_aux s [].

(** [sep.join(parts)]. *)
Fixpoint join (sep : str) (parts : list str) : str :=
  match parts with
  | [] => []
  | [p] => p
  | p :: rest => p ++ sep ++ join sep rest
  end.

(** [s.split(sep)] for a one-character separator. *)
Fixpoint split_on_aux (sep : Z) (s cur : str) : list str :=
  match s with
  | [] => [rev cur]
  | c :: tl =>
      if c =? sep then rev cur :: split_on_aux sep tl []
      else split_on_aux sep tl (c :: cur)
  end.

Definition split_on (sep : Z) (s : str) : list str := split_on_aux sep s [].

(** Category Nd of the Unicode database (version 14.0): the code point
    of digit zero of every decimal digit block; the nine following code
    points are the digits one to nine. *)
Definition decimal_zeros : list Z :=
  [ 48; 1632; 1776; 1984; 2406; 2534; 2662; 2790; 2918; 3046; 3174; 3302;
    3430; 3558; 3664; 3792; 3872; 4160; 4240; 6112; 6160; 6470; 6608; 6784;
    6800; 6992; 7088; 7232; 7248; 42528; 43216; 43264; 43472; 43504; 43600;
    44016; 65296; 66720; 68912; 69734; 69872; 69942; 70096; 70384; 70736;
    70864; 71248; 71360; 71472; 71904; 72016; 72784; 73040; 73120; 92768;
    92864; 93008; 120782; 120792; 120802; 120812; 120822; 123200; 123632;
    125264; 130032 ].

Fixpoint decimal_in (zeros : list Z) (c : Z) : option Z :=
  match zeros with
  | [] => None
  | z :: rest => if in_range z (z + 9) c then Some (c - z) else decimal_in rest c
  end.

(** The value of a decimal digit, which [int] reads; [None] when the
    character is not one. *)
Definition decimal_value (c : Z) : option Z := decimal_in decimal_zeros c.

(** The pattern [\d]. *)
Definition isdecimal (c : Z) : bool :=
  match decimal_value c with Some _ => true | None => false end.

(** [int(s)] for [s] a non-empty run of decimal digits, the only form
    the patterns of this module hand to it; [None] stands for
    [ValueError] (signs, spaces and underscores are not modelled). *)
Fixpoint int_digits (acc : Z) (s : str) : option Z :=
  match s with
  | [] => Some acc
  | c :: tl =>
      match decimal_value c with
      | Some d => int_digits (acc * 10 + d) tl
      | None => None
      end
  end.

Definition int_of_str (s : str) : option Z :=
  match s with
  | [] => None
  | _ => int_digits 0 s
  end.

Definition digit_char (d : Z) : Z := 48 + d.

(** The decimal digits of a non-negative number, most significant
    first; [fuel] bounds their count. *)
Fixpoint digits_of (fuel : nat) (n : Z) (acc : str) : str :=
  match fuel with
  | O => acc
  | S f =>
      let acc' := digit_char (n mod 10) :: acc in
      if n <? 10 then acc' else digits_of f (n / 10) acc'
  end.

(** [str(n)]. *)
Definition str_of_int (n : Z) : str :=
  if n <? 0
  then 45 :: digits_of (S (Z.to_nat (Z.log2 (- n)))) (- n) []
  else digits_of (S (Z.to_nat (Z.log2 n))) n [].

(** Zero padding of the format specifications [:02] and [:03]. *)
Definition zfill (width : nat) (s : str) : str :=
  repeat 48 (width - length s) ++ s.

(** The format specification [{n:0w}] for an integer. *)
Definition fmt_int (width : nat) (n : Z) : str :=
  if n <? 0
  then 45 :: zfill (width - 1) (str_of_int (- n))
  else zfill width (str_of_int n).

(** ** Floats *)

(** [float(n)] for an integer: the nearest binary64 value. *)
Definition float_of_int (z : Z) : float :=
  SF2Prim (binary_normalize prec emax z 0 false).

(** [int(x)] for a float: truncation toward zero.  Python raises on
    infinities and NaN, which the computations of this module do not
    produce; they are mapped to [0]. *)
Definition int_of_float (f : float) : Z :=
  match Prim2SF f with
  | S754_finite s m e =>
      let a := match e with
               | Z0 => Zpos m
               | Zpos p => Zpos m * 2 ^ Zpos p
               | Zneg p => Zpos m / 2 ^ Zpos p
               end in
      if s then - a else a
  | _ => 0
  end.

(** [a / b] on integers: the correctly rounded quotient (exact
    operands up to 2^53 in absolute value). *)
Definition true_div (a b : Z) : float :=
  PrimFloat.div (float_of_int a) (float_of_int b).

(** [x >= y] on floats. *)
Definition float_ge (x y : float) : bool := PrimFloat.leb y x.

(** [math.ceil(a / b)] for integers with [b > 0]. *)
Definition ceil_div (a b : Z) : Z := - ((- a) / b).

(** ** Exceptions *)

Inductive exn : Type :=
| IndexError
| ValueError
| KeyError
| NotImplementedError.

Inductive result (A : Type) : Type :=
| Ok (a : A)
| Raise (e : exn).

Arguments Ok {A} a.
Arguments Raise {A} e.

(** ** Segments and documents *)

Record ASRDataSeg : Type := mkSeg {
  text : str;
  translated_text : str;
  start_time : Z;
  end_time : Z
}.

Definition set_start_time (t : Z) (s : ASRDataSeg) : ASRDataSeg :=
  mkSeg (text s) (translated_text s) t (end_time s).

Definition set_end_time (t : Z) (s : ASRDataSeg) : ASRDataSeg :=
  mkSeg (text s) (translated_text s) (start_time s) t.

(** The [transcript] property. *)
Definition transcript (s : ASRDataSeg) : str := text s.

(** [divmod(ms, 1000)] and so on, then [HH:MM:SS,mmm]. *)
Definition ms_to_srt_time (ms : Z) : str :=
  let total_seconds := ms / 1000 in
  let milliseconds := ms mod 1000 in
  let minutes0 := total_seconds / 60 in
  let seconds := total_seconds mod 60 in
  let hours := minutes0 / 60 in
  let minutes := minutes0 mod 60 in
  fmt_int 2 hours ++ u ":" ++ fmt_int 2 minutes ++ u ":" ++ fmt_int 2 seconds
    ++ u "," ++ fmt_int 3 milliseconds.

Definition to_srt_ts (s : ASRDataSeg) : str :=
  ms_to_srt_time (start_time s) ++ u " --> " ++ ms_to_srt_time (end_time s).

(** [H:MM:SS.cc]; [int(milliseconds / 10)] is exact on [0..999]. *)
Definition ms_to_ass_ts (ms : Z) : str :=
  let total_seconds := ms / 1000 in
  let milliseconds := ms mod 1000 in
  let minutes0 := total_seconds / 60 in
  let seconds := total_seconds mod 60 in
  let hours := minutes0 / 60 in
  let minutes := minutes0 mod 60 in
  let centiseconds := int_of_float (true_div milliseconds 10) in
  fmt_int 1 hours ++ u ":" ++ fmt_int 2 minutes ++ u ":" ++ fmt_int 2 seconds
    ++ u "." ++ fmt_int 2 centiseconds.

Definition to_ass_ts (s : ASRDataSeg) : str * str :=
  (ms_to_ass_ts (start_time s), ms_to_ass_ts (end_time s)).

Record ASRData : Type := mkData { segments : list ASRDataSeg }.

(** [list.sort(key=lambda x: x.start_time)] is stable: an element goes
    in front of the first element whose key is not smaller. *)
Fixpoint insert_by_start (x : ASRDataSeg) (l : list ASRDataSeg) : list ASRDataSeg :=
  match l with
  | [] => [x]
  | y :: l' =>
      if start_time x <=? start_time y then x :: l
      else y :: insert_by_start x l'
  end.

Fixpoint sort_by_start (l : list ASRDataSeg) : list ASRDataSeg :=
  match l with
  | [] => []
  | x :: l' => insert_by_start x (sort_by_start l')
  end.

(** [ASRData.__init__]. *)
Definition ASRData_init (segs : list ASRDataSeg) : ASRData :=
  let filtered_segments := filter (fun seg => nonblank (text seg)) segs in
  mkData (sort_by_start filtered_segments).

Definition has_data (d : ASRData) : bool :=
  match segments d with [] => false | _ => true end.

(** [is_word_timestamp]: a segment counts when its text is one ASCII
    word or at most two characters long; the document is word-level
    when at least 80% of the segments count. *)
Definition is_word_segment (seg : ASRDataSeg) : bool :=
  let t := strip (text seg) in
  ((Nat.eqb (length (split_ws t)) 1) && isascii t)
  || (Nat.leb (length (strip t)) 2).

(** The float literal [0.8]. *)
Definition float_0_8 : float := true_div 8 10.

Definition is_word_timestamp (d : ASRData) : bool :=
  match segments d with
  | [] => false
  | _ =>
      let valid_segments := length (filter is_word_segment (segments d)) in
      let total_segments := length (segments d) in
      float_ge (true_div (Z.of_nat valid_segments) (Z.of_nat total_segments))
               float_0_8
  end.

(** ** Regular expressions

    The fragment of the [re] syntax the module uses: every quantifier
    of its patterns applies to a single character set. *)

Inductive regex : Type :=
| Eps : regex
| Set_ : (Z -> bool) -> regex          (* one character of a set *)
| Cat : regex -> regex -> regex
| Alt : regex -> regex -> regex        (* [a|b], [a] tried first *)
| Star : (Z -> bool) -> regex          (* greedy [*] on a set *)
| LazyStar : (Z -> bool) -> regex      (* [*?] on a set *)
| Group : nat -> regex -> regex        (* capturing group number [n] *)
| Eos : regex.                         (* [$] *)

Definition Plus (p : Z -> bool) : regex := Cat (Set_ p) (Star p).

Fixpoint Rep (n : nat) (p : Z -> bool) : regex :=
  match n with
  | O => Eps
  | S O => Set_ p
  | S n' => Cat (Set_ p) (Rep n' p)
  end.

Fixpoint Lit (s : str) : regex :=
  match s with
  | [] => Eps
  | [c] => Set_ (is_char c)
  | c :: tl => Cat (Set_ (is_char c)) (Lit tl)
  end.

Definition groups := list (nat * str).

Section Matcher.

Variable R : Type.

(** A continuation receives the rest of the input, the characters
    consumed so far (last first) and the groups closed so far. *)
Definition cont := str -> str -> groups -> option R.

Definition orelse (a : option R) (b : option R) : option R :=
  match a with Some x => Some x | None => b end.

Fixpoint greedy (p : Z -> bool) (k : cont) (g : groups) (s acc : str) : option R :=
  match s with
  | c :: tl =>
      if p c then orelse (greedy p k g tl (c :: acc)) (k s acc g)
      else k s acc g
  | [] => k [] acc g
  end.

Fixpoint lazy (p : Z -> bool) (k : cont) (g : groups) (s acc : str) : option R :=
  match k s acc g with
  | Some x => Some x
  | None =>
      match s with
      | c :: tl => if p c then lazy p k g tl (c :: acc) else None
      | [] => None
      end
  end.

Fixpoint exec (r : regex) (s acc : str) (g : groups) (k : cont) : option R :=
  match r with
  | Eps => k s acc g
  | Set_ p =>
      match s with
      | c :: tl => if p c then k tl (c :: acc) g else None
      | [] => None
      end
  | Cat r1 r2 => exec r1 s acc g (fun s' acc' g' => exec r2 s' acc' g' k)
  | Alt r1 r2 => orelse (exec r1 s acc g k) (exec r2 s acc g k)
  | Star p => greedy p k g s acc
  | LazyStar p => lazy p k g s acc
  | Group n r' =>
      exec r' s [] g (fun s' acc' g' => k s' (acc' ++ acc) ((n, rev acc') :: g'))
  | Eos =>
      match s with
      | [] => k s acc g
      | [10] => k s acc g
      | _ => None
      end
  end.

End Matcher.

Arguments orelse {R} a b.
Arguments greedy {R} p k g s acc.
Arguments lazy {R} p k g s acc.
Arguments exec {R} r s acc g k.

(** A match object: [group(0)], the numbered groups and the input
    after the match. *)
Record rmatch : Type := mkMatch {
  m_text : str;
  m_groups : groups;
  m_rest : str
}.

Fixpoint lookup_group (n : nat) (g : groups) : str :=
  match g with
  | [] => []
  | (i, s) :: g' => if Nat.eqb i n then s else lookup_group n g'
  end.

(** [m.group(n)] for [n >= 1]. *)
Definition group (n : nat) (m : rmatch) : str := lookup_group n (m_groups m).

(** [pattern.match(s)]: a match starting at the first character. *)
Definition re_match (r : regex) (s : str) : option rmatch :=
  exec r s [] [] (fun s' acc g => Some (mkMatch (rev acc) g s')).

(** [re.search]: the first position with a match, and the text in front
    of it. *)
Fixpoint re_search_aux (r : regex) (s before : str) : option (str * rmatch) :=
  match re_match r s with
  | Some m => Some (rev before, m)
  | None =>
      match s with
      | [] => None
      | c :: tl => re_search_aux r tl (c :: before)
      end
  end.

Definition re_search (r : regex) (s : str) : option (str * rmatch) :=
  re_search_aux r s [].

(** The scanning loop shared by [finditer], [split] and [sub]: the
    input is read from left to right; [skip] counts the characters
    still covered by the last match.  None of the patterns of the module
    matches the empty string, and an empty match is passed over. *)
Fixpoint re_finditer_aux (r : regex) (s : str) (skip : nat) : list rmatch :=
  match s with
  | [] => []
  | _ :: tl =>
      match skip with
      | S n => re_finditer_aux r tl n
      | O =>
          match re_match r s with
          | Some m =>
              match m_text m with
              | [] => re_finditer_aux r tl 0
              | _ => m :: re_finditer_aux r tl (length (m_text m) - 1)
              end
          | None => re_finditer_aux r tl 0
          end
      end
  end.

(** [list(re.finditer(r, s))]. *)
Definition re_finditer (r : regex) (s : str) : list rmatch :=
  re_finditer_aux r s 0.

Fixpoint re_split_aux (r : regex) (s : str) (skip : nat) (cur : str) : list str :=
  match s with
  | [] => [rev cur]
  | c :: tl =>
      match skip with
      | S n => re_split_aux r tl n cur
      | O =>
          match re_match r s with
          | Some m =>
              match m_text m with
              | [] => re_split_aux r tl 0 (c :: cur)
              | _ => rev cur :: re_split_aux r tl (length (m_text m) - 1) []
              end
          | None => re_split_aux r tl 0 (c :: cur)
          end
      end
  end.

(** [re.split(r, s)] for a pattern without groups. *)
Definition re_split (r : regex) (s : str) : list str :=
  re_split_aux r s 0 [].

Fixpoint re_sub_aux (r : regex) (repl : str) (s : str) (skip : nat) : str :=
  match s with
  | [] => []
  | c :: tl =>
      match skip with
      | S n => re_sub_aux r repl tl n
      | O =>
          match re_match r s with
          | Some m =>
              match m_text m with
              | [] => c :: re_sub_aux r repl tl 0
              | _ => repl ++ re_sub_aux r repl tl (length (m_text m) - 1)
              end
          | None => c :: re_sub_aux r repl tl 0
          end
      end
  end.

(** [re.sub(r, repl, s)] for a replacement without references. *)
Definition re_sub (r : regex) (repl : str) (s : str) : str :=
  re_sub_aux r repl s 0.

(** ** Timing operations *)

Definition CHARS_PER_PHONEME : Z := 4.

(** The character sets of the token pattern of [split_to_word_segments]. *)
Definition cs_latin (c : Z) : bool :=
  in_range 97 122 c || in_range 65 90 c || in_range 0xc0 0xff c
  || in_range 0x100 0x17f c || (c =? 39).
Definition cs_cyrillic : Z -> bool := in_range 0x400 0x4ff.
Definition cs_greek : Z -> bool := in_range 0x370 0x3ff.
Definition cs_arabic : Z -> bool := in_range 0x600 0x6ff.
Definition cs_hebrew : Z -> bool := in_range 0x590 0x5ff.
Definition cs_cjk : Z -> bool := in_range 0x4e00 0x9fff.
Definition cs_hiragana : Z -> bool := in_range 0x3040 0x309f.
Definition cs_katakana : Z -> bool := in_range 0x30a0 0x30ff.
Definition cs_hangul : Z -> bool := in_range 0xac00 0xd7af.
Definition cs_thai : Z -> bool := in_range 0xe00 0xe7f.
Definition cs_thai_mark (c : Z) : bool :=
  in_range 0xe30 0xe3a c || in_range 0xe47 0xe4e c.
Definition cs_devanagari : Z -> bool := in_range 0x900 0x97f.
Definition cs_bengali : Z -> bool := in_range 0x980 0x9ff.
Definition cs_lao : Z -> bool := in_range 0xe80 0xeff.
Definition cs_burmese : Z -> bool := in_range 0x1000 0x109f.

(** The alternatives of the token pattern, in the order of the source. *)
Definition word_alternatives : list regex :=
  [ Plus cs_latin; Plus cs_cyrillic; Plus cs_greek; Plus cs_arabic;
    Plus cs_hebrew; Plus isdecimal;
    Set_ cs_cjk; Set_ cs_hiragana; Set_ cs_katakana; Set_ cs_hangul;
    Cat (Set_ cs_thai) (Star cs_thai_mark);
    Set_ cs_devanagari; Set_ cs_bengali; Set_ cs_lao; Set_ cs_burmese ].

Fixpoint alternation (rs : list regex) : regex :=
  match rs with
  | [] => Set_ (fun _ => false)
  | [r] => r
  | r :: rest => Alt r (alternation rest)
  end.

Definition word_pattern : regex := alternation word_alternatives.

(** [math.ceil(len(w) / CHARS_PER_PHONEME)]. *)
Definition phonemes (w : str) : Z :=
  ceil_div (Z.of_nat (length w)) CHARS_PER_PHONEME.

Definition sum_Z (l : list Z) : Z := fold_left Z.add l 0.

(** The inner loop of [split_to_word_segments] over the words of one
    segment. *)
Fixpoint word_segments (time_per_phoneme : float) (seg_end : Z)
         (words : list str) (current_time : Z) : list ASRDataSeg :=
  match words with
  | [] => []
  | word :: rest =>
      let word_phonemes := phonemes word in
      let word_duration :=
        int_of_float (PrimFloat.mul time_per_phoneme (float_of_int word_phonemes)) in
      let word_end_time := Z.min (current_time + word_duration) seg_end in
      mkSeg word [] current_time word_end_time
        :: word_segments time_per_phoneme seg_end rest word_end_time
  end.

(** The body of the outer loop: the segments one segment is split into. *)
Definition split_segment (seg : ASRDataSeg) : list ASRDataSeg :=
  let duration := end_time seg - start_time seg in
  let words_list := map m_text (re_finditer word_pattern (text seg)) in
  match words_list with
  | [] => []
  | _ =>
      let total_phonemes := sum_Z (map phonemes words_list) in
      let time_per_phoneme := true_div duration (Z.max total_phonemes 1) in
      word_segments time_per_phoneme (end_time seg) words_list (start_time seg)
  end.

Definition split_to_word_segments (d : ASRData) : ASRData :=
  mkData (flat_map split_segment (segments d)).

(** The two marks [remove_punctuation] strips: a full-width comma and an
    ideographic full stop. *)
Definition cs_punctuation (c : Z) : bool := (c =? 0xff0c) || (c =? 0x3002).

Definition punctuation_pattern : regex := Cat (Plus cs_punctuation) Eos.

Definition remove_punctuation (d : ASRData) : ASRData :=
  mkData
    (map (fun seg =>
            mkSeg (re_sub punctuation_pattern [] (strip (text seg)))
                  (re_sub punctuation_pattern [] (strip (translated_text seg)))
                  (start_time seg) (end_time seg))
         (segments d)).

(** [l[i] = f(l[i])]. *)
Fixpoint update_nth {A : Type} (i : nat) (f : A -> A) (l : list A) : list A :=
  match l, i with
  | [], _ => []
  | x :: tl, O => f x :: tl
  | x :: tl, S i' => x :: update_nth i' f tl
  end.

(** One iteration of the loop of [optimize_timing]. *)
Definition optimize_step (threshold_ms : Z) (segs : list ASRDataSeg) (i : nat)
  : list ASRDataSeg :=
  match nth_error segs i, nth_error segs (S i) with
  | Some current_seg, Some next_seg =>
      let time_gap := start_time next_seg - end_time current_seg in
      if time_gap <? threshold_ms then
        let mid_time :=
          (end_time current_seg + start_time next_seg) / 2 + time_gap / 4 in
        update_nth (S i) (set_start_time mid_time)
                   (update_nth i (set_end_time mid_time) segs)
      else segs
  | _, _ => segs
  end.

Definition optimize_timing (threshold_ms : Z) (d : ASRData) : ASRData :=
  if is_word_timestamp d then d
  else
    match segments d with
    | [] => d
    | _ =>
        mkData (fold_left (optimize_step threshold_ms)
                          (seq 0 (length (segments d) - 1)) (segments d))
    end.

(** ** Merging *)

(** [merge_segments]; [merged_text] is [None] when the argument is
    left out. *)
Definition merge_segments (d : ASRData) (start_index end_index : Z)
           (merged_text : option str) : result ASRData :=
  let segs := segments d in
  if (start_index <? 0) || (end_index >=? Z.of_nat (length segs))
     || (start_index >? end_index)
  then Raise IndexError
  else
    let i := Z.to_nat start_index in
    let j := Z.to_nat end_index in
    match nth_error segs i, nth_error segs j with
    | Some first, Some last =>
        let slice := firstn (S j - i) (skipn i segs) in
        let merged_text' :=
          match merged_text with
          | Some t => t
          | None => concat (map text slice)
          end in
        let merged_seg := mkSeg merged_text' [] (start_time first) (end_time last) in
        Ok (mkData (firstn i segs ++ merged_seg :: skipn (S j) segs))
    | _, _ => Raise IndexError
    end.

Definition merge_with_next_segment (d : ASRData) (index : Z) : result ASRData :=
  let segs := segments d in
  if (index <? 0) || (index >=? Z.of_nat (length segs) - 1)
  then Raise IndexError
  else
    let i := Z.to_nat index in
    match nth_error segs i, nth_error segs (S i) with
    | Some current_seg, Some next_seg =>
        let merged_text := text current_seg ++ u " " ++ text next_seg in
        let merged_seg :=
          mkSeg merged_text [] (start_time current_seg) (end_time next_seg) in
        Ok (mkData (firstn i segs ++ merged_seg :: skipn (S (S i)) segs))
    | _, _ => Raise IndexError
    end.

(** ** Serializers *)

Definition layout_original_on_top : str := u "原文在上".
Definition layout_translation_on_top : str := u "译文在上".
Definition layout_original_only : str := u "仅原文".
Definition layout_translation_only : str := u "仅译文".

(** The text of one entry of [to_txt] and [to_srt] under a layout;
    a non-empty string is true. *)
Definition layout_text (layout : str) (seg : ASRDataSeg) : str :=
  let original := text seg in
  let translated := translated_text seg in
  if str_eqb layout layout_original_on_top then
    if is_empty translated then original else original ++ [NL] ++ translated
  else if str_eqb layout layout_translation_on_top then
    if is_empty translated then original else translated ++ [NL] ++ original
  else if str_eqb layout layout_original_only then original
  else if str_eqb layout layout_translation_only then
    if is_empty translated then original else translated
  else transcript seg.

(** [enumerate(l, n)]. *)
Fixpoint enumerate {A : Type} (n : Z) (l : list A) : list (Z * A) :=
  match l with
  | [] => []
  | x :: tl => (n, x) :: enumerate (n + 1) tl
  end.

Definition srt_entry (layout : str) (ns : Z * ASRDataSeg) : str :=
  let (n, seg) := ns in
  str_of_int n ++ [NL] ++ to_srt_ts seg ++ [NL] ++ layout_text layout seg ++ [NL].

Definition to_srt (layout : str) (d : ASRData) : str :=
  join [NL] (map (srt_entry layout) (enumerate 1 (segments d))).

(** [to_lrc] and [to_vtt] are not implemented. *)
Definition to_lrc (d : ASRData) : result str := Raise NotImplementedError.

Definition to_vtt (d : ASRData) : result str := Raise NotImplementedError.

(** The record [to_json] stores under each key. *)
Record json_segment : Type := mkJson {
  j_start_time : Z;
  j_end_time : Z;
  j_original_subtitle : str;
  j_translated_subtitle : str
}.

(** A [dict] with string keys: the items in insertion order. *)
Definition dict := list (str * json_segment).

(** [d[k] = v]. *)
Fixpoint dict_set (k : str) (v : json_segment) (d : dict) : dict :=
  match d with
  | [] => [(k, v)]
  | (k', v') :: rest =>
      if str_eqb k' k then (k', v) :: rest else (k', v') :: dict_set k v rest
  end.

(** [d[k]]. *)
Fixpoint dict_get (k : str) (d : dict) : option json_segment :=
  match d with
  | [] => None
  | (k', v') :: rest => if str_eqb k' k then Some v' else dict_get k rest
  end.

Definition to_json (d : ASRData) : dict :=
  fold_left
    (fun result_json (isg : Z * ASRDataSeg) =>
       let (i, segment) := isg in
       dict_set (str_of_int i)
                (mkJson (start_time segment) (end_time segment)
                        (text segment) (translated_text segment))
                result_json)
    (enumerate 1 (segments d)) [].

Definition default_style_str : str :=
  u "[V4+ Styles]" ++ [NL]
  ++ u "Format: Name,Fontname,Fontsize,PrimaryColour,SecondaryColour,OutlineColour,BackColour,"
  ++ u "Bold,Italic,Underline,StrikeOut,ScaleX,ScaleY,Spacing,Angle,BorderStyle,Outline,Shadow,"
  ++ u "Alignment,MarginL,MarginR,MarginV,Encoding" ++ [NL]
  ++ u "Style: Default,MicrosoftYaHei-Bold,40,&H00FFFFFF,&H000000FF,&H00000000,&H00000000,-1,0,0,0,100,100,"
  ++ u "0,0,1,2,0,2,10,10,15,1" ++ [NL]
  ++ u "Style: Secondary,MicrosoftYaHei-Bold,30,&H00FFFFFF,&H000000FF,&H00000000,&H00000000,-1,0,0,0,100,100,"
  ++ u "0,0,1,2,0,2,10,10,15,1".

Definition ass_header (style_str : str) : str :=
  u "[Script Info]" ++ [NL]
  ++ u "; Script generated by VideoCaptioner" ++ [NL]
  ++ u "; https://github.com/weifeng2333" ++ [NL]
  ++ u "ScriptType: v4.00+" ++ [NL]
  ++ u "PlayResX: 1280" ++ [NL]
  ++ u "PlayResY: 720" ++ [NL] ++ [NL]
  ++ style_str ++ [NL] ++ [NL]
  ++ u "[Events]" ++ [NL]
  ++ u "Format: Layer, Start, End, Style, Name, MarginL, MarginR, MarginV, Effect, Text"
  ++ [NL].

(** [dialogue_template.format(start, end, style, text)]. *)
Definition dialogue (start_ts end_ts style txt : str) : str :=
  u "Dialogue: 0," ++ start_ts ++ u "," ++ end_ts ++ u "," ++ style
  ++ u ",,0,0,0,," ++ txt ++ [NL].

(** What the loop of [to_ass] appends for one segment. *)
Definition ass_lines (layout : str) (seg : ASRDataSeg) : str :=
  let (start_ts, end_ts) := to_ass_ts seg in
  let original := text seg in
  let translated := translated_text seg in
  let has_translation := nonblank translated in
  if str_eqb layout layout_translation_on_top then
    if has_translation then
      dialogue start_ts end_ts (u "Secondary") original
      ++ dialogue start_ts end_ts (u "Default") translated
    else dialogue start_ts end_ts (u "Default") original
  else if str_eqb layout layout_original_on_top then
    if has_translation then
      dialogue start_ts end_ts (u "Secondary") translated
      ++ dialogue start_ts end_ts (u "Default") original
    else dialogue start_ts end_ts (u "Default") original
  else if str_eqb layout layout_original_only then
    dialogue start_ts end_ts (u "Default") original
  else if str_eqb layout layout_translation_only then
    dialogue start_ts end_ts (u "Default")
             (if has_translation then translated else original)
  else [].

(** [to_ass]; [style_str] is [None] when the argument is left out, and
    an empty style string is replaced by the default as well. *)
Definition to_ass (style_str : option str) (layout : str) (d : ASRData) : str :=
  let style :=
    match style_str with
    | Some (c :: s) => c :: s
    | _ => default_style_str
    end in
  fold_left (fun ass_content seg => ass_content ++ ass_lines layout seg)
            (segments d) (ass_header style).

(** ** Parsers *)

(** [sorted(keys, key=int)], stable, on keys paired with their value
    under [int]. *)
Fixpoint insert_by_key (x : Z * str) (l : list (Z * str)) : list (Z * str) :=
  match l with
  | [] => [x]
  | y :: l' => if fst x <=? fst y then x :: l else y :: insert_by_key x l'
  end.

Fixpoint sort_by_key (l : list (Z * str)) : list (Z * str) :=
  match l with
  | [] => []
  | x :: l' => insert_by_key x (sort_by_key l')
  end.

(** [[(int(k), k) for k in keys]], or the first failure of [int]. *)
Fixpoint keys_with_int (keys : list str) : result (list (Z * str)) :=
  match keys with
  | [] => Ok []
  | k :: rest =>
      match int_of_str k with
      | None => Raise ValueError
      | Some n =>
          match keys_with_int rest with
          | Ok l => Ok ((n, k) :: l)
          | Raise e => Raise e
          end
      end
  end.

Fixpoint json_segments (json_data : dict) (keys : list str)
  : result (list ASRDataSeg) :=
  match keys with
  | [] => Ok []
  | i :: rest =>
      match dict_get i json_data with
      | None => Raise KeyError
      | Some segment_data =>
          match json_segments json_data rest with
          | Ok l =>
              Ok (mkSeg (j_original_subtitle segment_data)
                        (j_translated_subtitle segment_data)
                        (j_start_time segment_data)
                        (j_end_time segment_data) :: l)
          | Raise e => Raise e
          end
      end
  end.

Definition from_json (json_data : dict) : result ASRData :=
  match keys_with_int (map fst json_data) with
  | Raise e => Raise e
  | Ok ks =>
      match json_segments json_data (map snd (sort_by_key ks)) with
      | Ok segs => Ok (ASRData_init segs)
      | Raise e => Raise e
      end
  end.

(** [int(s)] on a group matched by [\d] repetitions, where it cannot
    fail. *)
Definition int_of_group (s : str) : Z :=
  match int_of_str s with Some n => n | None => 0 end.

Definition cs_dot_comma (c : Z) : bool := (c =? 46) || (c =? 44).

(** [(\d{2}):(\d{2}):(\d{1,2})[.,](\d{3})], with groups [n+1 .. n+4]. *)
Definition srt_time (n : nat) : regex :=
  Cat (Group (n + 1) (Rep 2 isdecimal))
 (Cat (Lit (u ":"))
 (Cat (Group (n + 2) (Rep 2 isdecimal))
 (Cat (Lit (u ":"))
 (Cat (Group (n + 3) (Cat (Set_ isdecimal) (Alt (Set_ isdecimal) Eps)))
 (Cat (Set_ cs_dot_comma)
      (Group (n + 4) (Rep 3 isdecimal))))))).

Definition srt_time_pattern : regex :=
  Cat (srt_time 0)
 (Cat (Set_ isspace)
 (Cat (Lit (u "-->"))
 (Cat (Set_ isspace)
      (srt_time 4)))).

(** [\n\s*\n]. *)
Definition srt_block_separator : regex :=
  Cat (Lit [NL]) (Cat (Star isspace) (Lit [NL])).

(** The float literal [0.98]. *)
Definition float_0_98 : float := true_div 98 100.

(** The test that decides whether the fourth line of a block is read as
    the translation. *)
Definition srt_has_translation (blocks : list str) : bool :=
  let blocks_lines_count := map (fun block => length (splitlines block)) blocks in
  (Nat.ltb 0 (length blocks_lines_count))
  && forallb (fun count => Nat.leb count 4) blocks_lines_count
  && float_ge
       (true_div (Z.of_nat (length (filter (fun count => Nat.eqb count 4)
                                           blocks_lines_count)))
                 (Z.of_nat (length blocks_lines_count)))
       float_0_98.

Definition time_of_parts (h m s ms : Z) : Z :=
  h * 3600000 + m * 60000 + s * 1000 + ms.

(** The body of the loop of [from_srt]: the segment a block yields, if
    any. *)
Definition srt_block_segment (has_translated_subtitle : bool) (block : str)
  : list ASRDataSeg :=
  let lines := splitlines block in
  match lines with
  | _ :: line1 :: line2 :: more =>
      match re_match srt_time_pattern line1 with
      | None => []
      | Some m =>
          let part n := int_of_group (group n m) in
          let start_time := time_of_parts (part 1%nat) (part 2%nat) (part 3%nat) (part 4%nat) in
          let end_time := time_of_parts (part 5%nat) (part 6%nat) (part 7%nat) (part 8%nat) in
          match has_translated_subtitle, more with
          | true, line3 :: _ => [mkSeg line2 line3 start_time end_time]
          | _, _ => [mkSeg line2 [] start_time end_time]
          end
      end
  | _ => []
  end.

Definition from_srt (srt_str : str) : ASRData :=
  let blocks := re_split srt_block_separator (strip srt_str) in
  let has_translated_subtitle := srt_has_translation blocks in
  ASRData_init (flat_map (srt_block_segment has_translated_subtitle) blocks).

(** [float(s)] for digits with an optional fraction: the nearest
    binary64 value. *)
Definition float_of_str (s : str) : float :=
  match split_on 46 s with
  | [ip] => float_of_int (int_of_group ip)
  | [ip; fp] => true_div (int_of_group (ip ++ fp)) (10 ^ Z.of_nat (length fp))
  | _ => PrimFloat.nan
  end.

(** [parse_timestamp] of [from_youtube_vtt]. *)
Definition parse_timestamp (ts : str) : Z :=
  match split_on 58 ts with
  | [h; m; s] =>
      int_of_float
        (PrimFloat.add
           (PrimFloat.add
              (PrimFloat.mul (float_of_str h) (float_of_int 3600000))
              (PrimFloat.mul (float_of_str m) (float_of_int 60000)))
           (PrimFloat.mul (float_of_str s) (float_of_int 1000)))
  | _ => 0
  end.

Definition cs_not (a : Z) (c : Z) : bool := negb (c =? a).

(** [\d{2}:\d{2}:\d{2}\.\d{3}]. *)
Definition vtt_clock : regex :=
  Cat (Rep 2 isdecimal)
 (Cat (Lit (u ":"))
 (Cat (Rep 2 isdecimal)
 (Cat (Lit (u ":"))
 (Cat (Rep 2 isdecimal)
 (Cat (Lit (u "."))
      (Rep 3 isdecimal)))))).

(** [<(\d{2}:\d{2}:\d{2}\.\d{3})>] followed by the group [[^<]*]. *)
Definition word_timestamp_pattern : regex :=
  Cat (Lit (u "<"))
 (Cat (Group 1 vtt_clock)
 (Cat (Lit (u ">"))
      (Group 2 (Star (cs_not 60))))).

(** The body of the loop of [split_timestamped_text]. *)
Definition word_segment_at (matches : list rmatch) (i : nat) : list ASRDataSeg :=
  match nth_error matches i, nth_error matches (S i) with
  | Some current_match, Some next_match =>
      let start_time := parse_timestamp (group 1 current_match) in
      let end_time := parse_timestamp (group 1 next_match) in
      let word := strip (group 2 current_match) in
      if is_empty word then [] else [mkSeg word [] start_time end_time]
  | _, _ => []
  end.

Definition split_timestamped_text (txt : str) : list ASRDataSeg :=
  let matches := re_finditer word_timestamp_pattern txt in
  flat_map (word_segment_at matches) (seq 0 (length matches - 1)).

(** [(\d{2}):(\d{2}):(\d{2}\.\d{3})], with groups [n+1 .. n+3]. *)
Definition vtt_time (n : nat) : regex :=
  Cat (Group (n + 1) (Rep 2 isdecimal))
 (Cat (Lit (u ":"))
 (Cat (Group (n + 2) (Rep 2 isdecimal))
 (Cat (Lit (u ":"))
      (Group (n + 3) (Cat (Rep 2 isdecimal) (Cat (Lit (u ".")) (Rep 3 isdecimal))))))).

Definition vtt_timestamp_pattern : regex :=
  Cat (vtt_time 0)
 (Cat (Star isspace)
 (Cat (Lit (u "-->"))
 (Cat (Star isspace)
      (vtt_time 3)))).

(** [\n\n+]. *)
Definition vtt_block_separator : regex :=
  Cat (Lit [NL]) (Plus (is_char NL)).

(** [\n] followed by the group [.*?<c>.*?</c>.*]. *)
Definition timestamp_row_pattern : regex :=
  Cat (Lit [NL])
      (Group 1 (Cat (LazyStar (cs_not NL))
               (Cat (Lit (u "<c>"))
               (Cat (LazyStar (cs_not NL))
               (Cat (Lit (u "</c>"))
                    (Star (cs_not NL))))))).

(** [<c>|</c>]. *)
Definition c_tag_pattern : regex := Alt (Lit (u "<c>")) (Lit (u "</c>")).

(** The text handed to [split_timestamped_text] for a block whose
    first line matched with [m] and whose marked-up line is [row]. *)
Definition wrap_block_times (m : rmatch) (row : str) : str :=
  let block_start_time_string :=
    group 1 m ++ u ":" ++ group 2 m ++ u ":" ++ group 3 m in
  let block_end_time_string :=
    group 4 m ++ u ":" ++ group 5 m ++ u ":" ++ group 6 m in
  u "<" ++ block_start_time_string ++ u ">" ++ re_sub c_tag_pattern [] row
    ++ u "<" ++ block_end_time_string ++ u ">".

(** The body of the loop of [from_youtube_vtt]: the word segments of
    one block. *)
Definition vtt_block_segments (block : str) : list ASRDataSeg :=
  let lines := split_on NL (strip block) in
  match re_match vtt_timestamp_pattern (hd [] lines) with
  | None => []
  | Some m =>
      match re_search timestamp_row_pattern block with
      | None => []
      | Some (_, timestamp_row) =>
          split_timestamped_text (wrap_block_times m (group 1 timestamp_row))
      end
  end.

Definition from_youtube_vtt (vtt_str : str) : ASRData :=
  let blocks := re_split vtt_block_separator (strip vtt_str) in
  ASRData_init (flat_map vtt_block_segments blocks).

(** ** Plain text output *)

(** [to_txt]: the entries of the segments under the layout, one per
    line. *)
Definition to_txt (layout : str) (d : ASRData) : str :=
  join [NL] (map (layout_text layout) (segments d)).

(** [ASRData.__str__]. *)
Definition ASRData_str (d : ASRData) : str := to_txt layout_original_on_top d.

(** ** More string methods *)

(** [s.startswith(prefix)]. *)
Fixpoint startswith (prefix s : str) : bool :=
  match prefix, s with
  | [], _ => true
  | p :: prefix', c :: s' => (c =? p) && startswith prefix' s'
  | _ :: _, [] => false
  end.

(** [sub in s]. *)
Fixpoint contains (sub s : str) : bool :=
  match s with
  | [] => startswith sub []
  | _ :: tl => startswith sub s || contains sub tl
  end.

(** [s.split(sep)] for a separator that is not empty: the occurrences
    are taken from left to right and do not overlap. *)
Fixpoint split_str_aux (sep s : str) (skip : nat) (cur : str) : list str :=
  match s with
  | [] => [rev cur]
  | c :: tl =>
      match skip with
      | S n => split_str_aux sep tl n cur
      | O =>
          if startswith sep s
          then rev cur :: split_str_aux sep tl (length sep - 1) []
          else split_str_aux sep tl 0 (c :: cur)
      end
  end.

Definition split_str (sep s : str) : list str := split_str_aux sep s 0 [].

(** [s.replace(old, new)] for an [old] that is not empty. *)
Fixpoint replace_aux (old new s : str) (skip : nat) : str :=
  match s with
  | [] => []
  | c :: tl =>
      match skip with
      | S n => replace_aux old new tl n
      | O =>
          if startswith old s
          then new ++ replace_aux old new tl (length old - 1)
          else c :: replace_aux old new tl 0
      end
  end.

Definition replace (old new s : str) : str := replace_aux old new s 0.

(** ** Long paths *)

Section LongPath.

(** The answer of [platform.system()] and the function
    [os.path.abspath] of the machine the program runs on. *)
Variable platform_system : str.
Variable abspath : str -> str.

(** The prefix of an extended-length path: two backslashes, a question
    mark, a backslash. *)
Definition long_path_prefix : str := [92; 92; 63; 92].

Definition handle_long_path (path : str) : str :=
  if str_eqb platform_system (u "Windows") then
    if Nat.ltb 260 (length path) && negb (startswith long_path_prefix path)
    then long_path_prefix ++ abspath path
    else path
  else path.

End LongPath.

(** ** WebVTT cues *)

(** [(\d{2}):(\d{2}):(\d{2})\.(\d{3})], with groups [n+1 .. n+4]. *)
Definition vtt_long_time (n : nat) : regex :=
  Cat (Group (n + 1) (Rep 2 isdecimal))
 (Cat (Lit (u ":"))
 (Cat (Group (n + 2) (Rep 2 isdecimal))
 (Cat (Lit (u ":"))
 (Cat (Group (n + 3) (Rep 2 isdecimal))
 (Cat (Lit (u "."))
      (Group (n + 4) (Rep 3 isdecimal))))))).

(** [(\d{2}):(\d{2})\.(\d{3})], with groups [n+1 .. n+3]. *)
Definition vtt_short_time (n : nat) : regex :=
  Cat (Group (n + 1) (Rep 2 isdecimal))
 (Cat (Lit (u ":"))
 (Cat (Group (n + 2) (Rep 2 isdecimal))
 (Cat (Lit (u "."))
      (Group (n + 3) (Rep 3 isdecimal))))).

(** The two patterns of [from_vtt]: both sides with hours, or both
    without. *)
Definition from_vtt_timestamp_pattern : regex :=
  Cat (vtt_long_time 0)
 (Cat (Star isspace)
 (Cat (Lit (u "-->"))
 (Cat (Star isspace)
      (vtt_long_time 4)))).

Definition from_vtt_timestamp_pattern2 : regex :=
  Cat (vtt_short_time 0)
 (Cat (Star isspace)
 (Cat (Lit (u "-->"))
 (Cat (Star isspace)
      (vtt_short_time 3)))).

(** [<\d{2}:\d{2}:\d{2}\.\d{3}>]. *)
Definition inline_timestamp_pattern : regex :=
  Cat (Lit (u "<")) (Cat vtt_clock (Lit (u ">"))).

(** [</?c>]. *)
Definition c_open_close_pattern : regex :=
  Cat (Lit (u "<")) (Cat (Alt (Lit (u "/")) Eps) (Lit (u "c>"))).

(** The start and end time a timestamp line gives: the pattern with
    hours is tried first. *)
Definition vtt_cue_times (timestamp_line : str) : option (Z * Z) :=
  match re_match from_vtt_timestamp_pattern timestamp_line with
  | Some m =>
      let part n := int_of_group (group n m) in
      Some (time_of_parts (part 1%nat) (part 2%nat) (part 3%nat) (part 4%nat),
            time_of_parts (part 5%nat) (part 6%nat) (part 7%nat) (part 8%nat))
  | None =>
      match re_match from_vtt_timestamp_pattern2 timestamp_line with
      | Some m =>
          let part n := int_of_group (group n m) in
          Some (part 1%nat * 60000 + part 2%nat * 1000 + part 3%nat,
                part 4%nat * 60000 + part 5%nat * 1000 + part 6%nat)
      | None => None
      end
  end.

(** The body of the loop of [from_vtt]: the segment a block yields, if
    any. *)
Definition vtt_cue_segment (block : str) : list ASRDataSeg :=
  let lines := split_on NL (strip block) in
  match lines with
  | line0 :: line1 :: more =>
      let arrow_in_first := contains (u "-->") line0 in
      let timestamp_line := if arrow_in_first then line0 else line1 in
      match vtt_cue_times timestamp_line with
      | None => []
      | Some (start_time, end_time) =>
          let text_line :=
            join (u " ") (if arrow_in_first then line1 :: more else more) in
          let cleaned_text :=
            strip (re_sub c_open_close_pattern []
                          (re_sub inline_timestamp_pattern [] text_line)) in
          if negb (is_empty cleaned_text) && negb (str_eqb cleaned_text (u " "))
          then [mkSeg cleaned_text [] start_time end_time]
          else []
      end
  | _ => []
  end.

(** [from_vtt]: the first two blocks are taken for the header. *)
Definition from_vtt (vtt_str : str) : ASRData :=
  let content := skipn 2 (split_str [NL; NL] vtt_str) in
  ASRData_init (flat_map vtt_cue_segment content).

(** ** ASS events *)

(** [\d+:\d{2}:\d{2}\.\d{2}]. *)
Definition ass_clock : regex :=
  Cat (Plus isdecimal)
 (Cat (Lit (u ":"))
 (Cat (Rep 2 isdecimal)
 (Cat (Lit (u ":"))
 (Cat (Rep 2 isdecimal)
 (Cat (Lit (u "."))
      (Rep 2 isdecimal)))))).

(** A dot of a pattern: any character but a line feed. *)
Definition cs_dot : Z -> bool := cs_not NL.

(** [Dialogue: \d+,(clock),(clock),(.*?),.*?,\d+,\d+,\d+,.*?,(.*?)$]. *)
Definition ass_time_pattern : regex :=
  Cat (Lit (u "Dialogue: "))
 (Cat (Plus isdecimal)
 (Cat (Lit (u ","))
 (Cat (Group 1 ass_clock)
 (Cat (Lit (u ","))
 (Cat (Group 2 ass_clock)
 (Cat (Lit (u ","))
 (Cat (Group 3 (LazyStar cs_dot))
 (Cat (Lit (u ","))
 (Cat (LazyStar cs_dot)
 (Cat (Lit (u ","))
 (Cat (Plus isdecimal)
 (Cat (Lit (u ","))
 (Cat (Plus isdecimal)
 (Cat (Lit (u ","))
 (Cat (Plus isdecimal)
 (Cat (Lit (u ","))
 (Cat (LazyStar cs_dot)
 (Cat (Lit (u ","))
 (Cat (Group 4 (LazyStar cs_dot))
      Eos))))))))))))))))))).

(** [parse_ass_time]: unpacking the wrong number of parts raises
    [ValueError], and so does [int]. *)
Definition parse_ass_time (time_str : str) : result Z :=
  match split_on 58 time_str with
  | [hours; minutes; seconds0] =>
      match split_on 46 seconds0 with
      | [seconds; centiseconds] =>
          match int_of_str hours, int_of_str minutes,
                int_of_str seconds, int_of_str centiseconds with
          | Some h, Some m, Some s, Some cs =>
              Ok (h * 3600000 + m * 60000 + s * 1000 + cs * 10)
          | _, _, _, _ => Raise ValueError
          end
      | _ => Raise ValueError
      end
  | _ => Raise ValueError
  end.

(** [\{[^}]*\}]: an override block. *)
Definition override_block_pattern : regex :=
  Cat (Lit (u "{")) (Cat (Star (cs_not 125)) (Lit (u "}"))).

(** The marker that tells a file written by [to_ass]. *)
Definition generated_marker : str := u "Script generated by VideoCaptioner".

(** The dictionary [temp_segments], keyed by the two times: the items
    in insertion order. *)
Definition temp_dict := list (str * ASRDataSeg).

Fixpoint temp_get (k : str) (t : temp_dict) : option ASRDataSeg :=
  match t with
  | [] => None
  | (k', seg) :: rest => if str_eqb k' k then Some seg else temp_get k rest
  end.

Fixpoint temp_del (k : str) (t : temp_dict) : temp_dict :=
  match t with
  | [] => []
  | (k', seg) :: rest => if str_eqb k' k then rest else (k', seg) :: temp_del k rest
  end.

Definition set_text (t : str) (s : ASRDataSeg) : ASRDataSeg :=
  mkSeg t (translated_text s) (start_time s) (end_time s).

Definition set_translated_text (t : str) (s : ASRDataSeg) : ASRDataSeg :=
  mkSeg (text s) t (start_time s) (end_time s).

(** A line of style [Default] carries the translation, any other style
    the original text. *)
Definition put_by_style (style txt : str) (s : ASRDataSeg) : ASRDataSeg :=
  if str_eqb style (u "Default") then set_translated_text txt s
  else set_text txt s.

(** The state of the loop of [from_ass]: [segments] and
    [temp_segments]. *)
Definition ass_state : Type := list ASRDataSeg * temp_dict.

(** The body of the loop of [from_ass] for one line. *)
Definition ass_line_step (has_translation : bool) (st : ass_state) (line : str)
  : result ass_state :=
  let (segs, temp_segments) := st in
  if startswith (u "Dialogue:") line then
    match re_match ass_time_pattern line with
    | None => Ok st
    | Some m =>
        match parse_ass_time (group 1 m) with
        | Raise e => Raise e
        | Ok start_time =>
            match parse_ass_time (group 2 m) with
            | Raise e => Raise e
            | Ok end_time =>
                let style := strip (group 3 m) in
                let txt :=
                  strip (replace [92; 78] [NL]
                                 (re_sub override_block_pattern [] (group 4 m))) in
                if is_empty txt then Ok st
                else if has_translation then
                  let time_key :=
                    str_of_int start_time ++ u "-" ++ str_of_int end_time in
                  match temp_get time_key temp_segments with
                  | Some seg =>
                      Ok (segs ++ [put_by_style style txt seg],
                          temp_del time_key temp_segments)
                  | None =>
                      let segment := mkSeg [] [] start_time end_time in
                      Ok (segs,
                          temp_segments ++ [(time_key, put_by_style style txt segment)])
                  end
                else Ok (segs ++ [mkSeg txt [] start_time end_time], temp_segments)
            end
        end
    end
  else Ok st.

Fixpoint ass_loop (has_translation : bool) (st : ass_state) (lines : list str)
  : result ass_state :=
  match lines with
  | [] => Ok st
  | line :: rest =>
      match ass_line_step has_translation st line with
      | Ok st' => ass_loop has_translation st' rest
      | Raise e => Raise e
      end
  end.

(** [from_ass]: the segments still waiting for their second line are
    appended at the end. *)
Definition from_ass (ass_str : str) : result ASRData :=
  let has_translation := contains generated_marker ass_str in
  match ass_loop has_translation ([], []) (splitlines ass_str) with
  | Ok (segs, temp_segments) => Ok (ASRData_init (segs ++ map snd temp_segments))
  | Raise e => Raise e
  end.

(** ** Specification vocabulary *)

Definition start_le (a b : ASRDataSeg) : Prop := start_time a <= start_time b.

(** The document invariant: sorted by start time, no blank text. *)
Definition sorted_by_start (l : list ASRDataSeg) : Prop := Sorted start_le l.

Definition all_nonblank (l : list ASRDataSeg) : Prop :=
  Forall (fun seg => strip (text seg) <> []) l.

(** Segments with start time [t], in the order of the list. *)
Definition with_start (t : Z) (l : list ASRDataSeg) : list ASRDataSeg :=
  filter (fun seg => start_time seg =? t) l.

Definition doc_invariant (d : ASRData) : Prop :=
  sorted_by_start (segments d) /\ all_nonblank (segments d).

(** The tuple [(originalText, translatedText, startMs, endMs)]. *)
Definition seg_tuple (seg : ASRDataSeg) : str * str * Z * Z :=
  (text seg, translated_text seg, start_time seg, end_time seg).

Definition tuples (d : ASRData) : list (str * str * Z * Z) :=
  map seg_tuple (segments d).

(** The layouts [to_ass] has a branch for. *)
Definition recognized_layout (layout : str) : bool :=
  str_eqb layout layout_translation_on_top
  || str_eqb layout layout_original_on_top
  || str_eqb layout layout_original_only
  || str_eqb layout layout_translation_only.

(** [0 <= start_index <= end_index < count]. *)
Definition valid_merge_range (start_index end_index : Z) (count : nat) : Prop :=
  0 <= start_index /\ start_index <= end_index /\ end_index < Z.of_nat count.

(** The record [to_json] stores for a segment. *)
Definition json_of (seg : ASRDataSeg) : json_segment :=
  mkJson (start_time seg) (end_time seg) (text seg) (translated_text seg).

(** The items of the dictionary [to_json] builds for segments numbered
    from [n]. *)
Definition json_items (n : Z) (segs : list ASRDataSeg) : dict :=
  map (fun isg : Z * ASRDataSeg => (str_of_int (fst isg), json_of (snd isg)))
      (enumerate n segs).

(** Every key of the dictionary is [str(j)] for some [0 <= j < n]. *)
Definition keys_below (n : Z) (dct : dict) : Prop :=
  forall k v, In (k, v) dct -> exists j, 0 <= j < n /\ k = str_of_int j.

(** Every character set of the pattern lies within [P]. *)
Fixpoint within (P : Z -> Prop) (r : regex) : Prop :=
  match r with
  | Eps | Eos => True
  | Set_ p | Star p | LazyStar p => forall c, p c = true -> P c
  | Cat a b | Alt a b => within P a /\ within P b
  | Group _ a => within P a
  end.

(** A document made of one segment whose text is a lone ideographic
    full stop, after [remove_punctuation]. *)
Definition full_stop_doc : ASRData :=
  remove_punctuation (ASRData_init [mkSeg (u "。") [] 0 1000]).

(** Two segments over [0, 1000) and [1200, 2000). *)
Definition two_line_doc : ASRData :=
  ASRData_init [mkSeg (u "hello world") [] 0 1000;
                mkSeg (u "good bye now") [] 1200 2000].

(** The string has a character that is not white space. *)
Definition has_nonspace (s : str) : Prop :=
  exists c, In c s /\ isspace c = false.

(** No segment overlaps the next one: every start is at most the end,
    and every end is at most the start of the following segment. *)
Definition well_spaced (l : list ASRDataSeg) : Prop :=
  (forall i a, nth_error l i = Some a -> start_time a <= end_time a)
  /\ (forall i a b, nth_error l i = Some a -> nth_error l (S i) = Some b ->
                    end_time a <= start_time b).

(** Three segments, the first of which overlaps the two others. *)
Definition overlapping_doc : ASRData :=
  ASRData_init [mkSeg (u "one two") [] 0 5000;
                mkSeg (u "three four") [] 100 200;
                mkSeg (u "five six") [] 200 300].






(** The string has no line boundary of [str.splitlines]. *)
Definition single_line (s : str) : Prop :=
  Forall (fun c => is_linebreak c = false) s.

(** A line that survives the splitting of [from_srt]: no line boundary
    inside, and not blank. *)
Definition clean_line (s : str) : Prop := single_line s /\ has_nonspace s.

(** [f] applied to the last element of a list. *)
Fixpoint map_last {A : Type} (f : A -> A) (l : list A) : list A :=
  match l with
  | [] => []
  | [x] => [f x]
  | x :: tl => x :: map_last f tl
  end.

(** The lines of the block [to_srt] writes for a numbered segment under
    the default layout. *)
Definition srt_lines (ns : Z * ASRDataSeg) : list str :=
  [str_of_int (fst ns); to_srt_ts (snd ns); text (snd ns)]
    ++ (if is_empty (translated_text (snd ns)) then []
        else [translated_text (snd ns)]).

(** A time the [HH:MM:SS,mmm] format writes with two hour digits. *)
Definition srt_time_ok (t : Z) : Prop := 0 <= t < 360000000.

(** What the SRT round trip needs of a segment: a one-line original
    text that does not end in white space, a translation that is empty
    or one non-blank line, and times below 100 hours. *)
Definition srt_roundtrippable (seg : ASRDataSeg) : Prop :=
  single_line (text seg)
  /\ rstrip (text seg) = text seg
  /\ (translated_text seg = [] \/ clean_line (translated_text seg))
  /\ srt_time_ok (start_time seg)
  /\ srt_time_ok (end_time seg).

(** The original text and the times of a segment. *)
Definition text_and_times (seg : ASRDataSeg) : str * Z * Z :=
  (text seg, start_time seg, end_time seg).

(** The blocks [from_srt] reads. *)
Definition srt_blocks (srt_str : str) : list str :=
  re_split srt_block_separator (strip srt_str).

(** Two segments, the first with a text of two lines. *)
Definition two_line_text_doc : ASRData :=
  ASRData_init [mkSeg (u "Hello" ++ [NL] ++ u "world") [] 0 1000;
                mkSeg (u "bye") [] 1200 2000].

(** After a line feed the separator wants a run of spaces and another
    line feed; this is the continuation of the run. *)
Definition after_spaces : cont rmatch :=
  fun s' acc' g' =>
    match s' with
    | [] => None
    | c0 :: tl0 =>
        if is_char NL c0
        then Some (mkMatch (rev (c0 :: acc')) g' tl0)
        else None
    end.

(** The characters [0] to [9]. *)
Definition ascii_digit (c : Z) : Prop := 48 <= c <= 57.

(** The lines of a block that [from_srt] reads back as segment [seg]:
    a number, the time line of [seg], its text, and clean lines only. *)
Definition block_of (lines : list str) (seg : ASRDataSeg) : Prop :=
  (exists n more, lines = n :: to_srt_ts seg :: text seg :: more)
  /\ Forall clean_line lines
  /\ srt_time_ok (start_time seg) /\ srt_time_ok (end_time seg).

(** Two segments, the first with a translation. *)
Definition bilingual_doc : ASRData :=
  ASRData_init [mkSeg (u "hello world") (u "bonjour le monde") 0 1000;
                mkSeg (u "good bye now") [] 1200 3723004].

(** The text has a character that is neither white space nor one of the
    two marks [remove_punctuation] strips. *)
Definition has_word_char (s : str) : Prop :=
  exists c, In c s /\ isspace c = false /\ cs_punctuation c = false.

(** The segments run one after the other from time [lo] on: each starts
    no earlier than the previous one ends and ends no earlier than it
    starts; the last one ends by [hi]. *)
Fixpoint spaced_between (lo hi : Z) (l : list ASRDataSeg) : Prop :=
  match l with
  | [] => lo <= hi
  | a :: l' =>
      lo <= start_time a /\ start_time a <= end_time a
      /\ spaced_between (end_time a) hi l'
  end.

(** The float is zero, positive or not a number. *)
Definition not_negative (x : spec_float) : Prop :=
  match x with
  | S754_zero s | S754_infinity s | S754_finite s _ _ => s = false
  | S754_nan => True
  end.





(** A lower bound on the length of the text a pattern matches. *)
Fixpoint min_len (r : regex) : nat :=
  match r with
  | Eps | Eos | Star _ | LazyStar _ => 0
  | Set_ _ => 1
  | Cat a b => min_len a + min_len b
  | Alt a b => Nat.min (min_len a) (min_len b)
  | Group _ a => min_len a
  end.

(** The patterns handed to [finditer], [split] and [sub]. *)
Definition scanning_patterns : list regex :=
  [ word_pattern; punctuation_pattern; srt_block_separator;
    word_timestamp_pattern; vtt_block_separator; c_tag_pattern ].

(** ** Vocabulary of the further properties *)

(** The boundary [optimize_timing] gives two neighbours of which the
    first ends at [e] and the second starts at [s]. *)
Definition mid_time (e s : Z) : Z := (e + s) / 2 + (s - e) / 4.

(** The loop of [optimize_timing] written as a recursion over the
    segments behind [a]. *)
Fixpoint close_gaps_from (th : Z) (a : ASRDataSeg) (tl : list ASRDataSeg)
  : list ASRDataSeg :=
  match tl with
  | [] => [a]
  | b :: tl' =>
      if start_time b - end_time a <? th
      then set_end_time (mid_time (end_time a) (start_time b)) a
             :: close_gaps_from th
                  (set_start_time (mid_time (end_time a) (start_time b)) b) tl'
      else a :: close_gaps_from th b tl'
  end.

(** Every segment starts where the one before it ends, or at least
    [th] later. *)
Definition gaps_settled (th : Z) (l : list ASRDataSeg) : Prop :=
  forall i a b,
    nth_error l i = Some a -> nth_error l (S i) = Some b ->
    start_time b = end_time a \/ th <= start_time b - end_time a.

(** [s] from its first character outside [p] on. *)
Fixpoint drop_while (p : Z -> bool) (s : str) : str :=
  match s with
  | c :: tl => if p c then drop_while p tl else s
  | [] => []
  end.

(** [s] without the characters of [p] at its end. *)
Definition drop_trailing (p : Z -> bool) (s : str) : str :=
  rev (drop_while p (rev s)).

(** Every segment starts where the one before it ends. *)
Definition contiguous (l : list ASRDataSeg) : Prop :=
  forall i a b,
    nth_error l i = Some a -> nth_error l (S i) = Some b ->
    start_time b = end_time a.

(** Text of the form [\d+:\d{2}:\d{2}\.\d{2}]. *)
Definition ass_clock_shaped (c : str) : Prop :=
  exists h0 hs d1 d2 d3 d4 d5 d6,
    c = (h0 :: hs) ++ [58; d1; d2; 58; d3; d4; 46; d5; d6]
    /\ Forall (fun d => isdecimal d = true) (h0 :: hs)
    /\ Forall (fun d => isdecimal d = true) [d1; d2; d3; d4; d5; d6].

(** Neither time of the segment is negative. *)
Definition times_not_negative (seg : ASRDataSeg) : Prop :=
  0 <= start_time seg /\ 0 <= end_time seg.

(** The line [to_ass] writes for a dialogue, without its line feed. *)
Definition dialogue_line (start_ts end_ts style txt : str) : str :=
  u "Dialogue: 0," ++ start_ts ++ u "," ++ end_ts ++ u "," ++ style
    ++ u ",,0,0,0,," ++ txt.

(** The lines of the header [to_ass] writes with the default styles. *)
Definition ass_header_lines : list str :=
  Eval vm_compute in splitlines (ass_header default_style_str).

(** A text that [to_ass] writes on one line and [from_ass] reads back
    as it is: no line boundary, no white space at either end, not
    empty, and neither a brace nor a backslash. *)
Definition ass_plain (t : str) : Prop :=
  single_line t /\ strip t = t /\ t <> []
  /\ Forall (fun c => c <> 123 /\ c <> 92) t.

(** The segment with its times cut down to hundredths of a second. *)
Definition to_centiseconds (seg : ASRDataSeg) : ASRDataSeg :=
  mkSeg (text seg) (translated_text seg)
        (10 * (start_time seg / 10)) (10 * (end_time seg / 10)).

(** The segment with original and translated text exchanged. *)
Definition swap_texts (seg : ASRDataSeg) : ASRDataSeg :=
  mkSeg (translated_text seg) (text seg) (start_time seg) (end_time seg).

(** A document of two segments with translations. *)
Definition translated_doc : ASRData :=
  ASRData_init [mkSeg (u "hello world") (u "bonjour le monde") 0 1234;
                mkSeg (u "good bye now") (u "au revoir") 1200 3723004].

(** An SRT file of two blocks: the first has four lines, the second
    five. *)
Definition long_block_srt : str :=
  u "1" ++ [NL] ++ u "00:00:00,000 --> 00:00:01,000" ++ [NL]
  ++ u "one" ++ [NL] ++ u "un" ++ [NL] ++ [NL]
  ++ u "2" ++ [NL] ++ u "00:00:01,000 --> 00:00:02,000" ++ [NL]
  ++ u "two" ++ [NL] ++ u "deux" ++ [NL] ++ u "zwei".

(** [HH:MM:SS.mmm] and [MM:SS.mmm] for a number of milliseconds. *)
Definition vtt_long_clock (a : Z) : str :=
  fmt_int 2 (a / 3600000) ++ u ":" ++ fmt_int 2 (a / 60000 mod 60) ++ u ":"
    ++ fmt_int 2 (a / 1000 mod 60) ++ u "." ++ fmt_int 3 (a mod 1000).

Definition vtt_short_clock (a : Z) : str :=
  fmt_int 2 (a / 60000) ++ u ":" ++ fmt_int 2 (a / 1000 mod 60) ++ u "."
    ++ fmt_int 3 (a mod 1000).

(** A cue text [from_vtt] reads as it is: one line without a tag, no
    white space at either end, not empty. *)
Definition vtt_plain (t : str) : Prop :=
  Forall (fun c => c <> NL /\ c <> 60) t
  /\ lstrip t = t /\ rstrip t = t /\ t <> [].

(** A cue: the line of the two times, with settings behind them, and
    one line of text. *)
Definition vtt_cue (start_clock end_clock settings txt : str) : str :=
  start_clock ++ u " --> " ++ end_clock ++ settings ++ [NL] ++ txt.

(** * Properties *)

Example layout_literals :
  layout_original_on_top = [0x539f; 0x6587; 0x5728; 0x4e0a]
  /\ layout_translation_only = [0x4ec5; 0x8bd1; 0x6587]
  /\ u "hello world" = [104; 101; 108; 108; 111; 32; 119; 111; 114; 108; 100].
Proof. repeat split; reflexivity. Qed.

(** ** Construction *)

Lemma nonblank_true_iff (s : str) : nonblank s = true <-> strip s <> [].
Proof.
  unfold nonblank. destruct s as [|c s].
  - simpl. split; [discriminate | intros H; now elim H].
  - simpl negb at 1. rewrite andb_true_l.
    destruct (strip (c :: s)); simpl; split; intros H; congruence.
Qed.

Lemma insert_by_start_sorted (x : ASRDataSeg) (l : list ASRDataSeg) :
  sorted_by_start l -> sorted_by_start (insert_by_start x l).
Proof.
  unfold sorted_by_start. induction l as [|y l IH]; intros Hs; simpl.
  - repeat constructor.
  - destruct (start_time x <=? start_time y) eqn:E.
    + constructor; [assumption|]. constructor. apply Z.leb_le in E. exact E.
    + apply Z.leb_gt in E. inversion Hs as [|? ? Hs' Hhd]; subst.
      constructor; [now apply IH|].
      destruct l as [|z l]; simpl.
      * constructor. unfold start_le. lia.
      * destruct (start_time x <=? start_time z).
        -- constructor. unfold start_le. lia.
        -- inversion Hhd; subst. now constructor.
Qed.

Lemma sort_by_start_sorted (l : list ASRDataSeg) :
  sorted_by_start (sort_by_start l).
Proof.
  induction l as [|x l IH]; simpl.
  - constructor.
  - now apply insert_by_start_sorted.
Qed.

Lemma insert_by_start_perm (x : ASRDataSeg) (l : list ASRDataSeg) :
  Permutation (x :: l) (insert_by_start x l).
Proof.
  induction l as [|y l IH]; simpl.
  - reflexivity.
  - destruct (start_time x <=? start_time y).
    + reflexivity.
    + rewrite perm_swap. now constructor.
Qed.

Lemma sort_by_start_perm (l : list ASRDataSeg) :
  Permutation l (sort_by_start l).
Proof.
  induction l as [|x l IH]; simpl.
  - constructor.
  - rewrite <- insert_by_start_perm. now constructor.
Qed.

(** Insertion never moves an element past one with the same start. *)
Lemma with_start_insert (t : Z) (x : ASRDataSeg) (l : list ASRDataSeg) :
  with_start t (insert_by_start x l) = with_start t (x :: l).
Proof.
  unfold with_start. induction l as [|y l IH]; simpl.
  - reflexivity.
  - destruct (start_time x <=? start_time y) eqn:E; simpl.
    + reflexivity.
    + apply Z.leb_gt in E. rewrite IH. simpl.
      destruct (start_time x =? t) eqn:Ex; destruct (start_time y =? t) eqn:Ey;
        try reflexivity.
      apply Z.eqb_eq in Ex, Ey. lia.
Qed.

Lemma with_start_sort (t : Z) (l : list ASRDataSeg) :
  with_start t (sort_by_start l) = with_start t l.
Proof.
  induction l as [|x l IH]; simpl.
  - reflexivity.
  - rewrite with_start_insert. unfold with_start in *. simpl. now rewrite IH.
Qed.

Lemma sort_by_start_id (l : list ASRDataSeg) :
  sorted_by_start l -> sort_by_start l = l.
Proof.
  unfold sorted_by_start. induction l as [|x l IH]; intros Hs; simpl.
  - reflexivity.
  - inversion Hs as [|? ? Hs' Hhd]; subst. rewrite (IH Hs').
    destruct l as [|y l]; simpl.
    + reflexivity.
    + inversion Hhd; subst. unfold start_le in *.
      destruct (start_time x <=? start_time y) eqn:E; [reflexivity|].
      apply Z.leb_gt in E. lia.
Qed.

Lemma filter_nonblank_id (l : list ASRDataSeg) :
  all_nonblank l -> filter (fun seg => nonblank (text seg)) l = l.
Proof.
  unfold all_nonblank. induction 1 as [|x l Hx Hl IH]; simpl.
  - reflexivity.
  - apply nonblank_true_iff in Hx. now rewrite Hx, IH.
Qed.

(** Construction changes nothing on a list that already satisfies the
    invariant. *)
Lemma ASRData_init_id (d : ASRData) :
  doc_invariant d -> ASRData_init (segments d) = d.
Proof.
  intros [Hs Hn]. unfold ASRData_init.
  rewrite (filter_nonblank_id _ Hn), (sort_by_start_id _ Hs).
  now destruct d.
Qed.

(** C6. Constructing a document from any list of segments gives a
    segment sequence sorted non-decreasing by start time, in which every
    trimmed original text is non-empty: the sequence is a rearrangement
    of exactly the input segments whose trimmed original text is
    non-empty, and for every start time the segments with that start
    time appear in their relative input order (the sort is stable). *)
Theorem ASRData_init_sorted_filtered_stable (segs : list ASRDataSeg) :
  sorted_by_start (segments (ASRData_init segs))
  /\ all_nonblank (segments (ASRData_init segs))
  /\ Permutation (filter (fun seg => negb (is_empty (strip (text seg)))) segs)
                 (segments (ASRData_init segs))
  /\ forall t : Z,
       with_start t (segments (ASRData_init segs))
       = with_start t (filter (fun seg => negb (is_empty (strip (text seg)))) segs).
Proof.
  assert (Hf : filter (fun seg => nonblank (text seg)) segs
               = filter (fun seg => negb (is_empty (strip (text seg)))) segs).
  { apply filter_ext. intros seg. unfold nonblank.
    destruct (text seg); reflexivity. }
  unfold ASRData_init. simpl. rewrite Hf. repeat split.
  - apply sort_by_start_sorted.
  - unfold all_nonblank. apply Forall_forall. intros seg Hin.
    apply (Permutation_in _ (Permutation_sym (sort_by_start_perm _))) in Hin.
    apply filter_In in Hin. destruct Hin as [_ Hin].
    destruct (strip (text seg)); [discriminate | congruence].
  - apply sort_by_start_perm.
  - intros t. apply with_start_sort.
Qed.

(** ** Merging: the index range *)

(** C9. [merge_segments] succeeds exactly when
    [0 <= start_index <= end_index < len(segments)] and raises
    [IndexError] exactly otherwise; merging the range 0..5 of a document
    of four segments raises [IndexError]. *)
Theorem merge_segments_succeeds_iff_valid_range
        (d : ASRData) (start_index end_index : Z) (merged_text : option str) :
  ((exists d', merge_segments d start_index end_index merged_text = Ok d')
   <-> valid_merge_range start_index end_index (length (segments d)))
  /\ (merge_segments d start_index end_index merged_text = Raise IndexError
      <-> ~ (valid_merge_range start_index end_index (length (segments d))))
  /\ (forall a b c e : ASRDataSeg,
         merge_segments (mkData [a; b; c; e]) 0 5 merged_text = Raise IndexError).
Proof.
  assert (Hvalid : valid_merge_range start_index end_index (length (segments d)) ->
                   exists d', merge_segments d start_index end_index merged_text = Ok d').
  { intros Hr. unfold valid_merge_range in Hr. unfold merge_segments.
    assert (E1 : (start_index <? 0) = false) by (apply Z.ltb_ge; lia).
    assert (E2 : (end_index >=? Z.of_nat (length (segments d))) = false)
      by (rewrite Z.geb_leb; apply Z.leb_gt; lia).
    assert (E3 : (start_index >? end_index) = false)
      by (rewrite Z.gtb_ltb; apply Z.ltb_ge; lia).
    rewrite E1, E2, E3. simpl.
    destruct (nth_error (segments d) (Z.to_nat start_index)) as [first|] eqn:N1.
    2:{ apply nth_error_None in N1. lia. }
    destruct (nth_error (segments d) (Z.to_nat end_index)) as [last|] eqn:N2.
    2:{ apply nth_error_None in N2. lia. }
    eexists. reflexivity. }
  assert (Hinvalid : ~ (valid_merge_range start_index end_index (length (segments d))) ->
                     merge_segments d start_index end_index merged_text = Raise IndexError).
  { intros Hr. unfold valid_merge_range in Hr. unfold merge_segments.
    destruct (start_index <? 0) eqn:E1; [reflexivity|].
    destruct (end_index >=? Z.of_nat (length (segments d))) eqn:E2; [reflexivity|].
    destruct (start_index >? end_index) eqn:E3; [reflexivity|].
    apply Z.ltb_ge in E1. rewrite Z.geb_leb in E2. apply Z.leb_gt in E2.
    rewrite Z.gtb_ltb in E3. apply Z.ltb_ge in E3. lia. }
  split; [|split].
  - split; [|exact Hvalid]. intros [d' Hd']. unfold valid_merge_range in *.
    destruct (Z_le_dec 0 start_index); [|rewrite Hinvalid in Hd' by lia; discriminate].
    destruct (Z_le_dec start_index end_index);
      [|rewrite Hinvalid in Hd' by lia; discriminate].
    destruct (Z_lt_dec end_index (Z.of_nat (length (segments d))));
      [|rewrite Hinvalid in Hd' by lia; discriminate].
    lia.
  - split; [|exact Hinvalid]. intros Hraise Hr.
    destruct (Hvalid Hr) as [d' Hd']. congruence.
  - intros a b c e. reflexivity.
Qed.

(** ** Timing optimisation *)

Lemma update_nth_length {A : Type} (i : nat) (f : A -> A) (l : list A) :
  length (update_nth i f l) = length l.
Proof.
  revert i. induction l as [|x l IH]; intros [|i]; simpl; auto.
Qed.

Lemma update_nth_map {A B : Type} (g : A -> B) (i : nat) (f : A -> A) (l : list A) :
  (forall x, g (f x) = g x) -> map g (update_nth i f l) = map g l.
Proof.
  intros Hg. revert i. induction l as [|x l IH]; intros [|i]; simpl; auto.
  - now rewrite Hg.
  - now rewrite IH.
Qed.

Lemma optimize_step_map {B : Type} (g : ASRDataSeg -> B) (th : Z)
      (segs : list ASRDataSeg) (i : nat) :
  (forall t x, g (set_start_time t x) = g x) ->
  (forall t x, g (set_end_time t x) = g x) ->
  map g (optimize_step th segs i) = map g segs.
Proof.
  intros Hs He. unfold optimize_step.
  destruct (nth_error segs i); [|reflexivity].
  destruct (nth_error segs (S i)); [|reflexivity].
  destruct (_ <? th); [|reflexivity].
  rewrite !update_nth_map; auto.
Qed.

Lemma optimize_loop_map {B : Type} (g : ASRDataSeg -> B) (th : Z)
      (idx : list nat) (segs : list ASRDataSeg) :
  (forall t x, g (set_start_time t x) = g x) ->
  (forall t x, g (set_end_time t x) = g x) ->
  map g (fold_left (optimize_step th) idx segs) = map g segs.
Proof.
  intros Hs He. revert segs. induction idx as [|i idx IH]; intros segs; simpl.
  - reflexivity.
  - rewrite IH. now apply optimize_step_map.
Qed.

Lemma optimize_timing_map {B : Type} (g : ASRDataSeg -> B) (th : Z) (d : ASRData) :
  (forall t x, g (set_start_time t x) = g x) ->
  (forall t x, g (set_end_time t x) = g x) ->
  map g (segments (optimize_timing th d)) = map g (segments d).
Proof.
  intros Hs He. unfold optimize_timing.
  destruct (is_word_timestamp d); [reflexivity|].
  destruct (segments d) eqn:E; [now rewrite E|].
  simpl segments. now apply optimize_loop_map.
Qed.

(** C10. [optimize_timing] never changes the number of segments nor
    any original or translated text (so only start and end times can
    differ), and it returns the document unchanged when the document is
    empty or classified as word-level. *)
Theorem optimize_timing_frame (threshold_ms : Z) (d : ASRData) :
  length (segments (optimize_timing threshold_ms d)) = length (segments d)
  /\ map text (segments (optimize_timing threshold_ms d)) = map text (segments d)
  /\ map translated_text (segments (optimize_timing threshold_ms d))
     = map translated_text (segments d)
  /\ (segments d = [] \/ is_word_timestamp d = true ->
      optimize_timing threshold_ms d = d).
Proof.
  repeat split.
  - rewrite <- (length_map text), <- (length_map text (segments d)).
    f_equal. now apply optimize_timing_map.
  - now apply optimize_timing_map.
  - now apply optimize_timing_map.
  - intros [He | Hw]; unfold optimize_timing.
    + destruct (is_word_timestamp d); [reflexivity|]. now rewrite He.
    + now rewrite Hw.
Qed.

(** C4. On a document that is not word-level and consists of
    A = [0, 1000) and B = [1200, 2000), [optimize_timing] with threshold
    1000 moves A's end and B's start to
    floor((1000 + 1200) / 2) + floor(200 / 4) = 1150 and changes nothing
    else. *)
Theorem optimize_timing_closes_gap (ta tra tb trb : str) :
  is_word_timestamp (mkData [mkSeg ta tra 0 1000; mkSeg tb trb 1200 2000]) = false ->
  (1000 + 1200) / 2 + (1200 - 1000) / 4 = 1150
  /\ optimize_timing 1000 (mkData [mkSeg ta tra 0 1000; mkSeg tb trb 1200 2000])
     = mkData [mkSeg ta tra 0 1150; mkSeg tb trb 1150 2000].
Proof.
  intros Hw. split; [reflexivity|].
  unfold optimize_timing. rewrite Hw. reflexivity.
Qed.

Lemma optimize_timing_closes_gap_witness :
  is_word_timestamp (mkData [mkSeg (u "hello world") [] 0 1000;
                             mkSeg (u "good bye now") [] 1200 2000]) = false
  /\ optimize_timing 1000 (mkData [mkSeg (u "hello world") [] 0 1000;
                                   mkSeg (u "good bye now") [] 1200 2000])
     = mkData [mkSeg (u "hello world") [] 0 1150;
               mkSeg (u "good bye now") [] 1150 2000].
Proof.
  split.
  - vm_compute. reflexivity.
  - apply (optimize_timing_closes_gap (u "hello world") [] (u "good bye now") []).
    vm_compute. reflexivity.
Defined.

(** ** Word segmentation *)

(** C3. Splitting the single segment "hello world" over [0, 1000): the
    tokens are "hello" and "world", of two phonemes each (ceil(5/4)),
    four in total, 250 ms per phoneme; the document becomes "hello" over
    [0, 500) followed by "world" over [500, 1000). *)
Theorem split_to_word_segments_hello_world (translated : str) :
  map m_text (re_finditer word_pattern (u "hello world")) = [u "hello"; u "world"]
  /\ map phonemes [u "hello"; u "world"] = [2; 2]
  /\ true_div (1000 - 0) (Z.max (2 + 2) 1) = float_of_int 250
  /\ split_to_word_segments (ASRData_init [mkSeg (u "hello world") translated 0 1000])
     = mkData [mkSeg (u "hello") [] 0 500; mkSeg (u "world") [] 500 1000].
Proof.
  repeat split; vm_compute; reflexivity.
Qed.

(** ** ASS output under an unrecognised layout *)

Lemma str_eqb_eq (a b : str) : str_eqb a b = true <-> a = b.
Proof.
  revert b. induction a as [|x a IH]; intros [|y b]; simpl;
    try (split; [discriminate | congruence]).
  - split; reflexivity.
  - rewrite andb_true_iff, Z.eqb_eq, IH. split.
    + intros [-> ->]. reflexivity.
    + intros H. injection H as -> ->. auto.
Qed.

Lemma str_eqb_refl (a : str) : str_eqb a a = true.
Proof. now apply str_eqb_eq. Qed.

Lemma str_eqb_neq (a b : str) : a <> b -> str_eqb a b = false.
Proof.
  intros H. destruct (str_eqb a b) eqn:E; [|reflexivity].
  apply str_eqb_eq in E. contradiction.
Qed.

Lemma ass_lines_unrecognized (layout : str) (seg : ASRDataSeg) :
  recognized_layout layout = false -> ass_lines layout seg = [].
Proof.
  unfold recognized_layout, ass_lines. intros H.
  apply orb_false_iff in H. destruct H as [H H4].
  apply orb_false_iff in H. destruct H as [H H3].
  apply orb_false_iff in H. destruct H as [H1 H2].
  destruct (to_ass_ts seg). now rewrite H1, H2, H3, H4.
Qed.

(** With a layout outside the four of the source, [to_ass] returns the
    header alone. *)
Lemma to_ass_unrecognized (style_str : option str) (layout : str) (d : ASRData) :
  recognized_layout layout = false ->
  to_ass style_str layout d = to_ass style_str layout (mkData []).
Proof.
  intros H. unfold to_ass. simpl.
  generalize (ass_header match style_str with
                         | Some (c :: s) => c :: s
                         | _ => default_style_str
                         end).
  induction (segments d) as [|seg l IH]; intros h; simpl.
  - reflexivity.
  - rewrite ass_lines_unrecognized by assumption. rewrite app_nil_r. apply IH.
Qed.

(** C8. For the layout "bilingual", none of the four recognised
    values, [to_ass] on a document of one segment returns the header
    with no Dialogue line, whereas the original-only layout gives the
    header followed by one Default-style Dialogue line with the
    original text. *)
Theorem to_ass_unrecognized_layout_drops_dialogue :
  recognized_layout (u "bilingual") = false
  /\ to_ass None (u "bilingual") (ASRData_init [mkSeg (u "hello") [] 0 1000])
     = ass_header default_style_str
  /\ to_ass None layout_original_only (ASRData_init [mkSeg (u "hello") [] 0 1000])
     = ass_header default_style_str
       ++ dialogue (u "0:00:00.00") (u "0:00:01.00") (u "Default") (u "hello")
  /\ to_ass None (u "bilingual") (ASRData_init [mkSeg (u "hello") [] 0 1000])
     <> to_ass None layout_original_only (ASRData_init [mkSeg (u "hello") [] 0 1000]).
Proof.
  split; [reflexivity|]. split; [vm_compute; reflexivity|].
  split; [vm_compute; reflexivity|].
  intros H. apply (f_equal (@length Z)) in H. vm_compute in H. discriminate.
Qed.

(** ** Decimal numerals *)

Lemma decimal_value_ascii (c : Z) :
  48 <= c <= 57 -> decimal_value c = Some (c - 48).
Proof.
  intros H. unfold decimal_value, decimal_zeros. cbn [decimal_in].
  unfold in_range.
  replace (48 <=? c) with true by (symmetry; apply Z.leb_le; lia).
  replace (c <=? 48 + 9) with true by (symmetry; apply Z.leb_le; lia).
  reflexivity.
Qed.

Lemma isdecimal_ascii (c : Z) : 48 <= c <= 57 -> isdecimal c = true.
Proof.
  intros H. unfold isdecimal. now rewrite decimal_value_ascii.
Qed.

(** The digits [digits_of] puts in front of [acc] read back as [n]. *)
Lemma digits_of_value (fuel : nat) :
  forall (n : Z) (acc : str),
    (1 <= fuel)%nat -> 0 <= n < 2 ^ Z.of_nat fuel ->
    exists ds,
      digits_of fuel n acc = ds ++ acc /\ ds <> []
      /\ Forall (fun c => 48 <= c <= 57) ds
      /\ forall a rest,
          int_digits a (ds ++ rest)
          = int_digits (a * 10 ^ Z.of_nat (length ds) + n) rest.
Proof.
  induction fuel as [|f IH]; intros n acc Hf Hn; [lia|].
  assert (Hm : 0 <= n mod 10 < 10) by (apply Z.mod_pos_bound; lia).
  cbn [digits_of]. destruct (n <? 10) eqn:E.
  - apply Z.ltb_lt in E. exists [digit_char (n mod 10)].
    rewrite Z.mod_small by lia. unfold digit_char.
    split; [reflexivity|]. split; [discriminate|].
    split; [repeat constructor; lia|]. intros a rest. cbn [app int_digits length].
    rewrite decimal_value_ascii by lia. f_equal. change (Z.of_nat 1) with 1. lia.
  - apply Z.ltb_ge in E.
    assert (Hq : 1 <= n / 10) by (apply Z.div_le_lower_bound; lia).
    assert (Hlt : n / 10 < 2 ^ Z.of_nat f).
    { apply Z.div_lt_upper_bound; [lia|].
      rewrite Nat2Z.inj_succ, Z.pow_succ_r in Hn by lia. lia. }
    assert (Hf' : (1 <= f)%nat).
    { destruct f; [|lia]. simpl in Hlt. lia. }
    assert (Hr : 0 <= n / 10 < 2 ^ Z.of_nat f) by lia.
    destruct (IH (n / 10) (digit_char (n mod 10) :: acc) Hf' Hr)
      as (ds & Hds & Hne & Hall & Hval).
    exists (ds ++ [digit_char (n mod 10)]). rewrite Hds, <- app_assoc.
    split; [reflexivity|]. split; [destruct ds; discriminate|].
    split.
    + apply Forall_app. split; [assumption|]. unfold digit_char.
      repeat constructor; lia.
    + intros a rest. rewrite <- app_assoc. rewrite Hval. cbn [app int_digits].
      unfold digit_char. rewrite decimal_value_ascii by lia. f_equal.
      rewrite length_app, Nat2Z.inj_add. cbn [length]. change (Z.of_nat 1) with 1.
      rewrite Z.pow_add_r by lia. rewrite Z.pow_1_r.
      replace (48 + n mod 10 - 48) with (n mod 10) by lia.
      pose proof (Z.div_mod n 10 ltac:(lia)). lia.
Qed.

Lemma str_of_int_digits (n : Z) :
  0 <= n ->
  exists ds,
    str_of_int n = ds /\ ds <> []
    /\ Forall (fun c => 48 <= c <= 57) ds
    /\ forall a rest,
        int_digits a (ds ++ rest)
        = int_digits (a * 10 ^ Z.of_nat (length ds) + n) rest.
Proof.
  intros Hn. unfold str_of_int.
  replace (n <? 0) with false by (symmetry; apply Z.ltb_ge; lia).
  destruct (digits_of_value (S (Z.to_nat (Z.log2 n))) n []) as (ds & H1 & H2 & H3 & H4).
  - lia.
  - split; [lia|]. rewrite Nat2Z.inj_succ, Z2Nat.id by apply Z.log2_nonneg.
    destruct (Z.eq_dec n 0) as [->|Hz]; [reflexivity|].
    apply Z.log2_spec. lia.
  - exists ds. rewrite H1, app_nil_r. auto.
Qed.

(** [int(str(n)) == n] for a non-negative [n]. *)
Lemma int_of_str_of_int (n : Z) : 0 <= n -> int_of_str (str_of_int n) = Some n.
Proof.
  intros Hn. destruct (str_of_int_digits n Hn) as (ds & H1 & H2 & _ & H4).
  rewrite H1. unfold int_of_str. destruct ds as [|c ds]; [congruence|].
  specialize (H4 0 []). rewrite app_nil_r in H4. rewrite H4. reflexivity.
Qed.

Lemma str_of_int_inj (n m : Z) :
  0 <= n -> 0 <= m -> str_of_int n = str_of_int m -> n = m.
Proof.
  intros Hn Hm H. apply (f_equal int_of_str) in H.
  rewrite !int_of_str_of_int in H by assumption. congruence.
Qed.

(** ** The JSON round trip *)

Lemma keys_below_fresh (n : Z) (dct : dict) :
  0 <= n -> keys_below n dct ->
  forall k v, In (k, v) dct -> str_eqb k (str_of_int n) = false.
Proof.
  intros Hn Hk k v Hin. destruct (Hk k v Hin) as (j & Hj & ->).
  apply str_eqb_neq. intros H. apply str_of_int_inj in H; lia.
Qed.

Lemma keys_below_snoc (n : Z) (dct : dict) (v : json_segment) :
  0 <= n -> keys_below n dct -> keys_below (n + 1) (dct ++ [(str_of_int n, v)]).
Proof.
  intros Hn Hk k v' Hin. apply in_app_or in Hin. destruct Hin as [Hin | [Hin | []]].
  - destruct (Hk k v' Hin) as (j & Hj & ->). exists j. split; [lia | reflexivity].
  - injection Hin as <- _. exists n. split; [lia | reflexivity].
Qed.

Lemma dict_set_fresh (k : str) (v : json_segment) (dct : dict) :
  (forall k' v', In (k', v') dct -> str_eqb k' k = false) ->
  dict_set k v dct = dct ++ [(k, v)].
Proof.
  induction dct as [|[k0 v0] dct IH]; intros H; simpl.
  - reflexivity.
  - rewrite (H k0 v0) by (left; reflexivity).
    rewrite IH; [reflexivity|]. intros k' v' Hin. apply (H k' v'). now right.
Qed.

Lemma dict_get_skip (k : str) (pre rest : dict) :
  (forall k' v', In (k', v') pre -> str_eqb k' k = false) ->
  dict_get k (pre ++ rest) = dict_get k rest.
Proof.
  induction pre as [|[k0 v0] pre IH]; intros H; simpl.
  - reflexivity.
  - rewrite (H k0 v0) by (left; reflexivity).
    apply IH. intros k' v' Hin. apply (H k' v'). now right.
Qed.

Lemma to_json_fold (segs : list ASRDataSeg) :
  forall (n : Z) (acc : dict),
    0 <= n -> keys_below n acc ->
    fold_left
      (fun result_json (isg : Z * ASRDataSeg) =>
         let (i, segment) := isg in
         dict_set (str_of_int i)
                  (mkJson (start_time segment) (end_time segment)
                          (text segment) (translated_text segment))
                  result_json)
      (enumerate n segs) acc
    = acc ++ json_items n segs.
Proof.
  induction segs as [|x segs IH]; intros n acc Hn Hk; simpl.
  - now rewrite app_nil_r.
  - rewrite dict_set_fresh by (now apply keys_below_fresh).
    rewrite IH; [|lia|now apply keys_below_snoc].
    rewrite <- app_assoc. reflexivity.
Qed.

Lemma to_json_items (d : ASRData) : to_json d = json_items 1 (segments d).
Proof.
  unfold to_json. rewrite to_json_fold; [reflexivity | lia |].
  intros k v [].
Qed.

Lemma keys_with_int_items (segs : list ASRDataSeg) :
  forall n : Z,
    0 <= n ->
    keys_with_int (map fst (json_items n segs))
    = Ok (map (fun isg : Z * ASRDataSeg => (fst isg, str_of_int (fst isg)))
              (enumerate n segs)).
Proof.
  induction segs as [|x segs IH]; intros n Hn; simpl.
  - reflexivity.
  - rewrite int_of_str_of_int by assumption.
    unfold json_items in IH. rewrite IH by lia. reflexivity.
Qed.

Lemma sort_by_key_enumerate (segs : list ASRDataSeg) :
  forall n : Z,
    sort_by_key (map (fun isg : Z * ASRDataSeg => (fst isg, str_of_int (fst isg)))
                     (enumerate n segs))
    = map (fun isg : Z * ASRDataSeg => (fst isg, str_of_int (fst isg)))
          (enumerate n segs).
Proof.
  induction segs as [|x segs IH]; intros n; simpl.
  - reflexivity.
  - rewrite IH. destruct segs as [|y segs]; simpl.
    + reflexivity.
    + replace (n <=? n + 1) with true by (symmetry; apply Z.leb_le; lia).
      reflexivity.
Qed.

Lemma json_segments_items (segs : list ASRDataSeg) :
  forall (n : Z) (pre : dict),
    0 <= n -> keys_below n pre ->
    json_segments (pre ++ json_items n segs)
                  (map (fun isg : Z * ASRDataSeg => str_of_int (fst isg))
                       (enumerate n segs))
    = Ok segs.
Proof.
  induction segs as [|x segs IH]; intros n pre Hn Hk; simpl.
  - reflexivity.
  - rewrite dict_get_skip by (now apply keys_below_fresh).
    simpl. rewrite str_eqb_refl.
    change (json_items n (x :: segs))
      with ([(str_of_int n, json_of x)] ++ json_items (n + 1) segs).
    rewrite app_assoc. rewrite IH; [|lia|now apply keys_below_snoc].
    destruct x; reflexivity.
Qed.

(** Parsing the output of [to_json] always succeeds and constructs a
    document from the very segments that were serialized. *)
Lemma from_json_to_json (d : ASRData) :
  from_json (to_json d) = Ok (ASRData_init (segments d)).
Proof.
  unfold from_json. rewrite to_json_items.
  rewrite keys_with_int_items by lia. rewrite sort_by_key_enumerate.
  rewrite map_map. cbn [snd].
  pose proof (json_segments_items (segments d) 1 []) as H.
  cbn [app] in H. rewrite H; [reflexivity | lia |].
  intros k v [].
Qed.

(** C1 as stated fails: after [remove_punctuation] has emptied the text
    of its only segment, a document serializes to one JSON record, which
    [from_json] drops on construction. *)
Lemma to_json_from_json_drops_blank_text :
  tuples full_stop_doc = [([], [], 0, 1000)]
  /\ from_json (to_json full_stop_doc) = Ok (mkData [])
  /\ ~ (exists d', from_json (to_json full_stop_doc) = Ok d'
                   /\ tuples d' = tuples full_stop_doc).
Proof.
  split; [vm_compute; reflexivity|]. split; [vm_compute; reflexivity|].
  intros (d' & H1 & H2). vm_compute in H1. injection H1 as <-.
  vm_compute in H2. discriminate.
Qed.

(** C1, amended. For every document whose segments are sorted by start
    time and have a non-empty trimmed original text, [from_json] applied
    to the result of [to_json] succeeds and yields a document with the
    same ordered sequence of (original text, translated text, start,
    end) tuples, in fact the same document. *)
Theorem to_json_from_json_roundtrip (d : ASRData) :
  doc_invariant d ->
  exists d', from_json (to_json d) = Ok d' /\ tuples d' = tuples d /\ d' = d.
Proof.
  intros Hinv. exists d. rewrite from_json_to_json, (ASRData_init_id d Hinv).
  repeat split.
Qed.

Lemma two_line_doc_invariant : doc_invariant two_line_doc.
Proof.
  split.
  - repeat constructor; unfold start_le; simpl; lia.
  - repeat constructor; vm_compute; discriminate.
Defined.

Lemma to_json_from_json_roundtrip_witness :
  doc_invariant two_line_doc
  /\ exists d', from_json (to_json two_line_doc) = Ok d'
                /\ tuples d' = tuples two_line_doc /\ d' = two_line_doc.
Proof.
  split.
  - exact two_line_doc_invariant.
  - apply (to_json_from_json_roundtrip two_line_doc). exact two_line_doc_invariant.
Defined.

(** ** The matcher: what a match consumes *)

Section MatcherSound.

Variable R : Type.
Variable P : Z -> Prop.

Lemma greedy_sound (p : Z -> bool) (k : cont R) (g : groups) :
  (forall c, p c = true -> P c) ->
  forall (s acc : str) (x : R),
    greedy p k g s acc = Some x ->
    exists w s', s = w ++ s' /\ Forall P w /\ k s' (rev w ++ acc) g = Some x.
Proof.
  intros Hp. induction s as [|c tl IH]; intros acc x H; simpl in H.
  - exists [], []. auto.
  - destruct (p c) eqn:Ec.
    + destruct (greedy p k g tl (c :: acc)) as [y|] eqn:Eg; simpl in H.
      * injection H as ->. destruct (IH _ _ Eg) as (w & s' & -> & Hw & Hk).
        exists (c :: w), s'. simpl. rewrite <- app_assoc. auto.
      * exists [], (c :: tl). auto.
    + exists [], (c :: tl). auto.
Qed.

Lemma lazy_sound (p : Z -> bool) (k : cont R) (g : groups) :
  (forall c, p c = true -> P c) ->
  forall (s acc : str) (x : R),
    lazy p k g s acc = Some x ->
    exists w s', s = w ++ s' /\ Forall P w /\ k s' (rev w ++ acc) g = Some x.
Proof.
  intros Hp. induction s as [|c tl IH]; intros acc x H; simpl in H.
  - destruct (k [] acc g) eqn:Ek; [|discriminate].
    exists [], []. rewrite <- H. auto.
  - destruct (k (c :: tl) acc g) eqn:Ek.
    + exists [], (c :: tl). rewrite <- H. auto.
    + destruct (p c) eqn:Ec; [|discriminate].
      destruct (IH _ _ H) as (w & s' & -> & Hw & Hk).
      exists (c :: w), s'. simpl. rewrite <- app_assoc. auto.
Qed.

(** A successful run consumed a prefix [w] of the input, all of whose
    characters belong to the sets of the pattern, and continued on the
    rest. *)
Lemma exec_sound (r : regex) :
  within P r ->
  forall (s acc : str) (g : groups) (k : cont R) (x : R),
    exec r s acc g k = Some x ->
    exists w s' g',
      s = w ++ s' /\ Forall P w /\ k s' (rev w ++ acc) g' = Some x.
Proof.
  induction r as [|p|r1 IH1 r2 IH2|r1 IH1 r2 IH2|p|p|n r IH|];
    intros Hin s acc g k x H; simpl in H.
  - exists [], s, g. auto.
  - destruct s as [|c tl]; [discriminate|]. destruct (p c) eqn:Ec; [|discriminate].
    exists [c], tl, g. simpl in *. auto.
  - destruct Hin as [Hin1 Hin2].
    destruct (IH1 Hin1 _ _ _ _ _ H) as (w1 & s1 & g1 & -> & Hw1 & H1).
    destruct (IH2 Hin2 _ _ _ _ _ H1) as (w2 & s2 & g2 & -> & Hw2 & H2).
    exists (w1 ++ w2), s2, g2. rewrite rev_app_distr, <- !app_assoc.
    split; [reflexivity|]. split; [now apply Forall_app|assumption].
  - destruct Hin as [Hin1 Hin2].
    destruct (exec r1 s acc g k) as [y|] eqn:E1; simpl in H.
    + injection H as ->. now apply (IH1 Hin1 _ _ _ _ _ E1).
    + now apply (IH2 Hin2 _ _ _ _ _ H).
  - destruct (greedy_sound p k g Hin _ _ _ H) as (w & s' & Hs & Hw & Hk).
    exists w, s', g. auto.
  - destruct (lazy_sound p k g Hin _ _ _ H) as (w & s' & Hs & Hw & Hk).
    exists w, s', g. auto.
  - destruct (IH Hin _ _ _ _ _ H) as (w & s' & g' & -> & Hw & Hk).
    rewrite app_nil_r in Hk. eexists w, s', _. eauto.
  - destruct s as [|c [|c' tl]].
    + exists [], [], g. auto.
    + destruct c as [|c|c]; try discriminate.
      do 4 (destruct c as [c|c|]; try discriminate).
      exists [], [10], g. auto.
    + destruct c as [|c|c]; try discriminate.
      do 4 (destruct c as [c|c|]; try discriminate).
Qed.

End MatcherSound.

(** A match splits the input into the matched text and the rest, and
    the matched text is made of characters of the pattern's sets. *)
Lemma re_match_sound (P : Z -> Prop) (r : regex) (s : str) (m : rmatch) :
  within P r -> re_match r s = Some m ->
  s = m_text m ++ m_rest m /\ Forall P (m_text m).
Proof.
  intros Hin H. unfold re_match in H.
  destruct (exec_sound rmatch P r Hin _ _ _ _ _ H) as (w & s' & g' & -> & Hw & Hk).
  injection Hk as <-. simpl. rewrite app_nil_r, rev_involutive. auto.
Qed.

Lemma exec_min_len (R : Type) (r : regex) :
  forall (s acc : str) (g : groups) (k : cont R) (x : R),
    exec r s acc g k = Some x ->
    exists s' acc' g',
      k s' acc' g' = Some x /\ (length acc + min_len r <= length acc')%nat.
Proof.
  induction r as [|p|r1 IH1 r2 IH2|r1 IH1 r2 IH2|p|p|n r IH|];
    intros s acc g k x H; cbn [exec min_len] in *.
  - exists s, acc, g. split; [assumption | lia].
  - destruct s as [|c tl]; [discriminate|]. destruct (p c); [|discriminate].
    exists tl, (c :: acc), g. split; [assumption | cbn [length]; lia].
  - destruct (IH1 _ _ _ _ _ H) as (s1 & a1 & g1 & H1 & L1).
    destruct (IH2 _ _ _ _ _ H1) as (s2 & a2 & g2 & H2 & L2).
    exists s2, a2, g2. split; [assumption | lia].
  - destruct (exec r1 s acc g k) as [y|] eqn:E1; cbn [orelse] in H.
    + injection H as ->. destruct (IH1 _ _ _ _ _ E1) as (s1 & a1 & g1 & H1 & L1).
      exists s1, a1, g1. split; [assumption | lia].
    + destruct (IH2 _ _ _ _ _ H) as (s2 & a2 & g2 & H2 & L2).
      exists s2, a2, g2. split; [assumption | lia].
  - destruct (greedy_sound R (fun _ => True) p k g (fun _ _ => I) _ _ _ H)
      as (w & s' & _ & _ & Hk).
    exists s', (rev w ++ acc), g. split; [assumption | rewrite length_app; lia].
  - destruct (lazy_sound R (fun _ => True) p k g (fun _ _ => I) _ _ _ H)
      as (w & s' & _ & _ & Hk).
    exists s', (rev w ++ acc), g. split; [assumption | rewrite length_app; lia].
  - destruct (IH _ _ _ _ _ H) as (s1 & a1 & g1 & H1 & L1).
    eexists _, _, _. split; [exact H1|]. rewrite length_app. cbn [length] in L1. lia.
  - destruct s as [|c [|c' tl]]; try discriminate.
    + exists [], acc, g. split; [assumption | lia].
    + destruct (c =? 10) eqn:E; [|destruct c as [|c|c]; try discriminate;
                                   do 4 (destruct c as [c|c|]; try discriminate)].
      exists [c], acc, g. split; [|lia].
      apply Z.eqb_eq in E. subst. assumption.
    + destruct c as [|c|c]; try discriminate;
        do 4 (destruct c as [c|c|]; try discriminate).
Qed.

(** A match is at least [min_len] characters long. *)
Lemma re_match_min_len (r : regex) (s : str) (m : rmatch) :
  re_match r s = Some m -> (min_len r <= length (m_text m))%nat.
Proof.
  unfold re_match. intros H.
  destruct (exec_min_len _ _ _ _ _ _ _ H) as (s' & acc' & g' & Hk & L).
  injection Hk as <-. cbn [m_text length] in *. rewrite length_rev. lia.
Qed.

(** None of the patterns the scanning loops run matches the empty
    string. *)
Lemma scanning_patterns_never_empty :
  Forall (fun r => forall s m, re_match r s = Some m -> m_text m <> [])
         scanning_patterns.
Proof.
  assert (H : Forall (fun r => (1 <= min_len r)%nat) scanning_patterns).
  { unfold scanning_patterns. repeat constructor. }
  eapply Forall_impl; [|exact H].
  intros r Hr s m Hm Hnil. apply re_match_min_len in Hm.
  rewrite Hnil in Hm. cbn [length] in Hm. cbv beta in Hr. lia.
Qed.

Lemma re_finditer_aux_sound (P : Z -> Prop) (r : regex) :
  within P r ->
  forall (s : str) (skip : nat),
    Forall (fun m => m_text m <> [] /\ Forall P (m_text m))
           (re_finditer_aux r s skip).
Proof.
  intros Hin. induction s as [|c tl IH]; intros skip; simpl.
  - constructor.
  - destruct skip as [|n]; [|apply IH].
    destruct (re_match r (c :: tl)) as [m|] eqn:Em; [|apply IH].
    destruct (m_text m) as [|c0 w] eqn:Et; [apply IH|].
    constructor; [|apply IH].
    rewrite Et. split; [discriminate|].
    destruct (re_match_sound P r _ _ Hin Em) as [_ Hw]. now rewrite Et in Hw.
Qed.

(** ** Trimming *)

Lemma lstrip_incl (s : str) (c : Z) : In c (lstrip s) -> In c s.
Proof.
  induction s as [|x s IH]; simpl; [auto|].
  destruct (isspace x); auto.
Qed.

Lemma lstrip_keeps (s : str) (c : Z) :
  In c s -> isspace c = false -> In c (lstrip s).
Proof.
  induction s as [|x s IH]; simpl; intros Hin Hc; [auto|].
  destruct (isspace x) eqn:Ex; [|assumption].
  destruct Hin as [->|Hin]; [congruence | auto].
Qed.

Lemma lstrip_head (s : str) (c : Z) (t : str) :
  lstrip s = c :: t -> isspace c = false.
Proof.
  induction s as [|x s IH]; simpl; [discriminate|].
  destruct (isspace x) eqn:Ex; [assumption|].
  intros H. injection H as -> _. assumption.
Qed.

Lemma strip_nonempty_iff (s : str) : strip s <> [] <-> has_nonspace s.
Proof.
  unfold strip, rstrip, has_nonspace. split.
  - intros H. destruct (lstrip (rev (lstrip s))) as [|c t] eqn:E.
    + now elim H.
    + exists c. split; [|now apply (lstrip_head _ _ _ E)].
      apply lstrip_incl, in_rev, lstrip_incl.
      rewrite E. now left.
  - intros (c & Hin & Hc) H.
    assert (Hin' : In c (lstrip (rev (lstrip s)))).
    { apply lstrip_keeps; [|assumption]. apply -> in_rev.
      now apply lstrip_keeps. }
    apply in_rev in Hin'. rewrite H in Hin'. exact Hin'.
Qed.

Lemma has_nonspace_app_l (a b : str) : has_nonspace a -> has_nonspace (a ++ b).
Proof.
  intros (c & Hin & Hc). exists c. split; [apply in_or_app; now left | assumption].
Qed.

Lemma all_nonblank_same_text (l l' : list ASRDataSeg) :
  map text l' = map text l -> all_nonblank l -> all_nonblank l'.
Proof.
  unfold all_nonblank. revert l'. induction l as [|x l IH]; intros [|y l'] H Hl;
    try discriminate; [constructor|].
  simpl in H. injection H as Hy Hl'. inversion Hl; subst.
  constructor; [now rewrite Hy | now apply IH].
Qed.

Lemma sorted_same_start (l l' : list ASRDataSeg) :
  map start_time l' = map start_time l -> sorted_by_start l -> sorted_by_start l'.
Proof.
  unfold sorted_by_start. revert l'. induction l as [|x l IH]; intros [|y l'] H Hl;
    try discriminate; [constructor|].
  simpl in H. injection H as Hy Hl'. inversion Hl as [|? ? Hs Hhd]; subst.
  constructor; [now apply IH|].
  destruct l' as [|z l'']; [constructor|]. destruct l as [|x' l]; [discriminate|].
  simpl in Hl'. injection Hl' as Hz _. inversion Hhd; subst.
  constructor. unfold start_le in *. lia.
Qed.

(** ** The token pattern *)

Ltac range_facts :=
  unfold in_range in *;
  repeat match goal with
         | H : _ || _ = true |- _ => apply orb_true_iff in H; destruct H as [H | H]
         | H : _ && _ = true |- _ => apply andb_true_iff in H; destruct H
         | H : (_ <=? _) = true |- _ => apply Z.leb_le in H
         | H : (_ =? _) = true |- _ => apply Z.eqb_eq in H
         end.

Ltac range_goal :=
  unfold in_range;
  repeat match goal with
         | |- _ || _ = false => apply orb_false_iff; split
         | |- _ && _ = false => apply andb_false_iff
         | |- (_ =? _) = false => apply Z.eqb_neq; lia
         end.

Lemma isspace_cases (c : Z) :
  isspace c = true ->
  In c [9; 10; 11; 12; 13; 28; 29; 30; 31; 32; 133; 160; 5760; 8192; 8193; 8194;
        8195; 8196; 8197; 8198; 8199; 8200; 8201; 8202; 8232; 8233; 8239; 8287;
        12288].
Proof.
  unfold isspace. intros H. range_facts; simpl; lia.
Qed.

Lemma isdecimal_not_space (c : Z) : isdecimal c = true -> isspace c = false.
Proof.
  intros Hd. destruct (isspace c) eqn:Es; [|reflexivity].
  apply isspace_cases in Es. simpl in Es.
  repeat (destruct Es as [<- | Es]; [vm_compute in Hd; discriminate|]).
  destruct Es.
Qed.

Lemma range_not_space (lo hi c : Z) :
  in_range lo hi c = true ->
  (forall x, In x [9; 10; 11; 12; 13; 28; 29; 30; 31; 32; 133; 160; 5760; 8192;
                   8193; 8194; 8195; 8196; 8197; 8198; 8199; 8200; 8201; 8202;
                   8232; 8233; 8239; 8287; 12288] -> x < lo \/ hi < x) ->
  isspace c = false.
Proof.
  intros Hr Hout. destruct (isspace c) eqn:Es; [|reflexivity].
  apply isspace_cases in Es. apply Hout in Es. range_facts. lia.
Qed.

Ltac not_space :=
  match goal with
  | H : in_range ?lo ?hi ?c = true |- isspace ?c = false =>
      apply (range_not_space lo hi c H); simpl; intros x Hx;
      repeat (destruct Hx as [<- | Hx]; [lia|]); destruct Hx
  end.

Lemma word_pattern_not_space :
  within (fun c => isspace c = false) word_pattern.
Proof.
  unfold word_pattern, word_alternatives, alternation, Plus,
    cs_cyrillic, cs_greek, cs_arabic, cs_hebrew, cs_cjk, cs_hiragana,
    cs_katakana, cs_hangul, cs_thai, cs_devanagari, cs_bengali, cs_lao,
    cs_burmese.
  simpl within.
  assert (Hlatin : forall c, cs_latin c = true -> isspace c = false).
  { unfold cs_latin. intros c H.
    repeat (apply orb_true_iff in H; destruct H as [H | H]); try not_space.
    apply Z.eqb_eq in H. subst. reflexivity. }
  assert (Hmark : forall c, cs_thai_mark c = true -> isspace c = false).
  { unfold cs_thai_mark. intros c H.
    apply orb_true_iff in H; destruct H as [H | H]; not_space. }
  repeat split; try assumption; try apply isdecimal_not_space;
    intros c H; not_space.
Qed.

(** Every token is non-empty and free of white space. *)
Lemma word_tokens_nonblank (txt : str) :
  Forall (fun w => strip w <> [])
         (map m_text (re_finditer word_pattern txt)).
Proof.
  apply Forall_map. unfold re_finditer.
  eapply Forall_impl; [|apply (re_finditer_aux_sound _ _ word_pattern_not_space)].
  intros m [Hne Hall]. apply strip_nonempty_iff.
  destruct (m_text m) as [|c w]; [congruence|].
  exists c. split; [now left|]. now inversion Hall.
Qed.

Lemma word_segments_text (tpp : float) (seg_end : Z) (words : list str) :
  forall cur, map text (word_segments tpp seg_end words cur) = words.
Proof.
  induction words as [|w words IH]; intros cur; simpl; [reflexivity|].
  now rewrite IH.
Qed.

Lemma split_segment_nonblank (seg : ASRDataSeg) : all_nonblank (split_segment seg).
Proof.
  unfold split_segment, all_nonblank.
  pose proof (word_tokens_nonblank (text seg)) as H.
  destruct (map m_text (re_finditer word_pattern (text seg))) as [|w ws] eqn:E;
    [constructor|].
  rewrite <- (Forall_map text (fun t => strip t <> [])), word_segments_text.
  exact H.
Qed.

Lemma split_to_word_segments_nonblank (d : ASRData) :
  all_nonblank (segments (split_to_word_segments d)).
Proof.
  unfold split_to_word_segments, all_nonblank. simpl.
  induction (segments d) as [|seg l IH]; simpl; [constructor|].
  apply Forall_app. split; [apply split_segment_nonblank | exact IH].
Qed.

(** ** Which operations keep the invariant *)

Lemma start_le_trans : Relations_1.Transitive start_le.
Proof. unfold Relations_1.Transitive, start_le. intros; lia. Qed.

Lemma strongly_sorted_app_r (a b : list ASRDataSeg) :
  StronglySorted start_le (a ++ b) -> StronglySorted start_le b.
Proof.
  induction a as [|x a IH]; simpl; intros H; [assumption|].
  inversion H; subst. auto.
Qed.

(** Replacing a run [x :: mid] of a sorted list by one segment that
    starts where [x] starts keeps the list sorted. *)
Lemma sorted_replace_run (pre mid post : list ASRDataSeg) (x y : ASRDataSeg) :
  start_time y = start_time x ->
  sorted_by_start (pre ++ x :: mid ++ post) ->
  sorted_by_start (pre ++ y :: post).
Proof.
  unfold sorted_by_start. intros Hy Hs.
  apply StronglySorted_Sorted.
  apply (Sorted_StronglySorted start_le_trans) in Hs.
  induction pre as [|a pre IH]; simpl in *.
  - inversion Hs as [|? ? Hss Hall]; subst. constructor.
    + now apply strongly_sorted_app_r in Hss.
    + apply Forall_app in Hall. destruct Hall as [_ Hall].
      eapply Forall_impl; [|exact Hall]. unfold start_le. intros; lia.
  - inversion Hs as [|? ? Hss Hall]; subst. constructor; [now apply IH|].
    apply Forall_app in Hall. destruct Hall as [H1 H2].
    inversion H2 as [|? ? Hx H3]; subst.
    apply Forall_app in H3. destruct H3 as [_ H3].
    apply Forall_app. split; [assumption|].
    constructor; [unfold start_le in *; lia | assumption].
Qed.

Lemma nonblank_replace_run (pre mid post : list ASRDataSeg) (x y : ASRDataSeg) :
  strip (text y) <> [] ->
  all_nonblank (pre ++ x :: mid ++ post) ->
  all_nonblank (pre ++ y :: post).
Proof.
  unfold all_nonblank. intros Hy H.
  apply Forall_app in H. destruct H as [H1 H2].
  inversion H2 as [|? ? _ H3]; subst.
  apply Forall_app in H3. destruct H3 as [_ H3].
  apply Forall_app. split; [assumption|]. now constructor.
Qed.

Lemma skipn_nth_error {A : Type} (l : list A) :
  forall (i : nat) (a : A), nth_error l i = Some a -> skipn i l = a :: skipn (S i) l.
Proof.
  induction l as [|x l IH]; intros [|i] a H; simpl in *; try discriminate.
  - now injection H as ->.
  - now apply IH.
Qed.

Lemma merge_with_next_segment_invariant (d d' : ASRData) (index : Z) :
  doc_invariant d -> merge_with_next_segment d index = Ok d' -> doc_invariant d'.
Proof.
  intros [Hs Hn]. unfold merge_with_next_segment.
  destruct (_ || _); [discriminate|].
  set (i := Z.to_nat index).
  destruct (nth_error (segments d) i) as [cur|] eqn:N1; [|discriminate].
  destruct (nth_error (segments d) (S i)) as [next|] eqn:N2; [|discriminate].
  intros H. injection H as <-.
  assert (E : segments d
              = firstn i (segments d) ++ cur :: [next] ++ skipn (S (S i)) (segments d)).
  { rewrite <- (firstn_skipn i (segments d)) at 1.
    rewrite (skipn_nth_error _ _ _ N1), (skipn_nth_error _ _ _ N2). reflexivity. }
  rewrite E in Hs, Hn. split; simpl.
  - eapply sorted_replace_run; [|exact Hs]. reflexivity.
  - eapply nonblank_replace_run; [|exact Hn]. simpl.
    apply strip_nonempty_iff, has_nonspace_app_l, strip_nonempty_iff.
    unfold all_nonblank in Hn. apply Forall_app in Hn. destruct Hn as [_ Hn].
    now inversion Hn.
Qed.

Lemma merge_segments_invariant (d d' : ASRData) (start_index end_index : Z)
      (merged_text : option str) :
  doc_invariant d ->
  (forall t, merged_text = Some t -> strip t <> []) ->
  merge_segments d start_index end_index merged_text = Ok d' ->
  doc_invariant d'.
Proof.
  intros [Hs Hn] Ht. unfold merge_segments.
  destruct (start_index <? 0) eqn:E1; [discriminate|].
  destruct (end_index >=? _) eqn:E2; [discriminate|].
  destruct (start_index >? end_index) eqn:E3; [discriminate|]. cbn [orb].
  apply Z.ltb_ge in E1. rewrite Z.gtb_ltb in E3. apply Z.ltb_ge in E3.
  set (i := Z.to_nat start_index). set (j := Z.to_nat end_index).
  assert (Hij : (i <= j)%nat) by (unfold i, j; lia).
  destruct (nth_error (segments d) i) as [first|] eqn:N1; [|discriminate].
  destruct (nth_error (segments d) j) as [last|] eqn:N2; [|discriminate].
  set (rest := skipn (S i) (segments d)).
  assert (E : segments d
              = firstn i (segments d)
                  ++ first :: firstn (j - i) rest ++ skipn (S j) (segments d)).
  { rewrite <- (firstn_skipn i (segments d)) at 1.
    rewrite (skipn_nth_error _ _ _ N1). fold rest.
    rewrite <- (firstn_skipn (j - i) rest) at 1.
    unfold rest. rewrite skipn_skipn. do 4 f_equal. lia. }
  assert (Hslice : firstn (S j - i) (skipn i (segments d))
                   = first :: firstn (j - i) rest).
  { rewrite (skipn_nth_error _ _ _ N1). fold rest.
    replace (S j - i)%nat with (S (j - i)) by lia. reflexivity. }
  rewrite Hslice. intros H. injection H as <-.
  rewrite E in Hs, Hn. split; cbn [segments].
  - eapply sorted_replace_run; [|exact Hs]. reflexivity.
  - eapply nonblank_replace_run; [|exact Hn]. cbn [text].
    destruct merged_text as [t|]; [now apply Ht|].
    simpl. apply strip_nonempty_iff, has_nonspace_app_l, strip_nonempty_iff.
    unfold all_nonblank in Hn. apply Forall_app in Hn. destruct Hn as [_ Hn].
    now inversion Hn.
Qed.

Lemma remove_punctuation_sorted (d : ASRData) :
  sorted_by_start (segments d) -> sorted_by_start (segments (remove_punctuation d)).
Proof.
  apply sorted_same_start. unfold remove_punctuation. simpl.
  rewrite map_map. reflexivity.
Qed.

Lemma optimize_timing_nonblank (th : Z) (d : ASRData) :
  all_nonblank (segments d) -> all_nonblank (segments (optimize_timing th d)).
Proof.
  apply all_nonblank_same_text. now apply optimize_timing_map.
Qed.

Lemma nth_error_update_nth {A : Type} (f : A -> A) (l : list A) :
  forall i j : nat,
    nth_error (update_nth i f l) j
    = if Nat.eqb i j then option_map f (nth_error l j) else nth_error l j.
Proof.
  induction l as [|x l IH]; intros [|i] [|j]; simpl; try reflexivity.
  - now destruct (Nat.eqb i j).
  - apply IH.
Qed.

(** The new boundary lies between the old end and the old start. *)
Lemma boundary_between (e s : Z) :
  e <= s -> e <= (e + s) / 2 + (s - e) / 4 <= s.
Proof.
  intros H.
  pose proof (Z.div_mod (e + s) 2 ltac:(lia)).
  pose proof (Z.mod_pos_bound (e + s) 2 ltac:(lia)).
  pose proof (Z.div_mod (s - e) 4 ltac:(lia)).
  pose proof (Z.mod_pos_bound (s - e) 4 ltac:(lia)).
  lia.
Qed.

Lemma optimize_step_well_spaced (th : Z) (segs : list ASRDataSeg) (i : nat) :
  well_spaced segs -> well_spaced (optimize_step th segs i).
Proof.
  intros [Hse Hadj]. unfold optimize_step.
  destruct (nth_error segs i) as [cur|] eqn:N1; [|now split].
  destruct (nth_error segs (S i)) as [next|] eqn:N2; [|now split].
  destruct (_ <? th); [|now split].
  pose proof (Hse _ _ N1) as Hc. pose proof (Hse _ _ N2) as Hn.
  pose proof (Hadj _ _ _ N1 N2) as Hcn.
  pose proof (boundary_between _ _ Hcn) as Hb.
  set (mid := (end_time cur + start_time next) / 2
              + (start_time next - end_time cur) / 4) in *.
  split.
  - intros j a. rewrite !nth_error_update_nth.
    repeat match goal with
           | |- context [Nat.eqb ?x ?y] =>
               destruct (Nat.eqb_spec x y); try (exfalso; lia); subst
           end;
      try rewrite N1; try rewrite N2; simpl; intros Ha;
      try (injection Ha as <-; simpl; lia).
    now apply (Hse j).
  - intros j a b. rewrite !nth_error_update_nth.
    repeat match goal with
           | |- context [Nat.eqb ?x ?y] =>
               destruct (Nat.eqb_spec x y); try (exfalso; lia); subst
           end;
      try rewrite N1; try rewrite N2; simpl; intros Ha Hb';
      repeat match goal with
             | H : Some _ = Some _ |- _ => injection H as <-
             end;
      simpl; try lia; try (eapply Hadj; eassumption).
Qed.

Lemma optimize_loop_well_spaced (th : Z) (idx : list nat) :
  forall segs, well_spaced segs -> well_spaced (fold_left (optimize_step th) idx segs).
Proof.
  induction idx as [|i idx IH]; intros segs H; simpl; [assumption|].
  apply IH. now apply optimize_step_well_spaced.
Qed.

Lemma optimize_timing_well_spaced (th : Z) (d : ASRData) :
  well_spaced (segments d) -> well_spaced (segments (optimize_timing th d)).
Proof.
  intros H. unfold optimize_timing.
  destruct (is_word_timestamp d); [assumption|].
  destruct (segments d) eqn:E; [now rewrite E|].
  simpl segments. now apply optimize_loop_well_spaced.
Qed.

Lemma well_spaced_tail (a : ASRDataSeg) (l : list ASRDataSeg) :
  well_spaced (a :: l) -> well_spaced l.
Proof.
  intros [H1 H2]. split.
  - intros i x Hx. apply (H1 (S i)). exact Hx.
  - intros i x y Hx Hy. apply (H2 (S i)); assumption.
Qed.

Lemma well_spaced_sorted (l : list ASRDataSeg) :
  well_spaced l -> sorted_by_start l.
Proof.
  unfold sorted_by_start. induction l as [|a l IH]; intros H; constructor.
  - apply IH. now apply well_spaced_tail in H.
  - destruct l as [|b l]; constructor.
    destruct H as [H1 H2]. unfold start_le.
    pose proof (H1 0%nat a eq_refl). pose proof (H2 0%nat a b eq_refl eq_refl). lia.
Qed.


(** ** Word-level WebVTT blocks *)






(** ** The SRT round trip *)

(** C5 as stated fails: a text of two lines is written on two lines of
    its block, the parser reads the first of them only, and the
    bilingual pattern is not triggered (one block of four lines, one of
    three). *)
Lemma to_srt_from_srt_loses_second_line :
  srt_has_translation (srt_blocks (to_srt layout_original_on_top two_line_text_doc))
  = false
  /\ map text (segments two_line_text_doc)
     = [u "Hello" ++ [NL] ++ u "world"; u "bye"]
  /\ map text (segments (from_srt (to_srt layout_original_on_top two_line_text_doc)))
     = [u "Hello"; u "bye"]
  /\ map text (segments (from_srt (to_srt layout_original_on_top two_line_text_doc)))
     <> map text (segments two_line_text_doc).
Proof.
  split; [vm_compute; reflexivity|]. split; [vm_compute; reflexivity|].
  split; [vm_compute; reflexivity|]. vm_compute. discriminate.
Qed.

(** *** Joining and trimming *)

Lemma join_cons2 (sep x y : str) (l : list str) :
  join sep (x :: y :: l) = x ++ sep ++ join sep (y :: l).
Proof. reflexivity. Qed.

Lemma join_map_suffix {A : Type} (f : A -> str) (l : list A) :
  l <> [] ->
  join [NL] (map (fun x => f x ++ [NL]) l) = join [NL; NL] (map f l) ++ [NL].
Proof.
  induction l as [|x l IH]; intros Hne; [congruence|].
  destruct l as [|y l]; [reflexivity|].
  specialize (IH ltac:(discriminate)).
  change (join [NL] (map (fun x => f x ++ [NL]) (x :: y :: l)))
    with ((f x ++ [NL]) ++ [NL] ++ join [NL] (map (fun x => f x ++ [NL]) (y :: l))).
  change (join [NL; NL] (map f (x :: y :: l)))
    with (f x ++ [NL; NL] ++ join [NL; NL] (map f (y :: l))).
  rewrite IH. rewrite <- !app_assoc. reflexivity.
Qed.

Lemma lstrip_app_nonspace (a b : str) :
  has_nonspace a -> lstrip (a ++ b) = lstrip a ++ b.
Proof.
  intros (c & Hin & Hc). induction a as [|x a IH]; simpl; [destruct Hin|].
  destruct (isspace x) eqn:Ex; [|reflexivity].
  apply IH. destruct Hin as [->|Hin]; [congruence | assumption].
Qed.

Lemma rstrip_app_nonspace (a b : str) :
  has_nonspace b -> rstrip (a ++ b) = a ++ rstrip b.
Proof.
  intros Hb. unfold rstrip. rewrite rev_app_distr.
  rewrite lstrip_app_nonspace.
  - now rewrite rev_app_distr, rev_involutive.
  - destruct Hb as (c & Hin & Hc). exists c. split; [now apply -> in_rev | assumption].
Qed.

Lemma rstrip_snoc_space (a : str) (c : Z) :
  isspace c = true -> rstrip (a ++ [c]) = rstrip a.
Proof.
  intros Hc. unfold rstrip. rewrite rev_app_distr. simpl. now rewrite Hc.
Qed.

Lemma has_nonspace_app_r (a b : str) : has_nonspace b -> has_nonspace (a ++ b).
Proof.
  intros (c & Hin & Hc). exists c. split; [apply in_or_app; now right | assumption].
Qed.

Lemma has_nonspace_rstrip (a : str) : has_nonspace a -> has_nonspace (rstrip a).
Proof.
  intros (c & Hin & Hc). exists c. split; [|assumption].
  unfold rstrip. apply in_rev. rewrite rev_involutive.
  apply lstrip_keeps; [now apply -> in_rev | assumption].
Qed.

Lemma rstrip_incl (a : str) (c : Z) : In c (rstrip a) -> In c a.
Proof.
  unfold rstrip. intros H. apply in_rev in H. apply lstrip_incl in H.
  now apply in_rev.
Qed.

Lemma clean_line_rstrip (a : str) : clean_line a -> clean_line (rstrip a).
Proof.
  intros [Hs Hn]. split; [|now apply has_nonspace_rstrip].
  unfold single_line in *. rewrite Forall_forall in *.
  intros c Hc. apply Hs. now apply rstrip_incl.
Qed.

Lemma has_nonspace_join_last (sep : str) (l : list str) :
  has_nonspace (last l []) -> has_nonspace (join sep l).
Proof.
  induction l as [|x l IH]; intros H; [exact H|].
  destruct l as [|y l]; [exact H|].
  rewrite join_cons2. apply has_nonspace_app_r, has_nonspace_app_r.
  apply IH. exact H.
Qed.

Lemma join_cons_nonempty (sep x : str) (l : list str) :
  l <> [] -> join sep (x :: l) = x ++ sep ++ join sep l.
Proof. destruct l; [congruence | reflexivity]. Qed.

Lemma map_last_nonempty {A : Type} (f : A -> A) (l : list A) :
  l <> [] -> map_last f l <> [].
Proof. destruct l as [|x [|y l]]; simpl; congruence. Qed.

Lemma map_last_cons2 {A : Type} (f : A -> A) (x y : A) (l : list A) :
  map_last f (x :: y :: l) = x :: map_last f (y :: l).
Proof. reflexivity. Qed.

(** Trimming a joined text on the right trims its last part. *)
Lemma rstrip_join (sep : str) (l : list str) :
  has_nonspace (last l []) -> rstrip (join sep l) = join sep (map_last rstrip l).
Proof.
  induction l as [|x l IH]; intros H.
  - destruct H as (c & [] & _).
  - destruct l as [|y l]; [reflexivity|].
    rewrite join_cons2, map_last_cons2.
    rewrite (join_cons_nonempty sep x (map_last rstrip (y :: l)))
      by (apply map_last_nonempty; discriminate).
    rewrite app_assoc.
    rewrite rstrip_app_nonspace by (now apply has_nonspace_join_last).
    rewrite IH by exact H. rewrite <- app_assoc. reflexivity.
Qed.

(** *** Splitting into blocks and lines *)

Lemma single_line_not_nl (c : Z) : is_linebreak c = false -> c <> NL.
Proof. intros H ->. discriminate. Qed.

Lemma clean_line_nonempty (l : str) : clean_line l -> l <> [].
Proof. intros [_ (c & Hin & _)] ->. destruct Hin. Qed.

(** A clean line is a run of spaces other than line feeds, then a
    character that is not a space. *)
Lemma clean_line_decompose (l : str) :
  clean_line l ->
  exists w c r,
    l = w ++ c :: r
    /\ Forall (fun x => isspace x = true /\ x <> NL) w
    /\ isspace c = false.
Proof.
  intros [Hs (c & Hin & Hc)]. induction l as [|x l IH]; [destruct Hin|].
  inversion Hs as [|? ? Hx Hl]; subst.
  destruct (isspace x) eqn:Ex.
  - destruct Hin as [->|Hin]; [congruence|].
    destruct (IH Hl Hin) as (w & c' & r & -> & Hw & Hc').
    exists (x :: w), c', r. repeat split; [|assumption].
    constructor; [|assumption]. split; [assumption | now apply single_line_not_nl].
  - exists [], x, l. repeat split; [constructor | assumption].
Qed.

Lemma re_match_separator (c : Z) (tl : str) :
  re_match srt_block_separator (c :: tl)
  = if is_char NL c then greedy isspace after_spaces [] tl [c] else None.
Proof. reflexivity. Qed.

Lemma greedy_spaces_blocked (w : str) (c : Z) (r acc : str) (g : groups) :
  Forall (fun x => isspace x = true /\ x <> NL) w ->
  isspace c = false ->
  greedy isspace after_spaces g (w ++ c :: r) acc = None.
Proof.
  intros Hw Hc. revert acc. induction Hw as [|x w [Hx Hnl] Hw IH]; intros acc; simpl.
  - rewrite Hc. unfold is_char.
    destruct (c =? NL) eqn:E; [|reflexivity].
    apply Z.eqb_eq in E. subst. discriminate.
  - rewrite Hx, IH. simpl. unfold is_char.
    destruct (x =? NL) eqn:E; [|reflexivity].
    apply Z.eqb_eq in E. contradiction.
Qed.

(** No separator starts at a line feed that is followed by a clean
    line. *)
Lemma separator_not_before_line (l rest : str) :
  clean_line l -> re_match srt_block_separator (NL :: l ++ rest) = None.
Proof.
  intros Hl. destruct (clean_line_decompose l Hl) as (w & c & r & -> & Hw & Hc).
  rewrite re_match_separator. cbn [is_char NL Z.eqb Pos.eqb].
  rewrite <- app_assoc. cbn [app]. now apply greedy_spaces_blocked.
Qed.

(** Two line feeds followed by a clean line are a separator, and it
    ends there. *)
Lemma separator_before_block (l rest : str) :
  clean_line l ->
  re_match srt_block_separator (NL :: NL :: l ++ rest)
  = Some (mkMatch [NL; NL] [] (l ++ rest)).
Proof.
  intros Hl. destruct (clean_line_decompose l Hl) as (w & c & r & -> & Hw & Hc).
  rewrite re_match_separator. cbn [is_char NL Z.eqb Pos.eqb].
  cbn [greedy]. change (isspace 10) with true. cbn iota.
  rewrite <- app_assoc. cbn [app].
  rewrite greedy_spaces_blocked by assumption. reflexivity.
Qed.

Lemma separator_not_at (c : Z) (tl : str) :
  c <> NL -> re_match srt_block_separator (c :: tl) = None.
Proof.
  intros Hc. rewrite re_match_separator. unfold is_char.
  destruct (c =? NL) eqn:E; [|reflexivity].
  apply Z.eqb_eq in E. contradiction.
Qed.

Lemma re_split_line (line : str) :
  single_line line ->
  forall rest cur,
    re_split_aux srt_block_separator (line ++ rest) 0 cur
    = re_split_aux srt_block_separator rest 0 (rev line ++ cur).
Proof.
  induction 1 as [|c line Hc Hl IH]; intros rest cur; [reflexivity|].
  cbn [app re_split_aux].
  rewrite separator_not_at by (now apply single_line_not_nl).
  rewrite IH. cbn [rev]. rewrite <- app_assoc. reflexivity.
Qed.

Lemma join_first_line (sep : str) (l : str) (ls : list str) :
  exists r, join sep (l :: ls) = l ++ r.
Proof.
  destruct ls as [|l2 ls]; [exists []; simpl; now rewrite app_nil_r|].
  eexists. rewrite join_cons2. reflexivity.
Qed.

(** Inside a block of clean lines no separator is found. *)
Lemma re_split_block (lines : list str) :
  Forall clean_line lines ->
  forall rest cur,
    re_split_aux srt_block_separator (join [NL] lines ++ rest) 0 cur
    = re_split_aux srt_block_separator rest 0 (rev (join [NL] lines) ++ cur).
Proof.
  induction 1 as [|l lines Hl Hls IH]; intros rest cur; [reflexivity|].
  destruct lines as [|l2 lines].
  - cbn [join]. apply re_split_line, Hl.
  - rewrite join_cons2. rewrite <- !app_assoc.
    rewrite re_split_line by apply Hl.
    destruct (join_first_line [NL] l2 lines) as (r & Hr).
    cbn [app]. cbn [re_split_aux].
    assert (Hnone : re_match srt_block_separator
                      (NL :: join [NL] (l2 :: lines) ++ rest) = None).
    { rewrite Hr, <- app_assoc. apply separator_not_before_line.
      now inversion Hls. }
    rewrite Hnone. rewrite IH.
    rewrite !rev_app_distr. cbn [rev app]. rewrite <- !app_assoc. reflexivity.
Qed.

(** [re.split] recovers the blocks that were joined with an empty line
    in between. *)
Lemma re_split_blocks (blocks : list (list str)) :
  Forall (fun lines => lines <> [] /\ Forall clean_line lines) blocks ->
  forall (b : list str) (cur : str),
    Forall clean_line b ->
    re_split_aux srt_block_separator
                 (join [NL; NL] (map (join [NL]) (b :: blocks))) 0 cur
    = (rev cur ++ join [NL] b) :: map (join [NL]) blocks.
Proof.
  induction 1 as [|b2 blocks [Hne Hb2] Hbs IH]; intros b cur Hb.
  - cbn [map join]. rewrite <- (app_nil_r (join [NL] b)) at 1.
    rewrite re_split_block by assumption. cbn [re_split_aux].
    rewrite rev_app_distr, rev_involutive. reflexivity.
  - cbn [map]. rewrite join_cons2. rewrite re_split_block by assumption.
    destruct b2 as [|l2 ls]; [congruence|].
    destruct (join_first_line [NL] l2 ls) as (r & Hr).
    destruct (join_first_line [NL; NL] (join [NL] (l2 :: ls)) (map (join [NL]) blocks))
      as (r' & Hr').
    cbn [app]. cbn [re_split_aux].
    assert (Hsep : re_match srt_block_separator
                     (NL :: NL :: join [NL; NL]
                                       (join [NL] (l2 :: ls) :: map (join [NL]) blocks))
                   = Some (mkMatch [NL; NL] []
                             (join [NL; NL]
                                   (join [NL] (l2 :: ls) :: map (join [NL]) blocks)))).
    { rewrite Hr', Hr, <- app_assoc. apply separator_before_block.
      now inversion Hb2. }
    rewrite Hsep. cbn [m_text length Nat.sub re_split_aux].
    pose proof (IH (l2 :: ls) [] Hb2) as IH'. cbn [map] in IH'.
    rewrite IH'. cbn [rev app].
    rewrite rev_app_distr, rev_involutive. reflexivity.
Qed.

Lemma splitlines_line (line : str) :
  single_line line ->
  forall rest cur,
    splitlines_aux (line ++ rest) cur = splitlines_aux rest (rev line ++ cur).
Proof.
  induction 1 as [|c line Hc Hl IH]; intros rest cur; [reflexivity|].
  cbn [app splitlines_aux]. rewrite Hc, IH. cbn [rev].
  rewrite <- app_assoc. reflexivity.
Qed.

(** [splitlines] recovers the clean lines that were joined with a line
    feed. *)
Lemma splitlines_join (lines : list str) :
  Forall clean_line lines -> splitlines (join [NL] lines) = lines.
Proof.
  unfold splitlines. induction 1 as [|l lines Hl Hls IH]; [reflexivity|].
  destruct lines as [|l2 lines].
  - cbn [join]. rewrite <- (app_nil_r l) at 1.
    rewrite splitlines_line by apply Hl. cbn [splitlines_aux].
    rewrite app_nil_r. pose proof (clean_line_nonempty l Hl) as Hne.
    destruct (rev l) eqn:E.
    + apply (f_equal (@rev Z)) in E. rewrite rev_involutive in E. contradiction.
    + rewrite <- E, rev_involutive. reflexivity.
  - rewrite join_cons2. rewrite splitlines_line by apply Hl.
    cbn [app splitlines_aux]. change (is_linebreak NL) with true. cbn iota.
    unfold NL at 1. rewrite IH. rewrite app_nil_r, rev_involutive. reflexivity.
Qed.

(** *** Time stamps *)

Lemma fmt_int_2 (h : Z) :
  0 <= h < 100 -> fmt_int 2 h = [48 + h / 10; 48 + h mod 10].
Proof.
  intros Hh.
  assert (H : forallb (fun k => str_eqb (fmt_int 2 (Z.of_nat k))
                                        [48 + Z.of_nat k / 10; 48 + Z.of_nat k mod 10])
                      (seq 0 100) = true) by (vm_compute; reflexivity).
  rewrite forallb_forall in H. specialize (H (Z.to_nat h)).
  rewrite Z2Nat.id in H by lia. apply str_eqb_eq, H, in_seq. lia.
Qed.

Lemma fmt_int_3 (x : Z) :
  0 <= x < 1000 ->
  fmt_int 3 x = [48 + x / 100; 48 + (x / 10) mod 10; 48 + x mod 10].
Proof.
  intros Hx.
  assert (H : forallb (fun k => str_eqb (fmt_int 3 (Z.of_nat k))
                                        [48 + Z.of_nat k / 100;
                                         48 + (Z.of_nat k / 10) mod 10;
                                         48 + Z.of_nat k mod 10])
                      (seq 0 1000) = true) by (vm_compute; reflexivity).
  rewrite forallb_forall in H. specialize (H (Z.to_nat x)).
  rewrite Z2Nat.id in H by lia. apply str_eqb_eq, H, in_seq. lia.
Qed.

(** The twelve characters of [HH:MM:SS,mmm] and the time they spell. *)
Lemma ms_to_srt_time_shape (a : Z) :
  srt_time_ok a ->
  exists d1 d2 d3 d4 d5 d6 d7 d8 d9,
    ms_to_srt_time a = [d1; d2; 58; d3; d4; 58; d5; d6; 44; d7; d8; d9]
    /\ Forall ascii_digit [d1; d2; d3; d4; d5; d6; d7; d8; d9]
    /\ time_of_parts ((d1 - 48) * 10 + (d2 - 48)) ((d3 - 48) * 10 + (d4 - 48))
                     ((d5 - 48) * 10 + (d6 - 48))
                     (((d7 - 48) * 10 + (d8 - 48)) * 10 + (d9 - 48))
       = a.
Proof.
  unfold srt_time_ok. intros Ha. unfold ms_to_srt_time.
  set (ts := a / 1000). set (ms := a mod 1000).
  set (m0 := ts / 60). set (sec := ts mod 60).
  set (h := m0 / 60). set (mi := m0 mod 60).
  assert (Hms : 0 <= ms < 1000) by (apply Z.mod_pos_bound; lia).
  assert (Hsec : 0 <= sec < 60) by (apply Z.mod_pos_bound; lia).
  assert (Hmi : 0 <= mi < 60) by (apply Z.mod_pos_bound; lia).
  assert (Ea : a = 1000 * ts + ms) by (apply Z.div_mod; lia).
  assert (Ets : ts = 60 * m0 + sec) by (apply Z.div_mod; lia).
  assert (Em0 : m0 = 60 * h + mi) by (apply Z.div_mod; lia).
  assert (Hh : 0 <= h < 100) by lia.
  rewrite !fmt_int_2, fmt_int_3 by lia.
  do 9 eexists. split; [reflexivity|].
  pose proof (Z.div_mod h 10 ltac:(lia)). pose proof (Z.mod_pos_bound h 10 ltac:(lia)).
  pose proof (Z.div_mod mi 10 ltac:(lia)). pose proof (Z.mod_pos_bound mi 10 ltac:(lia)).
  pose proof (Z.div_mod sec 10 ltac:(lia)). pose proof (Z.mod_pos_bound sec 10 ltac:(lia)).
  pose proof (Z.div_mod ms 10 ltac:(lia)). pose proof (Z.mod_pos_bound ms 10 ltac:(lia)).
  pose proof (Z.div_mod (ms / 10) 10 ltac:(lia)).
  pose proof (Z.mod_pos_bound (ms / 10) 10 ltac:(lia)).
  assert (E100 : ms / 100 = ms / 10 / 10) by (rewrite Z.div_div by lia; reflexivity).
  split.
  - unfold ascii_digit. repeat constructor; lia.
  - unfold time_of_parts. lia.
Qed.

Lemma ascii_digit_not_sep (c : Z) : ascii_digit c -> cs_dot_comma c = false.
Proof.
  unfold ascii_digit, cs_dot_comma. intros H.
  apply orb_false_iff. split; apply Z.eqb_neq; lia.
Qed.

Lemma orelse_none_r {R : Type} (a : option R) : orelse a None = a.
Proof. now destruct a. Qed.

(** The pattern of one time reads twelve such characters and records
    the four fields. *)
Lemma exec_srt_time (R : Type) (n : nat) (d1 d2 d3 d4 d5 d6 d7 d8 d9 sep : Z)
      (s acc : str) (g : groups) (k : cont R) :
  Forall ascii_digit [d1; d2; d3; d4; d5; d6; d7; d8; d9] ->
  cs_dot_comma sep = true ->
  exec (srt_time n)
       (d1 :: d2 :: 58 :: d3 :: d4 :: 58 :: d5 :: d6 :: sep :: d7 :: d8 :: d9 :: s)
       acc g k
  = k s (d9 :: d8 :: d7 :: sep :: d6 :: d5 :: 58 :: d4 :: d3 :: 58 :: d2 :: d1 :: acc)
      (((n + 4)%nat, [d7; d8; d9]) :: ((n + 3)%nat, [d5; d6])
         :: ((n + 2)%nat, [d3; d4]) :: ((n + 1)%nat, [d1; d2]) :: g).
Proof.
  intros Hd Hsep.
  repeat match goal with
         | H : Forall _ (_ :: _) |- _ => inversion H; clear H; subst
         end.
  unfold srt_time. change (u ":") with [58].
  cbn [exec Rep Lit is_char Z.eqb Pos.eqb].
  rewrite !isdecimal_ascii by assumption. cbn iota.
  rewrite Hsep. rewrite (ascii_digit_not_sep d6) by assumption.
  rewrite orelse_none_r. reflexivity.
Qed.

Lemma int_of_group_2 (d1 d2 : Z) :
  ascii_digit d1 -> ascii_digit d2 ->
  int_of_group [d1; d2] = (d1 - 48) * 10 + (d2 - 48).
Proof.
  intros H1 H2. unfold int_of_group, int_of_str. cbn [int_digits].
  rewrite !decimal_value_ascii by assumption. reflexivity.
Qed.

Lemma int_of_group_3 (d1 d2 d3 : Z) :
  ascii_digit d1 -> ascii_digit d2 -> ascii_digit d3 ->
  int_of_group [d1; d2; d3] = ((d1 - 48) * 10 + (d2 - 48)) * 10 + (d3 - 48).
Proof.
  intros H1 H2 H3. unfold int_of_group, int_of_str. cbn [int_digits].
  rewrite !decimal_value_ascii by assumption. reflexivity.
Qed.

(** The time line [to_srt] writes matches the pattern of [from_srt],
    and its fields read back as the two times. *)
Lemma srt_time_line_parses (seg : ASRDataSeg) :
  srt_time_ok (start_time seg) -> srt_time_ok (end_time seg) ->
  exists m,
    re_match srt_time_pattern (to_srt_ts seg) = Some m
    /\ time_of_parts (int_of_group (group 1 m)) (int_of_group (group 2 m))
                     (int_of_group (group 3 m)) (int_of_group (group 4 m))
       = start_time seg
    /\ time_of_parts (int_of_group (group 5 m)) (int_of_group (group 6 m))
                     (int_of_group (group 7 m)) (int_of_group (group 8 m))
       = end_time seg.
Proof.
  intros Hs He. unfold to_srt_ts.
  destruct (ms_to_srt_time_shape _ Hs)
    as (d1 & d2 & d3 & d4 & d5 & d6 & d7 & d8 & d9 & -> & Hd & Hdv).
  destruct (ms_to_srt_time_shape _ He)
    as (e1 & e2 & e3 & e4 & e5 & e6 & e7 & e8 & e9 & -> & Hf & Hev).
  change (u " --> ") with [32; 45; 45; 62; 32]. cbn [app].
  unfold re_match, srt_time_pattern. change (u "-->") with [45; 45; 62].
  cbn [exec]. rewrite (exec_srt_time _ 0) by (assumption || reflexivity).
  cbn [exec Lit is_char Z.eqb Pos.eqb]. change (isspace 32) with true. cbn iota.
  rewrite (exec_srt_time _ 4) by (assumption || reflexivity).
  eexists. split; [reflexivity|].
  unfold group. cbn [m_groups lookup_group Nat.eqb Nat.add].
  repeat match goal with
         | H : Forall _ (_ :: _) |- _ => inversion H; clear H; subst
         end.
  rewrite !int_of_group_2, !int_of_group_3 by assumption.
  split; assumption.
Qed.

Lemma ascii_digit_clean (c : Z) :
  ascii_digit c -> is_linebreak c = false /\ isspace c = false.
Proof.
  unfold ascii_digit, is_linebreak, isspace. intros H. split; range_goal;
    repeat match goal with
           | |- _ \/ _ => first [left; apply Z.leb_gt; lia | right]
           | |- (_ <=? _) = false => apply Z.leb_gt; lia
           end.
Qed.

Lemma digits_clean_line (ds : str) :
  ds <> [] -> Forall ascii_digit ds -> clean_line ds.
Proof.
  intros Hne Hd. split.
  - unfold single_line. eapply Forall_impl; [|exact Hd].
    intros c Hc. now apply ascii_digit_clean.
  - destruct ds as [|c ds]; [congruence|]. exists c. split; [now left|].
    inversion Hd; subst. now apply ascii_digit_clean.
Qed.

Lemma str_of_int_clean (n : Z) : 0 <= n -> clean_line (str_of_int n).
Proof.
  intros Hn. destruct (str_of_int_digits n Hn) as (ds & -> & Hne & Hd & _).
  now apply digits_clean_line.
Qed.

Lemma to_srt_ts_clean (seg : ASRDataSeg) :
  srt_time_ok (start_time seg) -> srt_time_ok (end_time seg) ->
  clean_line (to_srt_ts seg).
Proof.
  intros Hs He. unfold to_srt_ts.
  destruct (ms_to_srt_time_shape _ Hs)
    as (d1 & d2 & d3 & d4 & d5 & d6 & d7 & d8 & d9 & -> & Hd & _).
  destruct (ms_to_srt_time_shape _ He)
    as (e1 & e2 & e3 & e4 & e5 & e6 & e7 & e8 & e9 & -> & Hf & _).
  change (u " --> ") with [32; 45; 45; 62; 32]. cbn [app].
  repeat match goal with
         | H : Forall _ (_ :: _) |- _ => inversion H; clear H; subst
         end.
  split.
  - unfold single_line.
    repeat (constructor; [first [reflexivity | now apply ascii_digit_clean]|]).
    constructor.
  - exists d1. split; [now left | now apply ascii_digit_clean].
Qed.

(** *** Blocks *)

Lemma srt_block_segment_of_lines (flag : bool) (lines : list str) (seg : ASRDataSeg) :
  block_of lines seg ->
  exists tr,
    srt_block_segment flag (join [NL] lines)
    = [mkSeg (text seg) tr (start_time seg) (end_time seg)].
Proof.
  intros ((n & more & ->) & Hclean & Hs & He).
  unfold srt_block_segment. rewrite splitlines_join by assumption.
  destruct (srt_time_line_parses seg Hs He) as (m & Hm & Hstart & Hend).
  rewrite Hm. cbv zeta beta. rewrite Hstart, Hend.
  destruct flag; [destruct more|]; eexists; reflexivity.
Qed.

Lemma srt_blocks_segments (flag : bool) (blocks : list (list str))
      (segs : list ASRDataSeg) :
  Forall2 block_of blocks segs ->
  map text_and_times (flat_map (srt_block_segment flag) (map (join [NL]) blocks))
  = map text_and_times segs.
Proof.
  induction 1 as [|lines seg blocks segs Hb Hbs IH]; [reflexivity|].
  cbn [map flat_map]. destruct (srt_block_segment_of_lines flag lines seg Hb) as (tr & ->).
  cbn [app map]. rewrite IH. reflexivity.
Qed.

Lemma srt_lines_block_of (n : Z) (seg : ASRDataSeg) :
  0 <= n -> strip (text seg) <> [] -> srt_roundtrippable seg ->
  block_of (srt_lines (n, seg)) seg
  /\ block_of (map_last rstrip (srt_lines (n, seg))) seg.
Proof.
  intros Hn Hnb (Hsl & Hrs & Htr & Hs & He).
  assert (Hn' : clean_line (str_of_int n)) by now apply str_of_int_clean.
  assert (Hts : clean_line (to_srt_ts seg)) by now apply to_srt_ts_clean.
  assert (Htx : clean_line (text seg)).
  { split; [assumption | now apply strip_nonempty_iff]. }
  unfold srt_lines. cbn [fst snd].
  destruct Htr as [Htr | Htr].
  - rewrite Htr. cbn [is_empty app map_last]. rewrite Hrs.
    split; (split; [eexists _, _; reflexivity|]);
      (split; [|split; assumption]);
      repeat (apply Forall_cons; [assumption|]); apply Forall_nil.
  - destruct (translated_text seg) as [|c tr] eqn:E.
    + destruct Htr as [_ (c & [] & _)].
    + cbn [is_empty app map_last].
      assert (Htr' : clean_line (rstrip (c :: tr))) by now apply clean_line_rstrip.
      split; (split; [eexists _, _; reflexivity|]);
        (split; [|split; assumption]);
        repeat (apply Forall_cons; [assumption|]); apply Forall_nil.
Qed.

Lemma block_of_clean (lines : list str) (seg : ASRDataSeg) :
  block_of lines seg -> lines <> [] /\ Forall clean_line lines.
Proof.
  intros ((n & more & ->) & Hc & _). split; [discriminate | assumption].
Qed.

Lemma srt_blocks_of (segs : list ASRDataSeg) :
  forall n : Z,
    0 <= n -> all_nonblank segs -> Forall srt_roundtrippable segs ->
    Forall2 block_of (map srt_lines (enumerate n segs)) segs
    /\ Forall2 block_of
               (map_last (map_last rstrip) (map srt_lines (enumerate n segs))) segs.
Proof.
  induction segs as [|x segs IH]; intros n Hn Hnb Hok.
  - split; constructor.
  - inversion Hnb as [|? ? Hx Hnb']; subst. inversion Hok as [|? ? Hx' Hok']; subst.
    destruct (srt_lines_block_of n x Hn Hx Hx') as [H1 H2].
    destruct (IH (n + 1) ltac:(lia) Hnb' Hok') as [IH1 IH2].
    cbn [enumerate map]. split; [now constructor|].
    destruct segs as [|y segs].
    + cbn [enumerate map map_last]. now constructor.
    + cbn [enumerate map] in *. rewrite map_last_cons2. now constructor.
Qed.

Lemma Forall_last {A : Type} (P : A -> Prop) (l : list A) (d : A) :
  l <> [] -> Forall P l -> P (last l d).
Proof.
  induction l as [|x l IH]; intros Hne H; [congruence|].
  inversion H; subst. destruct l as [|y l]; [assumption|].
  apply IH; [discriminate | assumption].
Qed.

Lemma map_last_map {A B : Type} (f : B -> B) (g : A -> B) (h : A -> A) (l : list A) :
  (forall x, In x l -> f (g x) = g (h x)) ->
  map_last f (map g l) = map g (map_last h l).
Proof.
  induction l as [|x l IH]; intros H; [reflexivity|].
  destruct l as [|y l].
  - cbn [map map_last]. rewrite H by now left. reflexivity.
  - cbn [map] in *. rewrite !map_last_cons2. cbn [map]. rewrite IH; [reflexivity|].
    intros z Hz. apply H. now right.
Qed.

(** Trimming the joined blocks on the right trims the last line of the
    last block. *)
Lemma rstrip_blocks (blocks : list (list str)) :
  blocks <> [] ->
  Forall (fun lines => lines <> [] /\ Forall clean_line lines) blocks ->
  rstrip (join [NL; NL] (map (join [NL]) blocks))
  = join [NL; NL] (map (join [NL]) (map_last (map_last rstrip) blocks)).
Proof.
  intros Hne Hgood.
  assert (Hline : forall b, In b blocks -> has_nonspace (last b [])).
  { intros b Hb. rewrite Forall_forall in Hgood. destruct (Hgood b Hb) as [Hbne Hbc].
    apply (Forall_last (fun l => has_nonspace l) b []); [assumption|].
    eapply Forall_impl; [|exact Hbc]. now intros l [_ Hl]. }
  rewrite rstrip_join.
  - f_equal. apply map_last_map. intros b Hb. apply rstrip_join, Hline, Hb.
  - apply (Forall_last has_nonspace (map (join [NL]) blocks) []).
    + destruct blocks; [congruence | discriminate].
    + apply Forall_map. apply Forall_forall. intros b Hb.
      apply has_nonspace_join_last, Hline, Hb.
Qed.

Lemma srt_entry_lines (ns : Z * ASRDataSeg) :
  srt_entry layout_original_on_top ns = join [NL] (srt_lines ns) ++ [NL].
Proof.
  destruct ns as [n seg]. unfold srt_entry, srt_lines, layout_text. cbn [fst snd].
  rewrite str_eqb_refl.
  destruct (is_empty (translated_text seg)); cbn [app join];
    repeat first [rewrite <- app_assoc | progress cbn [app]]; reflexivity.
Qed.

Lemma to_srt_blocks (d : ASRData) :
  segments d <> [] ->
  to_srt layout_original_on_top d
  = join [NL; NL] (map (join [NL]) (map srt_lines (enumerate 1 (segments d)))) ++ [NL].
Proof.
  intros Hne. unfold to_srt.
  rewrite (map_ext _ _ srt_entry_lines).
  rewrite join_map_suffix.
  - now rewrite map_map.
  - destruct (segments d); [congruence | discriminate].
Qed.

Lemma text_and_times_text (l l' : list ASRDataSeg) :
  map text_and_times l = map text_and_times l' ->
  map text l = map text l' /\ map start_time l = map start_time l'.
Proof.
  intros H. split.
  - apply (f_equal (map (fun p : str * Z * Z => fst (fst p)))) in H.
    now rewrite !map_map in H.
  - apply (f_equal (map (fun p : str * Z * Z => snd (fst p)))) in H.
    now rewrite !map_map in H.
Qed.

(** C5, amended. For every document that is sorted by start time, whose
    original texts are non-blank single lines that do not end in white
    space, whose translated texts are empty or non-blank single lines,
    and whose times lie in [0, 100 h): [from_srt] applied to the result
    of [to_srt] (default layout) yields a document with the same ordered
    sequence of original texts, start times and end times, whether or
    not the bilingual pattern is triggered. *)
Theorem to_srt_from_srt_roundtrip (d : ASRData) :
  doc_invariant d ->
  Forall srt_roundtrippable (segments d) ->
  map text_and_times (segments (from_srt (to_srt layout_original_on_top d)))
  = map text_and_times (segments d).
Proof.
  intros [Hsorted Hnb] Hok.
  destruct (segments d) as [|x l] eqn:E.
  { unfold to_srt. rewrite E. reflexivity. }
  rewrite to_srt_blocks by (rewrite E; discriminate). rewrite E.
  destruct (srt_blocks_of (x :: l) 1 ltac:(lia) Hnb Hok) as [Hblocks Hblocks'].
  set (blocks := map srt_lines (enumerate 1 (x :: l))) in *.
  assert (Hgood : Forall (fun lines => lines <> [] /\ Forall clean_line lines) blocks).
  { clear - Hblocks. induction Hblocks; constructor; eauto using block_of_clean. }
  assert (Hstrip : strip (join [NL; NL] (map (join [NL]) blocks) ++ [NL])
                   = join [NL; NL]
                          (map (join [NL]) (map_last (map_last rstrip) blocks))).
  { unfold strip.
    assert (Hl : lstrip (join [NL; NL] (map (join [NL]) blocks) ++ [NL])
                 = join [NL; NL] (map (join [NL]) blocks) ++ [NL]).
    { assert (Hhead : exists r,
                 join [NL; NL] (map (join [NL]) blocks) ++ [NL] = 49 :: r).
      { unfold blocks. cbn [enumerate map].
        destruct (join_first_line [NL; NL] (join [NL] (srt_lines (1, x)))
                    (map (join [NL]) (map srt_lines (enumerate (1 + 1) l))))
          as (r & ->).
        unfold srt_lines. cbn [fst app].
        destruct (join_first_line [NL] (str_of_int 1)
                    (to_srt_ts (snd (1, x)) :: text (snd (1, x))
                       :: (if is_empty (translated_text (snd (1, x))) then []
                           else [translated_text (snd (1, x))]))) as (r' & ->).
        change (str_of_int 1) with [49]. eexists. reflexivity. }
      destruct Hhead as (r & ->). reflexivity. }
    rewrite Hl, rstrip_snoc_space by reflexivity.
    apply rstrip_blocks; [|assumption].
    unfold blocks. discriminate. }
  unfold from_srt. rewrite Hstrip.
  set (flag := srt_has_translation _). clearbody flag.
  set (blocks' := map_last (map_last rstrip) blocks) in *.
  assert (Hsplit : re_split srt_block_separator (join [NL; NL] (map (join [NL]) blocks'))
                   = map (join [NL]) blocks').
  { inversion Hblocks' as [|b seg bs segs Hb Hbs Eb Es]; subst.
    unfold re_split. rewrite re_split_blocks.
    - reflexivity.
    - clear - Hbs. induction Hbs; constructor; eauto using block_of_clean.
    - apply (block_of_clean _ _ Hb). }
  rewrite Hsplit.
  pose proof (srt_blocks_segments flag blocks' (x :: l) Hblocks') as Hres.
  set (res := flat_map (srt_block_segment flag) (map (join [NL]) blocks')) in *.
  destruct (text_and_times_text _ _ Hres) as [Htext Hstart].
  assert (Hinv : doc_invariant (mkData res)).
  { split; cbn [segments].
    - now apply (sorted_same_start (x :: l)).
    - now apply (all_nonblank_same_text (x :: l)). }
  change (ASRData_init res) with (ASRData_init (segments (mkData res))).
  rewrite (ASRData_init_id _ Hinv). exact Hres.
Qed.

Lemma bilingual_doc_invariant : doc_invariant bilingual_doc.
Proof.
  split.
  - repeat constructor; unfold start_le; simpl; lia.
  - repeat constructor; vm_compute; discriminate.
Defined.

Lemma bilingual_doc_roundtrippable :
  Forall srt_roundtrippable (segments bilingual_doc).
Proof.
  assert (Hline : forall s, forallb (fun c => negb (is_linebreak c)) s = true ->
                            single_line s).
  { intros s H. unfold single_line. apply Forall_forall. intros c Hc.
    rewrite forallb_forall in H. specialize (H c Hc).
    now destruct (is_linebreak c). }
  assert (Hclean : forall s c, forallb (fun c => negb (is_linebreak c)) s = true ->
                                In c s -> isspace c = false -> clean_line s).
  { intros s c H Hc Hs. split; [now apply Hline | now exists c]. }
  change (segments bilingual_doc)
    with [mkSeg (u "hello world") (u "bonjour le monde") 0 1000;
          mkSeg (u "good bye now") [] 1200 3723004].
  apply Forall_cons; [|apply Forall_cons; [|apply Forall_nil]];
    unfold srt_roundtrippable, srt_time_ok;
    cbn [text translated_text start_time end_time].
  - split; [apply Hline; reflexivity|]. split; [reflexivity|].
    split; [|lia]. right. apply (Hclean _ 98); [reflexivity | now left | reflexivity].
  - split; [apply Hline; reflexivity|]. split; [reflexivity|].
    split; [|lia]. left. reflexivity.
Defined.

Lemma to_srt_from_srt_roundtrip_witness :
  doc_invariant bilingual_doc
  /\ Forall srt_roundtrippable (segments bilingual_doc)
  /\ map text_and_times
         (segments (from_srt (to_srt layout_original_on_top bilingual_doc)))
     = map text_and_times (segments bilingual_doc).
Proof.
  split; [exact bilingual_doc_invariant|].
  split; [exact bilingual_doc_roundtrippable|].
  apply (to_srt_from_srt_roundtrip bilingual_doc).
  - exact bilingual_doc_invariant.
  - exact bilingual_doc_roundtrippable.
Defined.

(** ** What [remove_punctuation] keeps *)

(** Substitution removes matched text only, and matched text is made of
    characters of the pattern's sets: any other character stays. *)
Lemma re_sub_aux_keeps (P : Z -> Prop) (r : regex) (repl : str) (c : Z) :
  within P r -> ~ P c ->
  forall (s : str) (skip : nat),
    Forall P (firstn skip s) -> In c s -> In c (re_sub_aux r repl s skip).
Proof.
  intros Hin Hc. induction s as [|x tl IH]; intros skip Hskip Hcs; [destruct Hcs|].
  cbn [re_sub_aux]. destruct skip as [|n].
  - destruct (re_match r (x :: tl)) as [m|] eqn:Em.
    + destruct (m_text m) as [|c0 w] eqn:Et.
      * destruct Hcs as [->|Hcs]; [now left|]. right. apply IH; [constructor | assumption].
      * destruct (re_match_sound P r _ _ Hin Em) as [Hs Hw]. rewrite Et in Hs, Hw.
        cbn [app] in Hs. injection Hs as <- ->. inversion Hw; subst.
        destruct Hcs as [->|Hcs]; [contradiction|].
        apply in_or_app. right. apply IH; [|assumption].
        cbn [length]. rewrite Nat.sub_succ, Nat.sub_0_r.
        rewrite firstn_app, Nat.sub_diag, firstn_all. cbn [firstn].
        now rewrite app_nil_r.
    + destruct Hcs as [->|Hcs]; [now left|]. right. apply IH; [constructor | assumption].
  - cbn [firstn] in Hskip. inversion Hskip; subst.
    destruct Hcs as [->|Hcs]; [contradiction|]. now apply IH.
Qed.

Lemma punctuation_pattern_within :
  within (fun c => cs_punctuation c = true) punctuation_pattern.
Proof.
  unfold punctuation_pattern, Plus. cbn [within].
  split; [split|]; auto.
Qed.

Lemma strip_keeps (s : str) (c : Z) :
  In c s -> isspace c = false -> In c (strip s).
Proof.
  intros Hin Hc. unfold strip, rstrip. apply in_rev. rewrite rev_involutive.
  apply lstrip_keeps; [|assumption]. apply -> in_rev. now apply lstrip_keeps.
Qed.

Lemma remove_punctuation_nonblank (d : ASRData) :
  Forall (fun seg => has_word_char (text seg)) (segments d) ->
  all_nonblank (segments (remove_punctuation d)).
Proof.
  intros H. unfold remove_punctuation, all_nonblank. cbn [segments].
  apply Forall_map. eapply Forall_impl; [|exact H].
  intros seg (c & Hin & Hs & Hp). cbn [text].
  apply strip_nonempty_iff. exists c. split; [|assumption].
  unfold re_sub.
  apply (re_sub_aux_keeps _ _ _ _ punctuation_pattern_within);
    [congruence | constructor | now apply strip_keeps].
Qed.

(** ** Word durations are never negative *)

Lemma not_negative_round_aux (mx ex : Z) (lx : location) :
  not_negative (binary_round_aux prec emax false mx ex lx).
Proof.
  unfold binary_round_aux.
  destruct (shr_fexp prec emax mx ex lx) as [mrs' e'].
  destruct (shr_fexp prec emax _ e' loc_Exact) as [mrs'' e''].
  destruct (shr_m mrs''); [|destruct (_ <=? _)|]; simpl; auto.
Qed.

Lemma not_negative_round (m : positive) (e : Z) :
  not_negative (binary_round prec emax false m e).
Proof.
  unfold binary_round. destruct (shl_align _ _ _). apply not_negative_round_aux.
Qed.

Lemma not_negative_normalize (z : Z) :
  0 <= z -> not_negative (binary_normalize prec emax z 0 false).
Proof.
  intros Hz. destruct z; simpl; auto; [apply not_negative_round | lia].
Qed.

Lemma not_negative_mul (x y : spec_float) :
  not_negative x -> not_negative y -> not_negative (SF64mul x y).
Proof.
  unfold SF64mul, SFmul. destruct x, y; simpl; intros; subst; auto;
    apply not_negative_round_aux.
Qed.

Lemma not_negative_div (x y : spec_float) :
  not_negative x -> not_negative y -> not_negative (SF64div x y).
Proof.
  unfold SF64div, SFdiv. destruct x, y; simpl; intros; subst; auto.
  destruct (SFdiv_core_binary _ _ _ _ _ _) as [[mz ez] lz].
  apply not_negative_round_aux.
Qed.

Lemma not_negative_ldexp (x : spec_float) (e : Z) :
  not_negative x -> not_negative (SFldexp prec emax x e).
Proof.
  destruct x; simpl; auto. intros ->. apply not_negative_round.
Qed.

Lemma not_negative_float_of_int (z : Z) :
  0 <= z -> not_negative (Prim2SF (float_of_int z)).
Proof.
  intros Hz. unfold float_of_int.
  pose proof (not_negative_normalize z Hz) as H.
  destruct (binary_normalize prec emax z 0 false) as [s|s| |s m e]; simpl in H; subst.
  - reflexivity.
  - reflexivity.
  - reflexivity.
  - unfold SF2Prim. unfold Z.ldexp. rewrite ldshiftexp_spec.
    apply not_negative_ldexp. rewrite of_uint63_spec.
    apply not_negative_normalize. apply Uint63.to_Z_bounded.
Qed.

Lemma int_of_float_nonneg (f : float) :
  not_negative (Prim2SF f) -> 0 <= int_of_float f.
Proof.
  unfold int_of_float. destruct (Prim2SF f) as [s|s| |s m e];
    intros H; cbn [not_negative] in H; try lia.
  subst s. destruct e as [|p|p].
  - lia.
  - apply Z.mul_nonneg_nonneg; [lia|]. apply Z.pow_nonneg. lia.
  - apply Z.div_pos; [lia|]. apply Z.pow_pos_nonneg; lia.
Qed.

Lemma phonemes_nonneg (w : str) : 0 <= phonemes w.
Proof.
  unfold phonemes, ceil_div, CHARS_PER_PHONEME.
  pose proof (Z.div_mod (- Z.of_nat (length w)) 4 ltac:(lia)).
  pose proof (Z.mod_pos_bound (- Z.of_nat (length w)) 4 ltac:(lia)). lia.
Qed.

(** ** Word segmentation of segments that do not overlap *)

Lemma spaced_between_weaken (lo lo' hi : Z) (l : list ASRDataSeg) :
  lo' <= lo -> spaced_between lo hi l -> spaced_between lo' hi l.
Proof.
  destruct l as [|a l]; simpl; intros H; [lia|].
  intros (H1 & H2 & H3). repeat split; [lia | assumption | assumption].
Qed.

Lemma spaced_between_app (a b : list ASRDataSeg) :
  forall lo mid hi,
    spaced_between lo mid a -> spaced_between mid hi b ->
    spaced_between lo hi (a ++ b).
Proof.
  induction a as [|x a IH]; simpl; intros lo mid hi Ha Hb.
  - now apply (spaced_between_weaken mid).
  - destruct Ha as (H1 & H2 & H3). repeat split; [assumption | assumption |].
    now apply (IH _ mid).
Qed.

Lemma word_segments_spaced (tpp : float) (seg_end : Z) (words : list str) :
  not_negative (Prim2SF tpp) ->
  forall cur, cur <= seg_end ->
              spaced_between cur seg_end (word_segments tpp seg_end words cur).
Proof.
  intros Htpp. induction words as [|w words IH]; intros cur Hcur; simpl; [assumption|].
  assert (Hd : 0 <= int_of_float (PrimFloat.mul tpp (float_of_int (phonemes w)))).
  { apply int_of_float_nonneg. rewrite mul_spec.
    apply not_negative_mul; [assumption|].
    apply not_negative_float_of_int, phonemes_nonneg. }
  repeat split; [lia | lia |]. apply IH. lia.
Qed.

Lemma split_segment_spaced (seg : ASRDataSeg) :
  start_time seg <= end_time seg ->
  spaced_between (start_time seg) (end_time seg) (split_segment seg).
Proof.
  intros H. unfold split_segment.
  destruct (map m_text (re_finditer word_pattern (text seg))) as [|w ws]; [exact H|].
  apply word_segments_spaced; [|assumption].
  unfold true_div. rewrite div_spec.
  apply not_negative_div; apply not_negative_float_of_int; lia.
Qed.

Lemma split_spaced (segs : list ASRDataSeg) :
  forall lo hi,
    spaced_between lo hi segs ->
    spaced_between lo hi (flat_map split_segment segs).
Proof.
  induction segs as [|a segs IH]; intros lo hi H; [exact H|].
  destruct H as (H1 & H2 & H3). cbn [flat_map].
  apply (spaced_between_app _ _ lo (end_time a) hi).
  - apply (spaced_between_weaken (start_time a)); [assumption|].
    now apply split_segment_spaced.
  - now apply IH.
Qed.

Lemma well_spaced_between (l : list ASRDataSeg) :
  forall a, well_spaced (a :: l) ->
            exists hi, spaced_between (start_time a) hi (a :: l).
Proof.
  induction l as [|b l IH]; intros a H.
  - exists (end_time a). destruct H as [H1 _].
    pose proof (H1 0%nat a eq_refl). simpl. lia.
  - destruct (IH b (well_spaced_tail _ _ H)) as (hi & Hhi).
    exists hi. destruct H as [H1 H2].
    pose proof (H1 0%nat a eq_refl). pose proof (H2 0%nat a b eq_refl eq_refl).
    change (start_time a <= start_time a /\ start_time a <= end_time a
            /\ spaced_between (end_time a) hi (b :: l)).
    split; [lia|]. split; [lia|].
    now apply (spaced_between_weaken (start_time b)).
Qed.

Lemma spaced_between_sorted (l : list ASRDataSeg) :
  forall lo hi, spaced_between lo hi l -> sorted_by_start l.
Proof.
  unfold sorted_by_start. induction l as [|a l IH]; intros lo hi H; constructor.
  - destruct H as (_ & _ & H). now apply (IH _ _ H).
  - destruct l as [|b l]; constructor.
    destruct H as (_ & H2 & H3 & _). unfold start_le. lia.
Qed.

Lemma split_to_word_segments_sorted (d : ASRData) :
  well_spaced (segments d) ->
  sorted_by_start (segments (split_to_word_segments d)).
Proof.
  intros H. unfold split_to_word_segments. cbn [segments].
  destruct (segments d) as [|a l]; [constructor|].
  destruct (well_spaced_between l a H) as (hi & Hhi).
  apply (spaced_between_sorted _ (start_time a) hi). now apply split_spaced.
Qed.

(** ** The invariant under the operations *)

(** C2 as stated fails: [remove_punctuation] leaves an empty text
    behind, [optimize_timing] and [split_to_word_segments] leave
    overlapping segments out of order, and [merge_segments] accepts a
    blank merged text. *)
Lemma operations_break_invariant :
  doc_invariant (ASRData_init [mkSeg (u "。") [] 0 1000])
  /\ ~ doc_invariant (remove_punctuation (ASRData_init [mkSeg (u "。") [] 0 1000]))
  /\ doc_invariant overlapping_doc
  /\ ~ doc_invariant (optimize_timing 1000 overlapping_doc)
  /\ ~ doc_invariant (split_to_word_segments overlapping_doc)
  /\ exists d', merge_segments overlapping_doc 0 1 (Some (u " ")) = Ok d'
                /\ ~ doc_invariant d'.
Proof.
  assert (Hunsorted : forall a b c l,
             start_time b > start_time c -> ~ sorted_by_start (a :: b :: c :: l)).
  { intros a b c l Hbc Hs. inversion Hs as [|? ? Hs' _]; subst.
    inversion Hs' as [|? ? _ Hhd]; subst. inversion Hhd; subst.
    unfold start_le in *. lia. }
  assert (Hblank : forall x l, strip (text x) = [] -> ~ all_nonblank (x :: l)).
  { intros x l Hx Hn. inversion Hn; subst. contradiction. }
  split.
  { split; repeat constructor. vm_compute. discriminate. }
  split.
  { intros [_ Hn]. revert Hn. apply Hblank. reflexivity. }
  split.
  { split; repeat constructor; try (unfold start_le; simpl; lia);
      vm_compute; discriminate. }
  split.
  { intros [Hs _]. revert Hs. apply Hunsorted. vm_compute. reflexivity. }
  split.
  { intros [Hs _]. revert Hs.
    assert (E : segments (split_to_word_segments overlapping_doc)
                = [mkSeg (u "one") [] 0 2500; mkSeg (u "two") [] 2500 5000;
                   mkSeg (u "three") [] 100 166; mkSeg (u "four") [] 166 199;
                   mkSeg (u "five") [] 200 250; mkSeg (u "six") [] 250 300])
      by (vm_compute; reflexivity).
    rewrite E. apply Hunsorted. simpl. lia. }
  eexists. split; [vm_compute; reflexivity|].
  intros [_ Hn]. revert Hn. apply Hblank. reflexivity.
Qed.

(** C2, amended. On a document sorted by start time whose texts are
    non-blank: [merge_with_next_segment] keeps the invariant, and so does
    [merge_segments] when the merged text is left out or non-blank;
    [remove_punctuation] keeps the order, and the whole invariant when
    every text has a character that is neither white space nor one of
    the two marks; [optimize_timing] and [split_to_word_segments] leave
    only non-blank texts, and keep the whole invariant when no segment
    overlaps the next one. *)
Theorem operations_keep_invariant (d : ASRData) :
  doc_invariant d ->
  (forall index d', merge_with_next_segment d index = Ok d' -> doc_invariant d')
  /\ (forall start_index end_index merged_text d',
         (forall t, merged_text = Some t -> strip t <> []) ->
         merge_segments d start_index end_index merged_text = Ok d' ->
         doc_invariant d')
  /\ sorted_by_start (segments (remove_punctuation d))
  /\ (Forall (fun seg => has_word_char (text seg)) (segments d) ->
      doc_invariant (remove_punctuation d))
  /\ (forall threshold_ms, all_nonblank (segments (optimize_timing threshold_ms d)))
  /\ (forall threshold_ms,
         well_spaced (segments d) -> doc_invariant (optimize_timing threshold_ms d))
  /\ all_nonblank (segments (split_to_word_segments d))
  /\ (well_spaced (segments d) -> doc_invariant (split_to_word_segments d)).
Proof.
  intros Hinv.
  split. { intros index d'. now apply merge_with_next_segment_invariant. }
  split. { intros start_index end_index merged_text d'.
           now apply merge_segments_invariant. }
  split. { apply remove_punctuation_sorted, Hinv. }
  split. { intros Hw. split.
           - apply remove_punctuation_sorted, Hinv.
           - now apply remove_punctuation_nonblank. }
  split. { intros th. apply optimize_timing_nonblank, Hinv. }
  split. { intros th Hw. split.
           - now apply well_spaced_sorted, optimize_timing_well_spaced.
           - apply optimize_timing_nonblank, Hinv. }
  split. { apply split_to_word_segments_nonblank. }
  intros Hw. split.
  - now apply split_to_word_segments_sorted.
  - apply split_to_word_segments_nonblank.
Qed.

Lemma two_line_doc_well_spaced : well_spaced (segments two_line_doc).
Proof.
  change (segments two_line_doc)
    with [mkSeg (u "hello world") [] 0 1000; mkSeg (u "good bye now") [] 1200 2000].
  split.
  - intros [|[|[|i]]] a H; simpl in H; try discriminate;
      injection H as <-; simpl; lia.
  - intros [|[|[|i]]] a b H H'; simpl in H, H'; try discriminate.
    injection H as <-. injection H' as <-. simpl. lia.
Defined.

Lemma operations_keep_invariant_witness :
  doc_invariant two_line_doc
  /\ (forall index d',
         merge_with_next_segment two_line_doc index = Ok d' -> doc_invariant d')
  /\ sorted_by_start (segments (remove_punctuation two_line_doc))
  /\ doc_invariant (optimize_timing 1000 two_line_doc)
  /\ doc_invariant (split_to_word_segments two_line_doc).
Proof.
  split; [exact two_line_doc_invariant|].
  destruct (operations_keep_invariant two_line_doc two_line_doc_invariant)
    as (H1 & _ & H3 & _ & _ & H6 & _ & H8).
  split; [exact H1|]. split; [exact H3|].
  split; [exact (H6 1000 two_line_doc_well_spaced)
         | exact (H8 two_line_doc_well_spaced)].
Defined.

(** ** The inline markers of a block *)



















(** * Further properties *)

(** * Further properties *)

(** ** What the constructor guarantees *)

Lemma ASRData_init_invariant (segs : list ASRDataSeg) :
  doc_invariant (ASRData_init segs).
Proof.
  unfold ASRData_init. cbn [segments]. split.
  - apply sort_by_start_sorted.
  - unfold all_nonblank. apply Forall_forall. intros seg Hin.
    apply (Permutation_in _ (Permutation_sym (sort_by_start_perm _))) in Hin.
    apply filter_In in Hin. destruct Hin as [_ Hin].
    now apply nonblank_true_iff.
Qed.

Lemma ASRData_init_Forall (P : ASRDataSeg -> Prop) (segs : list ASRDataSeg) :
  Forall P segs -> Forall P (segments (ASRData_init segs)).
Proof.
  intros H. unfold ASRData_init. cbn [segments]. apply Forall_forall.
  intros seg Hin.
  apply (Permutation_in _ (Permutation_sym (sort_by_start_perm _))) in Hin.
  apply filter_In in Hin. destruct Hin as [Hin _].
  exact (proj1 (Forall_forall _ _) H seg Hin).
Qed.

Lemma ASRData_init_nil (segs : list ASRDataSeg) :
  Forall (fun seg => nonblank (text seg) = false) segs ->
  ASRData_init segs = mkData [].
Proof.
  intros H. unfold ASRData_init.
  replace (filter (fun seg => nonblank (text seg)) segs) with (@nil ASRDataSeg);
    [reflexivity|].
  induction H as [|seg l Hseg Hl IH]; [reflexivity|].
  cbn [filter]. now rewrite Hseg.
Qed.

(** ** Layouts of the text serializers *)

Lemma layout_text_unrecognized (layout : str) (seg : ASRDataSeg) :
  recognized_layout layout = false -> layout_text layout seg = text seg.
Proof.
  unfold recognized_layout, layout_text. intros H.
  apply orb_false_iff in H. destruct H as [H H4].
  apply orb_false_iff in H. destruct H as [H H3].
  apply orb_false_iff in H. destruct H as [H1 H2].
  now rewrite H1, H2, H3, H4.
Qed.

Lemma layout_text_untranslated (layout : str) (seg : ASRDataSeg) :
  translated_text seg = [] -> layout_text layout seg = text seg.
Proof.
  unfold layout_text. intros ->. cbn [is_empty].
  repeat match goal with |- context [if ?b then _ else _] => destruct b end;
    reflexivity.
Qed.

Lemma layout_text_original_only (seg : ASRDataSeg) :
  layout_text layout_original_only seg = text seg.
Proof. reflexivity. Qed.

Lemma to_txt_by_text (layout : str) (d : ASRData) :
  Forall (fun seg => layout_text layout seg = text seg) (segments d) ->
  to_txt layout d = join [NL] (map text (segments d))
  /\ to_srt layout d = to_srt layout_original_only d.
Proof.
  intros H. unfold to_txt, to_srt. split.
  - f_equal. apply map_ext_in. intros seg Hin.
    now apply (proj1 (Forall_forall _ _) H).
  - f_equal. generalize 1. induction (segments d) as [|seg l IH]; intros n.
    + reflexivity.
    + inversion H as [|? ? Hseg Hl]; subst. cbn [enumerate map].
      rewrite (IH Hl). unfold srt_entry.
      rewrite Hseg. reflexivity.
Qed.

(** X1. With a layout that is none of the four, [to_txt] and [to_srt] write
    what they write for the original-only layout: the original text of
    every segment, translations left out. *)
Theorem text_serializers_unrecognized_layout (layout : str) (d : ASRData) :
  recognized_layout layout = false ->
  to_txt layout d = join [NL] (map text (segments d))
  /\ to_txt layout d = to_txt layout_original_only d
  /\ to_srt layout d = to_srt layout_original_only d.
Proof.
  intros H.
  assert (Hall : Forall (fun seg => layout_text layout seg = text seg) (segments d)).
  { apply Forall_forall. intros seg _. now apply layout_text_unrecognized. }
  destruct (to_txt_by_text layout d Hall) as [H1 H2].
  split; [exact H1|]. split; [|exact H2].
  rewrite H1. unfold to_txt. f_equal.
Qed.

Lemma text_serializers_unrecognized_layout_witness :
  recognized_layout (u "bilingual") = false
  /\ to_txt (u "bilingual") bilingual_doc
     = u "hello world" ++ [NL] ++ u "good bye now"
  /\ to_srt (u "bilingual") bilingual_doc = to_srt layout_original_only bilingual_doc.
Proof.
  split; [reflexivity|].
  destruct (text_serializers_unrecognized_layout (u "bilingual") bilingual_doc
              eq_refl) as (H1 & _ & H3).
  split; [rewrite H1; vm_compute; reflexivity | exact H3].
Defined.

Lemma ass_lines_untranslated (layout : str) (seg : ASRDataSeg) :
  recognized_layout layout = true -> nonblank (translated_text seg) = false ->
  ass_lines layout seg = ass_lines layout_original_only seg.
Proof.
  unfold recognized_layout, ass_lines. intros H Hn.
  destruct (to_ass_ts seg) as [s e]. rewrite Hn.
  change (str_eqb layout_original_only layout_translation_on_top) with false.
  change (str_eqb layout_original_only layout_original_on_top) with false.
  change (str_eqb layout_original_only layout_original_only) with true.
  cbv iota.
  destruct (str_eqb layout layout_translation_on_top); [reflexivity|].
  destruct (str_eqb layout layout_original_on_top); [reflexivity|].
  destruct (str_eqb layout layout_original_only); [reflexivity|].
  destruct (str_eqb layout layout_translation_only); [reflexivity|].
  discriminate.
Qed.

Lemma to_ass_concat (style_str : option str) (layout : str) (d : ASRData) :
  to_ass style_str layout d
  = ass_header match style_str with
               | Some (c :: s) => c :: s
               | _ => default_style_str
               end
    ++ concat (map (ass_lines layout) (segments d)).
Proof.
  unfold to_ass. cbv zeta.
  generalize (ass_header match style_str with
                         | Some (c :: s) => c :: s
                         | _ => default_style_str
                         end).
  induction (segments d) as [|seg l IH]; intros h; cbn [fold_left map concat].
  - now rewrite app_nil_r.
  - rewrite IH, <- app_assoc. reflexivity.
Qed.

(** X2. When no segment has a translation the layout makes no difference:
    [to_txt] and [to_srt] write the original texts under every layout,
    and [to_ass] under every layout it has a branch for. *)
Theorem layout_irrelevant_without_translation
        (layout : str) (style_str : option str) (d : ASRData) :
  Forall (fun seg => translated_text seg = []) (segments d) ->
  to_txt layout d = join [NL] (map text (segments d))
  /\ to_srt layout d = to_srt layout_original_only d
  /\ (recognized_layout layout = true ->
      to_ass style_str layout d = to_ass style_str layout_original_only d).
Proof.
  intros H.
  assert (Hall : Forall (fun seg => layout_text layout seg = text seg) (segments d)).
  { eapply Forall_impl; [|exact H]. intros seg. apply layout_text_untranslated. }
  destruct (to_txt_by_text layout d Hall) as [H1 H2].
  split; [exact H1|]. split; [exact H2|].
  intros Hr. rewrite !to_ass_concat. f_equal. f_equal.
  apply map_ext_in. intros seg Hin. apply ass_lines_untranslated; [assumption|].
  now rewrite (proj1 (Forall_forall _ _) H seg Hin).
Qed.

Lemma layout_irrelevant_without_translation_witness :
  to_txt layout_translation_only two_line_doc
  = u "hello world" ++ [NL] ++ u "good bye now"
  /\ to_srt layout_translation_on_top two_line_doc
     = to_srt layout_original_only two_line_doc
  /\ to_ass None layout_translation_only two_line_doc
     = to_ass None layout_original_only two_line_doc.
Proof.
  assert (H : Forall (fun seg => translated_text seg = []) (segments two_line_doc))
    by (repeat constructor).
  split.
  - rewrite (proj1 (layout_irrelevant_without_translation
                      layout_translation_only None two_line_doc H)).
    vm_compute. reflexivity.
  - split.
    + exact (proj1 (proj2 (layout_irrelevant_without_translation
                             layout_translation_on_top None two_line_doc H))).
    + exact (proj2 (proj2 (layout_irrelevant_without_translation
                             layout_translation_only None two_line_doc H)) eq_refl).
Defined.

(** ** The dictionary of [to_json] *)

Lemma json_items_lookup (segs : list ASRDataSeg) :
  forall (n : Z) (i : nat) (seg : ASRDataSeg),
    0 <= n -> nth_error segs i = Some seg ->
    dict_get (str_of_int (n + Z.of_nat i)) (json_items n segs) = Some (json_of seg).
Proof.
  induction segs as [|x segs IH]; intros n i seg Hn Hi.
  - destruct i; discriminate.
  - change (json_items n (x :: segs))
      with ((str_of_int n, json_of x) :: json_items (n + 1) segs).
    cbn [dict_get]. destruct i as [|i].
    + injection Hi as <-. rewrite Z.add_0_r, str_eqb_refl. reflexivity.
    + rewrite str_eqb_neq.
      * replace (n + Z.of_nat (S i)) with (n + 1 + Z.of_nat i) by lia.
        apply IH; [lia | exact Hi].
      * intros H. apply str_of_int_inj in H; lia.
Qed.

Lemma json_items_missing (segs : list ASRDataSeg) :
  forall (n : Z) (k : str),
    (forall i, (i < length segs)%nat -> k <> str_of_int (n + Z.of_nat i)) ->
    dict_get k (json_items n segs) = None.
Proof.
  induction segs as [|x segs IH]; intros n k Hk; [reflexivity|].
  change (json_items n (x :: segs))
    with ((str_of_int n, json_of x) :: json_items (n + 1) segs).
  cbn [dict_get]. rewrite str_eqb_neq.
  - apply IH. intros i Hi.
    replace (n + 1 + Z.of_nat i) with (n + Z.of_nat (S i)) by lia.
    apply Hk. cbn [length]. lia.
  - intros H. apply (Hk 0%nat); [cbn [length]; lia|].
    now rewrite Z.add_0_r.
Qed.

(** X3. [to_json] stores one record per segment: the record of the segment
    at position [i] (from 0) is found under the key [str(i + 1)], and no
    other key is present. *)
Theorem to_json_lookup (d : ASRData) :
  length (to_json d) = length (segments d)
  /\ (forall (i : nat) (seg : ASRDataSeg),
         nth_error (segments d) i = Some seg ->
         dict_get (str_of_int (Z.of_nat i + 1)) (to_json d) = Some (json_of seg))
  /\ (forall k : str,
         (forall i, (i < length (segments d))%nat -> k <> str_of_int (Z.of_nat i + 1)) ->
         dict_get k (to_json d) = None).
Proof.
  rewrite to_json_items. split; [|split].
  - unfold json_items. rewrite length_map. generalize 1.
    induction (segments d) as [|x l IH]; intros n; cbn [enumerate length]; auto.
  - intros i seg Hi. rewrite Z.add_comm. now apply json_items_lookup.
  - intros k Hk. apply json_items_missing. intros i Hi.
    rewrite Z.add_comm. now apply Hk.
Qed.

Lemma to_json_lookup_witness :
  dict_get (u "2") (to_json two_line_doc)
  = Some (json_of (mkSeg (u "good bye now") [] 1200 2000))
  /\ dict_get (u "3") (to_json two_line_doc) = None.
Proof.
  destruct (to_json_lookup two_line_doc) as (_ & Hin & Hout). split.
  - exact (Hin 1%nat _ eq_refl).
  - apply Hout. intros i Hi.
    destruct i as [|[|i]]; [vm_compute; discriminate | vm_compute; discriminate |].
    cbn in Hi. lia.
Defined.

(** X4. Reading back what [to_json] wrote never fails, whatever the
    document: the result is the document the constructor builds from the
    same segments, it satisfies the invariant, and a second round trip
    leaves it as it is. *)
Theorem from_json_to_json_normalizes (d : ASRData) :
  from_json (to_json d) = Ok (ASRData_init (segments d))
  /\ doc_invariant (ASRData_init (segments d))
  /\ from_json (to_json (ASRData_init (segments d)))
     = Ok (ASRData_init (segments d)).
Proof.
  assert (Hinv : doc_invariant (ASRData_init (segments d)))
    by apply ASRData_init_invariant.
  split; [apply from_json_to_json|]. split; [exact Hinv|].
  rewrite from_json_to_json. f_equal. now apply ASRData_init_id.
Qed.

(** ** Merging: what the result is *)

Lemma nth_error_middle {A : Type} (pre : list A) (x : A) (post : list A) :
  nth_error (pre ++ x :: post) (length pre) = Some x.
Proof. induction pre; simpl; auto. Qed.

(** X5. [merge_with_next_segment] succeeds exactly for
    [0 <= index < len(segments) - 1]; it then does what [merge_segments]
    does for the range [index .. index + 1] with the two texts joined by
    a space: the two segments give way to one that runs from the start
    of the first to the end of the second and has no translation.
    Outside that range both raise [IndexError]. *)
Theorem merge_with_next_segment_as_merge_segments (d : ASRData) (index : Z) :
  (0 <= index < Z.of_nat (length (segments d)) - 1 ->
   exists a b,
     nth_error (segments d) (Z.to_nat index) = Some a
     /\ nth_error (segments d) (S (Z.to_nat index)) = Some b
     /\ merge_with_next_segment d index
        = Ok (mkData (firstn (Z.to_nat index) (segments d)
                        ++ mkSeg (text a ++ u " " ++ text b) []
                                 (start_time a) (end_time b)
                        :: skipn (S (S (Z.to_nat index))) (segments d)))
     /\ merge_with_next_segment d index
        = merge_segments d index (index + 1) (Some (text a ++ u " " ++ text b)))
  /\ (~ (0 <= index < Z.of_nat (length (segments d)) - 1) ->
      merge_with_next_segment d index = Raise IndexError
      /\ forall merged_text,
           merge_segments d index (index + 1) merged_text = Raise IndexError).
Proof.
  split.
  - intros Hr.
    destruct (nth_error (segments d) (Z.to_nat index)) as [a|] eqn:Na.
    2:{ apply nth_error_None in Na. lia. }
    destruct (nth_error (segments d) (S (Z.to_nat index))) as [b|] eqn:Nb.
    2:{ apply nth_error_None in Nb. lia. }
    exists a, b. split; [reflexivity|]. split; [reflexivity|].
    assert (E : merge_with_next_segment d index
                = Ok (mkData (firstn (Z.to_nat index) (segments d)
                        ++ mkSeg (text a ++ u " " ++ text b) []
                                 (start_time a) (end_time b)
                        :: skipn (S (S (Z.to_nat index))) (segments d)))).
    { unfold merge_with_next_segment. cbv zeta.
      replace (index <? 0) with false by (symmetry; apply Z.ltb_ge; lia).
      replace (index >=? Z.of_nat (length (segments d)) - 1) with false
        by (symmetry; rewrite Z.geb_leb; apply Z.leb_gt; lia).
      cbn [orb]. now rewrite Na, Nb. }
    split; [exact E|]. rewrite E.
    unfold merge_segments. cbv zeta.
    replace (index <? 0) with false by (symmetry; apply Z.ltb_ge; lia).
    replace (index + 1 >=? Z.of_nat (length (segments d))) with false
      by (symmetry; rewrite Z.geb_leb; apply Z.leb_gt; lia).
    replace (index >? index + 1) with false
      by (symmetry; rewrite Z.gtb_ltb; apply Z.ltb_ge; lia).
    cbn [orb].
    replace (Z.to_nat (index + 1)) with (S (Z.to_nat index)) by lia.
    now rewrite Na, Nb.
  - intros Hr. split.
    + unfold merge_with_next_segment. cbv zeta.
      destruct (index <? 0) eqn:E1; [reflexivity|].
      destruct (index >=? Z.of_nat (length (segments d)) - 1) eqn:E2; [reflexivity|].
      apply Z.ltb_ge in E1. rewrite Z.geb_leb in E2. apply Z.leb_gt in E2. lia.
    + intros merged_text. unfold merge_segments. cbv zeta.
      destruct (index <? 0) eqn:E1; [reflexivity|].
      destruct (index + 1 >=? Z.of_nat (length (segments d))) eqn:E2; [reflexivity|].
      apply Z.ltb_ge in E1. rewrite Z.geb_leb in E2. apply Z.leb_gt in E2. lia.
Qed.

Lemma merge_with_next_segment_as_merge_segments_witness :
  (exists a b,
      nth_error (segments two_line_doc) 0 = Some a
      /\ nth_error (segments two_line_doc) 1 = Some b
      /\ merge_with_next_segment two_line_doc 0
         = Ok (mkData [mkSeg (text a ++ u " " ++ text b) [] (start_time a) (end_time b)])
      /\ merge_with_next_segment two_line_doc 0
         = merge_segments two_line_doc 0 1 (Some (text a ++ u " " ++ text b)))
  /\ merge_with_next_segment two_line_doc 1 = Raise IndexError.
Proof.
  split.
  - apply (proj1 (merge_with_next_segment_as_merge_segments two_line_doc 0)).
    cbn. lia.
  - apply (proj2 (merge_with_next_segment_as_merge_segments two_line_doc 1)).
    cbn. lia.
Defined.

(** X6. A successful [merge_segments] leaves the segments in front of the
    range and behind it as they were and puts one segment in place of
    the range: it starts where the first of the range started, ends
    where the last ended, has no translation, and carries the given
    text or, when none is given, the texts of the range one after the
    other with nothing in between. *)
Theorem merge_segments_result
        (d d' : ASRData) (start_index end_index : Z) (merged_text : option str) :
  merge_segments d start_index end_index merged_text = Ok d' ->
  exists first last,
    nth_error (segments d) (Z.to_nat start_index) = Some first
    /\ nth_error (segments d) (Z.to_nat end_index) = Some last
    /\ segments d'
       = firstn (Z.to_nat start_index) (segments d)
         ++ mkSeg match merged_text with
                  | Some t => t
                  | None =>
                      concat (map text
                                  (firstn (S (Z.to_nat end_index) - Z.to_nat start_index)
                                          (skipn (Z.to_nat start_index) (segments d))))
                  end
                  [] (start_time first) (end_time last)
         :: skipn (S (Z.to_nat end_index)) (segments d)
    /\ (length (segments d')
        = length (segments d) - (Z.to_nat end_index - Z.to_nat start_index))%nat.
Proof.
  unfold merge_segments. cbv zeta.
  destruct (start_index <? 0) eqn:E1; [discriminate|].
  destruct (end_index >=? Z.of_nat (length (segments d))) eqn:E2; [discriminate|].
  destruct (start_index >? end_index) eqn:E3; [discriminate|].
  apply Z.ltb_ge in E1. rewrite Z.geb_leb in E2. apply Z.leb_gt in E2.
  rewrite Z.gtb_ltb in E3. apply Z.ltb_ge in E3. cbn [orb].
  destruct (nth_error (segments d) (Z.to_nat start_index)) as [first|]; [|discriminate].
  destruct (nth_error (segments d) (Z.to_nat end_index)) as [last|]; [|discriminate].
  intros H. injection H as <-. exists first, last.
  split; [reflexivity|]. split; [reflexivity|]. split; [reflexivity|].
  cbn [segments]. rewrite length_app, length_firstn.
  change (length (?x :: ?l)) with (S (length l)).
  change (match segments d with
          | [] => []
          | _ :: l => skipn (Z.to_nat end_index) l
          end) with (skipn (S (Z.to_nat end_index)) (segments d)).
  rewrite length_skipn. lia.
Qed.

Lemma merge_segments_result_witness :
  merge_segments two_line_doc 0 1 None
  = Ok (mkData [mkSeg (u "hello worldgood bye now") [] 0 2000])
  /\ exists first last,
      nth_error (segments two_line_doc) 0 = Some first
      /\ nth_error (segments two_line_doc) 1 = Some last
      /\ start_time first = 0 /\ end_time last = 2000.
Proof.
  split; [reflexivity|].
  destruct (merge_segments_result two_line_doc _ 0 1 None eq_refl)
    as (first & last & H1 & H2 & _).
  exists first, last. split; [exact H1|]. split; [exact H2|].
  change (nth_error (segments two_line_doc) (Z.to_nat 0))
    with (Some (mkSeg (u "hello world") [] 0 1000)) in H1.
  change (nth_error (segments two_line_doc) (Z.to_nat 1))
    with (Some (mkSeg (u "good bye now") [] 1200 2000)) in H2.
  injection H1 as <-. injection H2 as <-. split; reflexivity.
Defined.

(** ** Timing optimisation: the boundaries *)

Lemma update_nth_middle {A : Type} (f : A -> A) (pre : list A) (x : A) (post : list A) :
  update_nth (length pre) f (pre ++ x :: post) = pre ++ f x :: post.
Proof. induction pre as [|y pre IH]; simpl; [reflexivity | now rewrite IH]. Qed.

(** The loop over the indices is the recursion over the list. *)
Lemma optimize_loop_close_gaps (th : Z) (tl : list ASRDataSeg) :
  forall (a : ASRDataSeg) (pre : list ASRDataSeg),
    fold_left (optimize_step th) (seq (length pre) (length tl)) (pre ++ a :: tl)
    = pre ++ close_gaps_from th a tl.
Proof.
  induction tl as [|b tl IH]; intros a pre; [reflexivity|].
  cbn [length seq fold_left close_gaps_from].
  assert (Na : nth_error (pre ++ a :: b :: tl) (length pre) = Some a)
    by apply nth_error_middle.
  assert (Nb : nth_error (pre ++ a :: b :: tl) (S (length pre)) = Some b).
  { replace (pre ++ a :: b :: tl) with ((pre ++ [a]) ++ b :: tl)
      by (rewrite <- app_assoc; reflexivity).
    replace (S (length pre)) with (length (pre ++ [a]))
      by (rewrite length_app; cbn [length]; lia).
    apply nth_error_middle. }
  unfold optimize_step at 2. rewrite Na, Nb. cbv zeta.
  fold (mid_time (end_time a) (start_time b)).
  destruct (start_time b - end_time a <? th).
  - rewrite update_nth_middle.
    replace (pre ++ set_end_time (mid_time (end_time a) (start_time b)) a :: b :: tl)
      with ((pre ++ [set_end_time (mid_time (end_time a) (start_time b)) a]) ++ b :: tl)
      by (rewrite <- app_assoc; reflexivity).
    replace (S (length pre))
      with (length (pre ++ [set_end_time (mid_time (end_time a) (start_time b)) a]))
      by (rewrite length_app; cbn [length]; lia).
    rewrite update_nth_middle, IH, <- app_assoc. reflexivity.
  - replace (pre ++ a :: b :: tl) with ((pre ++ [a]) ++ b :: tl)
      by (rewrite <- app_assoc; reflexivity).
    replace (S (length pre)) with (length (pre ++ [a]))
      by (rewrite length_app; cbn [length]; lia).
    rewrite IH, <- app_assoc. reflexivity.
Qed.

Lemma optimize_timing_close_gaps (th : Z) (a : ASRDataSeg) (tl : list ASRDataSeg) :
  is_word_timestamp (mkData (a :: tl)) = false ->
  optimize_timing th (mkData (a :: tl)) = mkData (close_gaps_from th a tl).
Proof.
  intros Hw. unfold optimize_timing. rewrite Hw. cbn [segments length Nat.sub].
  rewrite Nat.sub_0_r. f_equal. apply (optimize_loop_close_gaps th tl a []).
Qed.

Lemma close_gaps_from_head (th : Z) (a : ASRDataSeg) (tl : list ASRDataSeg) :
  exists a' rest,
    close_gaps_from th a tl = a' :: rest
    /\ start_time a' = start_time a
    /\ length rest = length tl.
Proof.
  revert a. induction tl as [|b tl IH]; intros a; cbn [close_gaps_from].
  - exists a, []. auto.
  - destruct (start_time b - end_time a <? th).
    + destruct (IH (set_start_time (mid_time (end_time a) (start_time b)) b))
        as (b' & rest & -> & _ & Hl).
      eexists _, _. split; [reflexivity|]. split; [reflexivity|].
      cbn [length]. now rewrite Hl.
    + destruct (IH b) as (b' & rest & -> & _ & Hl).
      eexists _, _. split; [reflexivity|]. split; [reflexivity|].
      cbn [length]. now rewrite Hl.
Qed.

Lemma close_gaps_from_last (th : Z) (tl : list ASRDataSeg) :
  forall a : ASRDataSeg,
    last (map end_time (close_gaps_from th a tl)) 0
    = last (map end_time (a :: tl)) 0.
Proof.
  induction tl as [|b tl IH]; intros a; [reflexivity|].
  cbn [close_gaps_from].
  destruct (start_time b - end_time a <? th).
  - cbn [map]. 
    destruct (close_gaps_from_head th
                (set_start_time (mid_time (end_time a) (start_time b)) b) tl)
      as (b' & rest & E & _ & _).
    pose proof (IH (set_start_time (mid_time (end_time a) (start_time b)) b)) as H.
    rewrite E in *. cbn [map last] in *. exact H.
  - cbn [map].
    destruct (close_gaps_from_head th b tl) as (b' & rest & E & _ & _).
    pose proof (IH b) as H. rewrite E in *. cbn [map last] in *. exact H.
Qed.

(** The boundary between two neighbours after the recursion: the
    midpoint rule when they were less than [th] apart, untouched
    otherwise. *)
Lemma close_gaps_from_boundary (th : Z) (tl : list ASRDataSeg) :
  forall (a : ASRDataSeg) (i : nat) (x y : ASRDataSeg),
    nth_error (a :: tl) i = Some x -> nth_error (a :: tl) (S i) = Some y ->
    exists x' y',
      nth_error (close_gaps_from th a tl) i = Some x'
      /\ nth_error (close_gaps_from th a tl) (S i) = Some y'
      /\ (if start_time y - end_time x <? th
          then end_time x' = mid_time (end_time x) (start_time y)
               /\ start_time y' = mid_time (end_time x) (start_time y)
          else end_time x' = end_time x /\ start_time y' = start_time y).
Proof.
  induction tl as [|b tl IH]; intros a i x y Hx Hy.
  - destruct i; discriminate.
  - cbn [close_gaps_from]. destruct i as [|i].
    + cbn [nth_error] in Hx, Hy. injection Hx as <-. injection Hy as <-.
      destruct (start_time b - end_time a <? th).
      * destruct (close_gaps_from_head th
                    (set_start_time (mid_time (end_time a) (start_time b)) b) tl)
          as (b' & rest & -> & Hs & _).
        eexists _, b'. cbn [nth_error]. split; [reflexivity|].
        split; [reflexivity|]. split; [reflexivity | exact Hs].
      * destruct (close_gaps_from_head th b tl) as (b' & rest & -> & Hs & _).
        eexists _, b'. cbn [nth_error]. split; [reflexivity|].
        split; [reflexivity|]. split; [reflexivity | exact Hs].
    + change (nth_error (a :: b :: tl) (S i)) with (nth_error (b :: tl) i) in Hx.
      change (nth_error (a :: b :: tl) (S (S i))) with (nth_error (b :: tl) (S i)) in Hy.
      destruct (start_time b - end_time a <? th).
      * set (b0 := set_start_time (mid_time (end_time a) (start_time b)) b).
        change (nth_error (?h :: ?r) (S ?n)) with (nth_error r n).
        destruct i as [|i].
        -- cbn [nth_error] in Hx. injection Hx as <-.
           apply (IH b0 0%nat b0 y); [reflexivity | exact Hy].
        -- apply (IH b0 (S i) x y); [exact Hx | exact Hy].
      * change (nth_error (?h :: ?r) (S ?n)) with (nth_error r n).
        apply (IH b i x y); assumption.
Qed.

Lemma close_gaps_from_settled (th : Z) (a : ASRDataSeg) (tl : list ASRDataSeg) :
  gaps_settled th (close_gaps_from th a tl).
Proof.
  intros i x' y' Hx' Hy'.
  destruct (close_gaps_from_head th a tl) as (a' & rest & E & _ & Hl).
  assert (Hi : (S i < length (a :: tl))%nat).
  { cbn [length]. rewrite <- Hl.
    change (S (length rest)) with (length (a' :: rest)). rewrite <- E.
    apply nth_error_Some. congruence. }
  destruct (nth_error (a :: tl) i) as [x|] eqn:Nx.
  2:{ apply nth_error_None in Nx. lia. }
  destruct (nth_error (a :: tl) (S i)) as [y|] eqn:Ny.
  2:{ apply nth_error_None in Ny. lia. }
  destruct (close_gaps_from_boundary th tl a i x y Nx Ny)
    as (x2 & y2 & Hx2 & Hy2 & Hb).
  rewrite Hx' in Hx2. rewrite Hy' in Hy2.
  injection Hx2 as <-. injection Hy2 as <-.
  destruct (start_time y - end_time x <? th) eqn:Eg.
  - destruct Hb as [-> ->]. now left.
  - destruct Hb as [-> ->]. right. apply Z.ltb_ge in Eg. exact Eg.
Qed.

Lemma gaps_settled_tail (th : Z) (a : ASRDataSeg) (l : list ASRDataSeg) :
  gaps_settled th (a :: l) -> gaps_settled th l.
Proof. intros H i x y Hx Hy. exact (H (S i) x y Hx Hy). Qed.

(** On settled segments the recursion changes nothing. *)
Lemma close_gaps_from_id (th : Z) (tl : list ASRDataSeg) :
  forall a : ASRDataSeg,
    gaps_settled th (a :: tl) -> close_gaps_from th a tl = a :: tl.
Proof.
  induction tl as [|b tl IH]; intros a H; [reflexivity|].
  cbn [close_gaps_from].
  pose proof (H 0%nat a b eq_refl eq_refl) as H0.
  pose proof (IH b (gaps_settled_tail _ _ _ H)) as Hb.
  destruct (start_time b - end_time a <? th) eqn:Eg.
  - apply Z.ltb_lt in Eg. destruct H0 as [H0 | H0]; [|lia].
    assert (Em : mid_time (end_time a) (start_time b) = end_time a).
    { unfold mid_time. rewrite H0.
      replace (end_time a + end_time a) with (end_time a * 2) by lia.
      rewrite Z.div_mul by lia. rewrite Z.sub_diag.
      change (0 / 4) with 0. lia. }
    rewrite Em.
    replace (set_end_time (end_time a) a) with a by (destruct a; reflexivity).
    replace (set_start_time (end_time a) b) with b
      by (rewrite <- H0; destruct b; reflexivity).
    now rewrite Hb.
  - now rewrite Hb.
Qed.

(** Whether a document counts as word-level depends on its texts
    only. *)
Lemma is_word_timestamp_texts (l l' : list ASRDataSeg) :
  map text l = map text l' ->
  is_word_timestamp (mkData l) = is_word_timestamp (mkData l').
Proof.
  intros H.
  assert (Hf : forall k : list ASRDataSeg,
             length (filter is_word_segment k)
             = length (filter (fun t => is_word_segment (mkSeg t [] 0 0)) (map text k))).
  { induction k as [|x k IHk]; [reflexivity|]. cbn [map filter].
    change (is_word_segment {| text := text x; translated_text := [];
                               start_time := 0; end_time := 0 |})
      with (is_word_segment x).
    destruct (is_word_segment x); cbn [length]; now rewrite IHk. }
  unfold is_word_timestamp. cbn [segments].
  rewrite !Hf, H.
  rewrite <- (length_map text l), <- (length_map text l'), H.
  destruct l, l'; try discriminate; reflexivity.
Qed.

(** X7. On a document that is not word-level, [optimize_timing] decides
    every boundary from the segments as they were: two neighbours less
    than the threshold apart (overlapping ones included) both get the
    midpoint of the old end and start plus a quarter of the gap, two
    neighbours further apart keep their times.  The start of the first
    segment and the end of the last one never change. *)
Theorem optimize_timing_boundaries (threshold_ms : Z) (d : ASRData) :
  is_word_timestamp d = false ->
  (forall (i : nat) (a b : ASRDataSeg),
      nth_error (segments d) i = Some a ->
      nth_error (segments d) (S i) = Some b ->
      exists a' b',
        nth_error (segments (optimize_timing threshold_ms d)) i = Some a'
        /\ nth_error (segments (optimize_timing threshold_ms d)) (S i) = Some b'
        /\ (if start_time b - end_time a <? threshold_ms
            then end_time a' = mid_time (end_time a) (start_time b)
                 /\ start_time b' = mid_time (end_time a) (start_time b)
            else end_time a' = end_time a /\ start_time b' = start_time b))
  /\ hd_error (map start_time (segments (optimize_timing threshold_ms d)))
     = hd_error (map start_time (segments d))
  /\ last (map end_time (segments (optimize_timing threshold_ms d))) 0
     = last (map end_time (segments d)) 0.
Proof.
  intros Hw. destruct d as [[|a tl]].
  - split; [|split]; try reflexivity. intros i x y Hx. destruct i; discriminate.
  - rewrite (optimize_timing_close_gaps _ _ _ Hw). cbn [segments].
    split; [|split].
    + intros i x y. apply close_gaps_from_boundary.
    + destruct (close_gaps_from_head threshold_ms a tl) as (a' & rest & -> & Hs & _).
      cbn [map hd_error]. now rewrite Hs.
    + apply close_gaps_from_last.
Qed.

Lemma optimize_timing_boundaries_witness :
  is_word_timestamp two_line_doc = false
  /\ exists a' b',
      nth_error (segments (optimize_timing 1000 two_line_doc)) 0 = Some a'
      /\ nth_error (segments (optimize_timing 1000 two_line_doc)) 1 = Some b'
      /\ end_time a' = 1150 /\ start_time b' = 1150.
Proof.
  assert (Hw : is_word_timestamp two_line_doc = false) by (vm_compute; reflexivity).
  split; [exact Hw|].
  destruct (proj1 (optimize_timing_boundaries 1000 two_line_doc Hw) 0%nat
              (mkSeg (u "hello world") [] 0 1000)
              (mkSeg (u "good bye now") [] 1200 2000) eq_refl eq_refl)
    as (a' & b' & Ha & Hb & Hm).
  exists a', b'. split; [exact Ha|]. split; [exact Hb|]. exact Hm.
Defined.

(** X8. After [optimize_timing] on a document that is not word-level every
    segment starts exactly where the one before it ends, or at least the
    threshold later; and calling [optimize_timing] a second time with
    the same threshold changes nothing, on any document. *)
Theorem optimize_timing_idempotent (threshold_ms : Z) (d : ASRData) :
  (is_word_timestamp d = false ->
   gaps_settled threshold_ms (segments (optimize_timing threshold_ms d)))
  /\ optimize_timing threshold_ms (optimize_timing threshold_ms d)
     = optimize_timing threshold_ms d.
Proof.
  destruct (is_word_timestamp d) eqn:Hw.
  - split; [discriminate|].
    assert (E : optimize_timing threshold_ms d = d)
      by (unfold optimize_timing; now rewrite Hw).
    now rewrite !E.
  - destruct d as [[|a tl]].
    + split; [|reflexivity]. intros _ i x y Hx. destruct i; discriminate.
    + rewrite (optimize_timing_close_gaps _ _ _ Hw). cbn [segments].
      split; [intros _; apply close_gaps_from_settled|].
      destruct (close_gaps_from_head threshold_ms a tl) as (a' & rest & E & _ & _).
      assert (Hw' : is_word_timestamp (mkData (a' :: rest)) = false).
      { rewrite <- Hw. apply is_word_timestamp_texts. rewrite <- E.
        change (close_gaps_from threshold_ms a tl)
          with (segments (mkData (close_gaps_from threshold_ms a tl))).
        rewrite <- (optimize_timing_close_gaps _ _ _ Hw).
        apply optimize_timing_map; intros t x; destruct x; reflexivity. }
      rewrite E, (optimize_timing_close_gaps _ _ _ Hw'). f_equal.
      apply close_gaps_from_id. rewrite <- E. apply close_gaps_from_settled.
Qed.

Lemma optimize_timing_idempotent_witness :
  is_word_timestamp two_line_doc = false
  /\ gaps_settled 1000 (segments (optimize_timing 1000 two_line_doc))
  /\ optimize_timing 1000 (optimize_timing 1000 two_line_doc)
     = optimize_timing 1000 two_line_doc.
Proof.
  assert (H : is_word_timestamp two_line_doc = false) by (vm_compute; reflexivity).
  split; [exact H|]. split.
  - exact (proj1 (optimize_timing_idempotent 1000 two_line_doc) H).
  - exact (proj2 (optimize_timing_idempotent 1000 two_line_doc)).
Defined.

(** ** Word segmentation: where the words lie *)

Lemma spaced_between_le (l : list ASRDataSeg) :
  forall lo hi, spaced_between lo hi l -> lo <= hi.
Proof.
  induction l as [|a l IH]; intros lo hi H; [exact H|].
  destruct H as (H1 & H2 & H3). pose proof (IH _ _ H3). lia.
Qed.

Lemma spaced_between_bounds (l : list ASRDataSeg) :
  forall lo hi,
    spaced_between lo hi l ->
    Forall (fun w => lo <= start_time w /\ start_time w <= end_time w
                     /\ end_time w <= hi) l.
Proof.
  induction l as [|a l IH]; intros lo hi H; [constructor|].
  destruct H as (H1 & H2 & H3). pose proof (spaced_between_le _ _ _ H3).
  constructor; [lia|].
  eapply Forall_impl; [|exact (IH _ _ H3)].
  intros w (Ha & Hb & Hc). lia.
Qed.

Lemma word_segments_contiguous (tpp : float) (seg_end : Z) (words : list str) :
  forall cur,
    hd_error (map start_time (word_segments tpp seg_end words cur))
    = match words with [] => None | _ => Some cur end
    /\ contiguous (word_segments tpp seg_end words cur).
Proof.
  induction words as [|w words IH]; intros cur.
  - split; [reflexivity|]. intros i a b Ha. destruct i; discriminate.
  - cbn [word_segments]. cbv zeta. split; [reflexivity|].
    set (e := Z.min (cur + int_of_float
                             (PrimFloat.mul tpp (float_of_int (phonemes w)))) seg_end).
    destruct (IH e) as [Hh Hc].
    intros [|i] a b Ha Hb.
    + cbn [nth_error] in Ha, Hb. injection Ha as <-. cbn [end_time].
      destruct words as [|w' words]; [discriminate|].
      cbn [word_segments nth_error] in Hb. injection Hb as <-. reflexivity.
    + exact (Hc i a b Ha Hb).
Qed.

Lemma word_segments_untranslated (tpp : float) (seg_end : Z) (words : list str) :
  forall cur,
    Forall (fun w => translated_text w = []) (word_segments tpp seg_end words cur).
Proof.
  induction words as [|w words IH]; intros cur; cbn [word_segments];
    [constructor|]. constructor; [reflexivity | apply IH].
Qed.

(** X9. A segment that does not end before it starts is split into one word
    segment per token of its text, in order and without translation:
    the first starts where the segment starts, each of the others
    starts where the one before it ends, and none ends after the
    segment does.  A segment without a token yields nothing. *)
Theorem split_segment_words (seg : ASRDataSeg) :
  start_time seg <= end_time seg ->
  map text (split_segment seg) = map m_text (re_finditer word_pattern (text seg))
  /\ Forall (fun w => translated_text w = []) (split_segment seg)
  /\ hd_error (map start_time (split_segment seg))
     = match split_segment seg with [] => None | _ => Some (start_time seg) end
  /\ contiguous (split_segment seg)
  /\ Forall (fun w => start_time seg <= start_time w
                      /\ start_time w <= end_time w
                      /\ end_time w <= end_time seg) (split_segment seg).
Proof.
  intros Hle. pose proof (split_segment_spaced seg Hle) as Hsp.
  split; [|split; [|split; [|split]]].
  - unfold split_segment.
    destruct (map m_text (re_finditer word_pattern (text seg))) as [|w ws] eqn:E;
      [reflexivity|].
    apply word_segments_text.
  - unfold split_segment.
    destruct (map m_text (re_finditer word_pattern (text seg))) as [|w ws];
      [constructor|].
    apply word_segments_untranslated.
  - unfold split_segment.
    destruct (map m_text (re_finditer word_pattern (text seg))) as [|w ws];
      [reflexivity|].
    reflexivity.
  - unfold split_segment.
    destruct (map m_text (re_finditer word_pattern (text seg))) as [|w ws].
    + intros i a b Ha. destruct i; discriminate.
    + apply word_segments_contiguous.
  - now apply spaced_between_bounds.
Qed.

Lemma split_segment_words_witness :
  split_segment (mkSeg (u "good bye now") [] 1200 2000)
  = [mkSeg (u "good") [] 1200 1466; mkSeg (u "bye") [] 1466 1732;
     mkSeg (u "now") [] 1732 1998]
  /\ contiguous (split_segment (mkSeg (u "good bye now") [] 1200 2000))
  /\ Forall (fun w => 1200 <= start_time w /\ start_time w <= end_time w
                      /\ end_time w <= 2000)
            (split_segment (mkSeg (u "good bye now") [] 1200 2000)).
Proof.
  split; [vm_compute; reflexivity|].
  destruct (split_segment_words (mkSeg (u "good bye now") [] 1200 2000))
    as (_ & _ & _ & H4 & H5).
  - simpl. lia.
  - split; [exact H4 | exact H5].
Defined.

(** ** Punctuation removal: what is removed *)

Lemma drop_while_split (p : Z -> bool) (s : str) :
  exists r, s = r ++ drop_while p s
            /\ Forall (fun c => p c = true) r
            /\ (drop_while p s = [] \/ p (hd 0 (drop_while p s)) = false).
Proof.
  induction s as [|c s IH]; cbn [drop_while].
  - exists []. auto.
  - destruct (p c) eqn:Ec.
    + destruct IH as (r & Hs & Hr & Hd). exists (c :: r).
      split; [cbn [app]; congruence|]. split; [constructor; assumption | exact Hd].
    + exists []. split; [reflexivity|]. split; [constructor | right; exact Ec].
Qed.

Lemma last_rev_hd (s : str) : last (rev s) 0 = hd 0 s.
Proof.
  destruct s as [|c s]; [reflexivity|]. cbn [rev hd]. apply last_last.
Qed.

Lemma drop_trailing_split (p : Z -> bool) (s : str) :
  exists r, s = drop_trailing p s ++ r
            /\ Forall (fun c => p c = true) r
            /\ (drop_trailing p s = [] \/ p (last (drop_trailing p s) 0) = false).
Proof.
  unfold drop_trailing.
  destruct (drop_while_split p (rev s)) as (r & Hs & Hr & Hd).
  exists (rev r). split; [|split].
  - rewrite <- rev_app_distr, <- Hs. now rewrite rev_involutive.
  - now apply Forall_rev.
  - destruct Hd as [-> | Hd]; [now left | right]. now rewrite last_rev_hd.
Qed.

Lemma greedy_all (R : Type) (p : Z -> bool) (k : cont R) (g : groups) (x : R) :
  forall w acc,
    Forall (fun c => p c = true) w ->
    k [] (rev w ++ acc) g = Some x ->
    greedy p k g w acc = Some x.
Proof.
  induction w as [|c w IH]; intros acc Hw Hk; [exact Hk|].
  inversion Hw; subst. cbn [greedy]. 
  replace (p c) with true by (symmetry; assumption).
  rewrite (IH (c :: acc)); [reflexivity | assumption |].
  cbn [rev] in Hk. now rewrite <- app_assoc in Hk.
Qed.

Lemma eos_cases (R : Type) (k : cont R) (s acc : str) (g : groups) (x : R) :
  exec Eos s acc g k = Some x -> s = [] \/ s = [10].
Proof.
  cbn [exec]. destruct s as [|c [|c' tl]]; [auto | |].
  - destruct (Z.eq_dec c 10) as [->|Hc]; [auto|].
    destruct c as [|c|c]; try discriminate;
      do 4 (destruct c as [c|c|]; try discriminate).
    contradiction.
  - destruct c as [|c|c]; try discriminate;
      do 4 (destruct c as [c|c|]; try discriminate).
Qed.

(** The pattern [[，。]+$] matches a run of marks that reaches the end
    of the input, or the line feed that ends it. *)
Lemma punctuation_match_shape (s : str) (m : rmatch) :
  re_match punctuation_pattern s = Some m ->
  m_text m <> []
  /\ Forall (fun c => cs_punctuation c = true) (m_text m)
  /\ (s = m_text m \/ s = m_text m ++ [10]).
Proof.
  intros H.
  destruct (re_match_sound _ _ _ _ punctuation_pattern_within H) as [Hs Hw].
  pose proof (re_match_min_len _ _ _ H) as Hl.
  split; [intros E; rewrite E in Hl; cbn in Hl; lia|]. split; [exact Hw|].
  unfold re_match, punctuation_pattern, Plus in H. cbn [exec] in H.
  destruct s as [|c tl]; [discriminate|].
  destruct (cs_punctuation c); [|discriminate].
  destruct (greedy_sound _ (fun _ => True) _ _ _ (fun _ _ => I) _ _ _ H)
    as (w & s' & -> & _ & Hk).
  assert (Hs' : s' = [] \/ s' = [10]).
  { apply (eos_cases rmatch (fun s'0 acc g => Some (mkMatch (rev acc) g s'0))
                     s' (rev w ++ [c]) [] m).
    exact Hk. }
  assert (Em : m_text m = c :: w).
  { destruct Hs' as [-> | ->]; cbn in Hk; injection Hk as <-; cbn [m_text];
      rewrite rev_app_distr, rev_involutive; reflexivity. }
  rewrite Em. destruct Hs' as [-> | ->]; [left | right].
  - now rewrite app_nil_r.
  - reflexivity.
Qed.

Lemma punctuation_match_run (c : Z) (r : str) :
  Forall (fun c => cs_punctuation c = true) (c :: r) ->
  exists m, re_match punctuation_pattern (c :: r) = Some m /\ m_text m = c :: r.
Proof.
  intros H. inversion H as [|? ? Hc Hr]; subst.
  unfold re_match, punctuation_pattern, Plus. cbn [exec]. rewrite Hc.
  eexists. split.
  - apply greedy_all; [exact Hr|]. reflexivity.
  - cbn [m_text]. rewrite rev_app_distr, rev_involutive. reflexivity.
Qed.

Lemma re_sub_aux_skip_all (r : regex) (repl s : str) :
  forall n, (length s <= n)%nat -> re_sub_aux r repl s n = [].
Proof.
  induction s as [|c s IH]; intros n Hn; [reflexivity|].
  destruct n as [|n]; [simpl in Hn; lia|]. simpl. apply IH. simpl in Hn. lia.
Qed.

Lemma last_in_list (w : str) : w <> [] -> In (last w 0) w.
Proof.
  induction w as [|c w IH]; [congruence|]. intros _.
  destruct w as [|c' w]; [left; reflexivity|].
  right. apply IH. discriminate.
Qed.

Lemma re_sub_punctuation_run (r : str) :
  Forall (fun c => cs_punctuation c = true) r ->
  forall w,
    (w = [] \/ cs_punctuation (last w 0) = false) ->
    last (w ++ r) 0 <> 10 ->
    re_sub_aux punctuation_pattern [] (w ++ r) 0 = w.
Proof.
  intros Hr. induction w as [|c w IH]; intros Hw Hl.
  - cbn [app]. destruct r as [|c r]; [reflexivity|].
    destruct (punctuation_match_run c r Hr) as (m & Hm & Et).
    cbn [re_sub_aux]. rewrite Hm, Et. cbn [app length].
    apply re_sub_aux_skip_all. lia.
  - destruct Hw as [Hw | Hw]; [discriminate|].
    cbn [app re_sub_aux].
    destruct (re_match punctuation_pattern (c :: w ++ r)) as [m|] eqn:Em.
    + exfalso. destruct (punctuation_match_shape _ _ Em) as (_ & Hall & [Hs | Hs]).
      * rewrite <- Hs in Hall.
        assert (Hin : In (last (c :: w) 0) (c :: w ++ r)).
        { change (c :: w ++ r) with ((c :: w) ++ r). apply in_or_app. left.
          apply last_in_list. discriminate. }
        pose proof (proj1 (Forall_forall _ _) Hall _ Hin). congruence.
      * apply Hl. change (c :: w ++ r) with ((c :: w) ++ r) in Hs.
        rewrite Hs. apply last_last.
    + f_equal. apply IH.
      * destruct w as [|c' w]; [now left | right]. exact Hw.
      * destruct (w ++ r) as [|c' s'] eqn:E; [cbn; discriminate|].
        change (last ((c :: w) ++ r) 0) with (last (c :: w ++ r) 0) in Hl.
        rewrite E in Hl. exact Hl.
Qed.

Lemma strip_last (s : str) : isspace (last (strip s) 0) = false.
Proof.
  unfold strip, rstrip. rewrite last_rev_hd.
  destruct (lstrip (rev (lstrip s))) as [|c t] eqn:E; [reflexivity|].
  cbn [hd]. exact (lstrip_head _ _ _ E).
Qed.

Lemma re_sub_punctuation_strip (s : str) :
  re_sub punctuation_pattern [] (strip s) = drop_trailing cs_punctuation (strip s).
Proof.
  destruct (drop_trailing_split cs_punctuation (strip s)) as (r & Hs & Hr & Hd).
  unfold re_sub. rewrite Hs at 1. apply re_sub_punctuation_run; [exact Hr | exact Hd |].
  rewrite <- Hs. intros E. pose proof (strip_last s) as H. rewrite E in H.
  discriminate.
Qed.

(** X10. [remove_punctuation] trims the original and the translated text of
    every segment and then takes away the full-width commas and
    ideographic full stops at the end, and only those: marks further
    inside stay, and so do the times and the number of segments. *)
Theorem remove_punctuation_drops_trailing_marks (d : ASRData) :
  segments (remove_punctuation d)
  = map (fun seg =>
           mkSeg (drop_trailing cs_punctuation (strip (text seg)))
                 (drop_trailing cs_punctuation (strip (translated_text seg)))
                 (start_time seg) (end_time seg))
        (segments d)
  /\ Forall (fun seg =>
               text seg = [] \/ cs_punctuation (last (text seg) 0) = false)
            (segments (remove_punctuation d)).
Proof.
  assert (E : segments (remove_punctuation d)
              = map (fun seg =>
                       mkSeg (drop_trailing cs_punctuation (strip (text seg)))
                             (drop_trailing cs_punctuation (strip (translated_text seg)))
                             (start_time seg) (end_time seg))
                    (segments d)).
  { unfold remove_punctuation. cbn [segments]. apply map_ext. intros seg.
    now rewrite !re_sub_punctuation_strip. }
  split; [exact E|]. rewrite E. apply Forall_map, Forall_forall. intros seg _.
  cbn [text].
  destruct (drop_trailing_split cs_punctuation (strip (text seg))) as (r & _ & _ & H).
  exact H.
Qed.

(** ** ASS time stamps *)

Lemma split_on_aux_prefix (sep : Z) (w : str) :
  Forall (fun c => c <> sep) w ->
  forall rest cur,
    split_on_aux sep (w ++ sep :: rest) cur
    = (rev cur ++ w) :: split_on_aux sep rest [].
Proof.
  induction 1 as [|c w Hc Hw IH]; intros rest cur; cbn [app split_on_aux].
  - rewrite Z.eqb_refl, app_nil_r. reflexivity.
  - replace (c =? sep) with false by (symmetry; now apply Z.eqb_neq).
    rewrite IH. cbn [rev]. rewrite <- app_assoc. reflexivity.
Qed.

Lemma split_on_aux_last (sep : Z) (w : str) :
  Forall (fun c => c <> sep) w ->
  forall cur, split_on_aux sep w cur = [rev cur ++ w].
Proof.
  induction 1 as [|c w Hc Hw IH]; intros cur; cbn [split_on_aux].
  - now rewrite app_nil_r.
  - replace (c =? sep) with false by (symmetry; now apply Z.eqb_neq).
    rewrite IH. cbn [rev]. rewrite <- app_assoc. reflexivity.
Qed.

Lemma isdecimal_not (c x : Z) : isdecimal x = false -> isdecimal c = true -> c <> x.
Proof. intros Hx Hc ->. congruence. Qed.

Lemma decimal_in_range (zeros : list Z) (c d : Z) :
  decimal_in zeros c = Some d -> 0 <= d <= 9.
Proof.
  induction zeros as [|z zeros IH]; cbn [decimal_in]; [discriminate|].
  unfold in_range. destruct (z <=? c) eqn:E1; cbn [andb]; [|exact IH].
  destruct (c <=? z + 9) eqn:E2; [|exact IH].
  intros H. injection H as <-. apply Z.leb_le in E1, E2. lia.
Qed.

(** [int] of a run of decimal digits succeeds and is not negative. *)
Lemma int_digits_decimal (w : str) :
  Forall (fun c => isdecimal c = true) w ->
  forall a, 0 <= a -> exists n, int_digits a w = Some n /\ 0 <= n.
Proof.
  induction 1 as [|c w Hc Hw IH]; intros a Ha; cbn [int_digits].
  - exists a. auto.
  - unfold isdecimal in Hc. destruct (decimal_value c) as [d|] eqn:E; [|discriminate].
    apply decimal_in_range in E. apply IH. lia.
Qed.

Lemma int_of_str_decimal (c : Z) (w : str) :
  Forall (fun c => isdecimal c = true) (c :: w) ->
  exists n, int_of_str (c :: w) = Some n /\ 0 <= n.
Proof.
  intros H. unfold int_of_str. apply int_digits_decimal; [exact H | lia].
Qed.

(** Any text of the shape [\d+:\d{2}:\d{2}\.\d{2}] is a time for
    [parse_ass_time], and not a negative one. *)
Lemma parse_ass_time_clock (h0 : Z) (hs : str) (d1 d2 d3 d4 d5 d6 : Z) :
  Forall (fun c => isdecimal c = true) (h0 :: hs) ->
  Forall (fun c => isdecimal c = true) [d1; d2; d3; d4; d5; d6] ->
  exists h m s cs,
    int_of_str (h0 :: hs) = Some h /\ int_of_str [d1; d2] = Some m
    /\ int_of_str [d3; d4] = Some s /\ int_of_str [d5; d6] = Some cs
    /\ 0 <= h /\ 0 <= m /\ 0 <= s /\ 0 <= cs
    /\ parse_ass_time ((h0 :: hs) ++ [58; d1; d2; 58; d3; d4; 46; d5; d6])
       = Ok (h * 3600000 + m * 60000 + s * 1000 + cs * 10).
Proof.
  intros Hh Hd.
  assert (N58 : forall c, isdecimal c = true -> c <> 58)
    by (intros c; apply isdecimal_not; reflexivity).
  assert (N46 : forall c, isdecimal c = true -> c <> 46)
    by (intros c; apply isdecimal_not; reflexivity).
  destruct (int_of_str_decimal h0 hs Hh) as (h & Eh & Hh0).
  repeat match goal with
         | H : Forall _ (_ :: _) |- _ => inversion H; clear H; subst
         end.
  assert (F12 : Forall (fun c => isdecimal c = true) [d1; d2]) by auto.
  assert (F34 : Forall (fun c => isdecimal c = true) [d3; d4]) by auto.
  assert (F56 : Forall (fun c => isdecimal c = true) [d5; d6]) by auto.
  destruct (int_of_str_decimal d1 [d2] F12) as (m & Em & Hm0).
  destruct (int_of_str_decimal d3 [d4] F34) as (s & Es & Hs0).
  destruct (int_of_str_decimal d5 [d6] F56) as (cs & Ecs & Hcs0).
  exists h, m, s, cs. repeat (split; [assumption|]).
  unfold parse_ass_time, split_on.
  assert (Fh : Forall (fun c => isdecimal c = true) (h0 :: hs)) by auto.
  rewrite split_on_aux_prefix by (eapply Forall_impl; [|exact Fh]; exact N58).
  change [d1; d2; 58; d3; d4; 46; d5; d6]
    with ([d1; d2] ++ 58 :: [d3; d4; 46; d5; d6]).
  rewrite (split_on_aux_prefix 58 [d1; d2]) by (repeat constructor; now apply N58).
  rewrite (split_on_aux_last 58 [d3; d4; 46; d5; d6])
    by (repeat constructor; (now apply N58) || discriminate).
  cbn [rev app].
  change [d3; d4; 46; d5; d6] with ([d3; d4] ++ 46 :: [d5; d6]).
  rewrite (split_on_aux_prefix 46 [d3; d4]) by (repeat constructor; now apply N46).
  rewrite (split_on_aux_last 46 [d5; d6]) by (repeat constructor; now apply N46).
  cbn [rev app]. rewrite Eh, Em, Es, Ecs. reflexivity.
Qed.

(** [int(milliseconds / 10)] is the integer quotient. *)
Lemma centiseconds_exact (x : Z) :
  0 <= x < 1000 -> int_of_float (true_div x 10) = x / 10.
Proof.
  intros Hx.
  assert (H : forallb (fun k => int_of_float (true_div (Z.of_nat k) 10)
                                =? Z.of_nat k / 10)
                      (seq 0 1000) = true) by (vm_compute; reflexivity).
  rewrite forallb_forall in H. specialize (H (Z.to_nat x)).
  rewrite Z2Nat.id in H by lia. apply Z.eqb_eq, H, in_seq. lia.
Qed.

Lemma fmt_int_1 (h : Z) : 0 <= h -> fmt_int 1 h = str_of_int h.
Proof.
  intros Hh. unfold fmt_int, zfill.
  replace (h <? 0) with false by (symmetry; apply Z.ltb_ge; lia).
  destruct (str_of_int_digits h Hh) as (ds & -> & Hne & _).
  destruct ds as [|c ds]; [congruence|]. cbn [length Nat.sub]. reflexivity.
Qed.

(** The characters of [H:MM:SS.cc] for a time that is not negative,
    and the numbers they spell. *)
Lemma ms_to_ass_ts_shape (a : Z) :
  0 <= a ->
  exists h0 hs d1 d2 d3 d4 d5 d6,
    ms_to_ass_ts a = (h0 :: hs) ++ [58; d1; d2; 58; d3; d4; 46; d5; d6]
    /\ Forall ascii_digit (h0 :: hs)
    /\ Forall ascii_digit [d1; d2; d3; d4; d5; d6]
    /\ exists h, int_of_str (h0 :: hs) = Some h
         /\ h * 3600000 + ((d1 - 48) * 10 + (d2 - 48)) * 60000
            + ((d3 - 48) * 10 + (d4 - 48)) * 1000
            + ((d5 - 48) * 10 + (d6 - 48)) * 10
            = 10 * (a / 10).
Proof.
  intros Ha. unfold ms_to_ass_ts.
  set (ts := a / 1000). set (ms := a mod 1000).
  set (m0 := ts / 60). set (sec := ts mod 60).
  set (h := m0 / 60). set (mi := m0 mod 60).
  assert (Hms : 0 <= ms < 1000) by (apply Z.mod_pos_bound; lia).
  assert (Hsec : 0 <= sec < 60) by (apply Z.mod_pos_bound; lia).
  assert (Hmi : 0 <= mi < 60) by (apply Z.mod_pos_bound; lia).
  assert (Ea : a = 1000 * ts + ms) by (apply Z.div_mod; lia).
  assert (Ets : ts = 60 * m0 + sec) by (apply Z.div_mod; lia).
  assert (Em0 : m0 = 60 * h + mi) by (apply Z.div_mod; lia).
  assert (Hts : 0 <= ts) by (apply Z.div_pos; lia).
  assert (Hm0 : 0 <= m0) by (apply Z.div_pos; lia).
  assert (Hh : 0 <= h) by (apply Z.div_pos; lia).
  cbv zeta. rewrite centiseconds_exact by assumption.
  assert (Hcs : 0 <= ms / 10 < 100).
  { split; [apply Z.div_pos; lia | apply Z.div_lt_upper_bound; lia]. }
  rewrite fmt_int_1 by assumption. rewrite !fmt_int_2 by lia.
  destruct (str_of_int_digits h Hh) as (ds & Eds & Hne & Hall & _).
  pose proof (int_of_str_of_int h Hh) as Eint. rewrite Eds in *.
  destruct ds as [|h0 hs]; [congruence|].
  change (u ":") with [58]. change (u ".") with [46].
  exists h0, hs. do 6 eexists. split; [cbn [app]; reflexivity|].
  pose proof (Z.div_mod mi 10 ltac:(lia)). pose proof (Z.mod_pos_bound mi 10 ltac:(lia)).
  pose proof (Z.div_mod sec 10 ltac:(lia)). pose proof (Z.mod_pos_bound sec 10 ltac:(lia)).
  pose proof (Z.div_mod ms 10 ltac:(lia)). pose proof (Z.mod_pos_bound ms 10 ltac:(lia)).
  pose proof (Z.div_mod (ms / 10) 10 ltac:(lia)).
  pose proof (Z.mod_pos_bound (ms / 10) 10 ltac:(lia)).
  assert (Ea10 : a / 10 = 100 * ts + ms / 10).
  { replace a with (ms + (100 * ts) * 10) by lia.
    rewrite Z.div_add by lia. lia. }
  split; [exact Hall|]. split.
  - unfold ascii_digit. repeat constructor; lia.
  - exists h. split; [exact Eint|]. lia.
Qed.

Lemma ascii_digit_decimal (w : str) :
  Forall ascii_digit w -> Forall (fun c => isdecimal c = true) w.
Proof.
  intros H. eapply Forall_impl; [|exact H]. intros c Hc. now apply isdecimal_ascii.
Qed.

Lemma parse_ass_time_of_ms_to_ass_ts_aux (ms : Z) :
  0 <= ms -> parse_ass_time (ms_to_ass_ts ms) = Ok (10 * (ms / 10)).
Proof.
  intros Hms.
  destruct (ms_to_ass_ts_shape ms Hms)
    as (h0 & hs & d1 & d2 & d3 & d4 & d5 & d6 & -> & Hh & Hd & h & Eh & Ev).
  destruct (parse_ass_time_clock h0 hs d1 d2 d3 d4 d5 d6
              (ascii_digit_decimal _ Hh) (ascii_digit_decimal _ Hd))
    as (h' & m & s & cs & Eh' & Em & Es & Ecs & _ & _ & _ & _ & ->).
  repeat match goal with
         | H : Forall _ (_ :: _) |- _ => inversion H; clear H; subst
         end.
  unfold int_of_str in Em, Es, Ecs. cbn [int_digits] in Em, Es, Ecs.
  rewrite !decimal_value_ascii in Em, Es, Ecs by assumption.
  injection Em as <-. injection Es as <-. injection Ecs as <-.
  rewrite Eh in Eh'. injection Eh' as <-. f_equal. lia.
Qed.


(** X11. [parse_ass_time] reads back the time [_ms_to_ass_ts] wrote, cut
    down to hundredths of a second: the last digit of the milliseconds
    is lost. *)
Theorem parse_ass_time_of_ms_to_ass_ts (ms : Z) :
  0 <= ms ->
  parse_ass_time (ms_to_ass_ts ms) = Ok (10 * (ms / 10))
  /\ 10 * (ms / 10) <= ms < 10 * (ms / 10) + 10.
Proof.
  intros Hms. split; [now apply parse_ass_time_of_ms_to_ass_ts_aux|].
  pose proof (Z.div_mod ms 10 ltac:(lia)).
  pose proof (Z.mod_pos_bound ms 10 ltac:(lia)). lia.
Qed.

Lemma parse_ass_time_of_ms_to_ass_ts_witness :
  ms_to_ass_ts 3723456 = u "1:02:03.45"
  /\ parse_ass_time (ms_to_ass_ts 3723456) = Ok (10 * (3723456 / 10))
  /\ 10 * (3723456 / 10) <= 3723456 < 10 * (3723456 / 10) + 10.
Proof.
  split; [vm_compute; reflexivity|].
  apply (parse_ass_time_of_ms_to_ass_ts 3723456). lia.
Defined.

(** ** ASS events: what a matching line holds *)






(** ** ASS events: the loop never fails *)

Lemma temp_get_In (k : str) (t : temp_dict) (seg : ASRDataSeg) :
  temp_get k t = Some seg -> In seg (map snd t).
Proof.
  induction t as [|[k' s'] t IH]; cbn [temp_get map snd]; [discriminate|].
  destruct (str_eqb k' k).
  - intros H. injection H as <-. now left.
  - intros H. right. now apply IH.
Qed.

Lemma temp_del_incl (k : str) (t : temp_dict) (seg : ASRDataSeg) :
  In seg (map snd (temp_del k t)) -> In seg (map snd t).
Proof.
  induction t as [|[k' s'] t IH]; cbn [temp_del map snd]; [auto|].
  destruct (str_eqb k' k).
  - intros H. now right.
  - cbn [map snd]. intros [H | H]; [now left | right; now apply IH].
Qed.




(** ** The matcher on text of a known shape *)

Lemma exec_cat (R : Type) (r1 r2 : regex) (s acc : str) (g : groups) (k : cont R) :
  exec (Cat r1 r2) s acc g k
  = exec r1 s acc g (fun s' acc' g' => exec r2 s' acc' g' k).
Proof. reflexivity. Qed.

Lemma exec_group (R : Type) (n : nat) (r : regex) (s acc : str) (g : groups)
      (k : cont R) :
  exec (Group n r) s acc g k
  = exec r s [] g (fun s' acc' g' => k s' (acc' ++ acc) ((n, rev acc') :: g')).
Proof. reflexivity. Qed.

Lemma exec_lit (R : Type) (w : str) :
  forall (s acc : str) (g : groups) (k : cont R),
    exec (Lit w) (w ++ s) acc g k = k s (rev w ++ acc) g.
Proof.
  induction w as [|c w IH]; intros s acc g k; [reflexivity|].
  destruct w as [|c' w].
  - cbn [Lit exec app rev]. unfold is_char. now rewrite Z.eqb_refl.
  - change (Lit (c :: c' :: w)) with (Cat (Set_ (is_char c)) (Lit (c' :: w))).
    cbn [exec app]. unfold is_char at 1. rewrite Z.eqb_refl.
    change (c' :: w ++ s) with ((c' :: w) ++ s). rewrite IH.
    cbn [rev]. now rewrite <- !app_assoc.
Qed.

Lemma exec_lit_fail (R : Type) (c : Z) (w : str) (x : Z) (s acc : str) (g : groups)
      (k : cont R) :
  x <> c -> exec (Lit (c :: w)) (x :: s) acc g k = None.
Proof.
  intros H. destruct w as [|c' w].
  - cbn [Lit exec]. unfold is_char.
    now replace (x =? c) with false by (symmetry; now apply Z.eqb_neq).
  - change (Lit (c :: c' :: w)) with (Cat (Set_ (is_char c)) (Lit (c' :: w))).
    cbn [exec]. unfold is_char at 1.
    now replace (x =? c) with false by (symmetry; now apply Z.eqb_neq).
Qed.

(** A greedy run over [w], stopped by [c], when the rest of the pattern
    cannot start inside the run. *)
Lemma greedy_until (R : Type) (p : Z -> bool) (k : cont R) (g : groups)
      (c : Z) (rest : str) :
  p c = false ->
  (forall x s' acc', p x = true -> k (x :: s') acc' g = None) ->
  forall w acc,
    Forall (fun x => p x = true) w ->
    greedy p k g (w ++ c :: rest) acc = k (c :: rest) (rev w ++ acc) g.
Proof.
  intros Hc Hk. induction w as [|x w IH]; intros acc Hw; cbn [app greedy].
  - now rewrite Hc.
  - inversion Hw as [|? ? Hx Hw']; subst. rewrite Hx, (IH _ Hw'), (Hk x _ _ Hx).
    rewrite orelse_none_r. cbn [rev]. now rewrite <- app_assoc.
Qed.

Lemma exec_plus_until (R : Type) (p : Z -> bool) (k : cont R) (g : groups)
      (h : Z) (w : str) (c : Z) (rest acc : str) :
  Forall (fun x => p x = true) (h :: w) -> p c = false ->
  (forall x s' acc', p x = true -> k (x :: s') acc' g = None) ->
  exec (Plus p) ((h :: w) ++ c :: rest) acc g k
  = k (c :: rest) (rev (h :: w) ++ acc) g.
Proof.
  intros Hw Hc Hk. inversion Hw as [|? ? Hh Hw']; subst.
  unfold Plus. cbn [exec app]. rewrite Hh.
  rewrite (greedy_until R p k g c rest Hc Hk w (h :: acc) Hw').
  cbn [rev]. now rewrite <- app_assoc.
Qed.

Lemma exec_rep2 (R : Type) (p : Z -> bool) (k : cont R) (g : groups)
      (d1 d2 : Z) (rest acc : str) :
  p d1 = true -> p d2 = true ->
  exec (Rep 2 p) (d1 :: d2 :: rest) acc g k = k rest (d2 :: d1 :: acc) g.
Proof. intros H1 H2. cbn [Rep exec]. now rewrite H1, H2. Qed.

(** The pattern of an ASS time reads a text of that shape to its end,
    and in no other way. *)
Lemma exec_ass_clock (R : Type) (c rest acc : str) (g : groups) (k : cont R) :
  ass_clock_shaped c ->
  exec ass_clock (c ++ rest) acc g k = k rest (rev c ++ acc) g.
Proof.
  intros (h0 & hs & d1 & d2 & d3 & d4 & d5 & d6 & -> & Hh & Hd).
  repeat match goal with
         | H : Forall _ (_ :: _ :: _) |- _ => inversion H; clear H; subst
         | H : Forall _ [_] |- _ => inversion H; clear H; subst
         end.
  unfold ass_clock. change (u ":") with [58]. change (u ".") with [46].
  rewrite <- app_assoc. cbn [app]. rewrite exec_cat.
  change (h0 :: hs ++ 58 :: d1 :: d2 :: 58 :: d3 :: d4 :: 46 :: d5 :: d6 :: rest)
    with ((h0 :: hs) ++ 58 :: d1 :: d2 :: 58 :: d3 :: d4 :: 46 :: d5 :: d6 :: rest).
  rewrite exec_plus_until; [|assumption|reflexivity|].
  2:{ intros x s' acc' Hx. rewrite exec_cat. apply exec_lit_fail.
      intros ->. discriminate. }
  rewrite exec_cat.
  change (58 :: d1 :: d2 :: 58 :: d3 :: d4 :: 46 :: d5 :: d6 :: rest)
    with ([58] ++ d1 :: d2 :: 58 :: d3 :: d4 :: 46 :: d5 :: d6 :: rest).
  rewrite exec_lit, exec_cat, exec_rep2 by assumption.
  rewrite exec_cat.
  change (58 :: d3 :: d4 :: 46 :: d5 :: d6 :: rest)
    with ([58] ++ d3 :: d4 :: 46 :: d5 :: d6 :: rest).
  rewrite exec_lit, exec_cat, exec_rep2 by assumption.
  rewrite exec_cat.
  change (46 :: d5 :: d6 :: rest) with ([46] ++ d5 :: d6 :: rest).
  rewrite exec_lit, exec_rep2 by assumption.
  f_equal. cbn [rev app]. rewrite !rev_app_distr. cbn [rev app].
  repeat rewrite <- app_assoc. reflexivity.
Qed.

Lemma eos_none (R : Type) (c : Z) (tl acc : str) (g : groups) (k : cont R) :
  c <> 10 -> exec Eos (c :: tl) acc g k = None.
Proof.
  intros Hc. cbn [exec]. destruct tl as [|c' tl].
  - destruct c as [|c|c]; try reflexivity;
      do 4 (destruct c as [c|c|]; try reflexivity).
    contradiction.
  - destruct c as [|c|c]; try reflexivity;
      do 4 (destruct c as [c|c|]; try reflexivity).
Qed.

(** A lazy run in front of the end of the input takes all of it. *)
Lemma lazy_to_end (R : Type) (k : cont R) (g : groups) :
  (forall c tl acc', c <> 10 -> k (c :: tl) acc' g = None) ->
  forall w acc,
    Forall (fun c => cs_dot c = true) w ->
    lazy cs_dot k g w acc = k [] (rev w ++ acc) g.
Proof.
  intros Hk. induction w as [|c w IH]; intros acc Hw; cbn [lazy].
  - cbn [rev app]. now destruct (k [] acc g).
  - inversion Hw as [|? ? Hc Hw']; subst.
    assert (Hn : c <> 10).
    { intros ->. discriminate. }
    rewrite (Hk c w acc Hn), Hc, (IH _ Hw'). cbn [rev].
    now rewrite <- app_assoc.
Qed.

Lemma exec_lit1 (R : Type) (c : Z) (s acc : str) (g : groups) (k : cont R) :
  exec (Lit [c]) (c :: s) acc g k = k s (c :: acc) g.
Proof. apply (exec_lit R [c]). Qed.

Lemma exec_plus_one (R : Type) (p : Z -> bool) (k : cont R) (g : groups)
      (h c : Z) (rest acc : str) :
  p h = true -> p c = false ->
  exec (Plus p) (h :: c :: rest) acc g k = k (c :: rest) (h :: acc) g.
Proof.
  intros Hh Hc. unfold Plus. cbn [exec greedy]. now rewrite Hh, Hc.
Qed.

Lemma lazy_now (R : Type) (p : Z -> bool) (k : cont R) (g : groups)
      (s acc : str) (v : R) :
  k s acc g = Some v -> lazy p k g s acc = Some v.
Proof. intros H. destruct s; cbn [lazy]; now rewrite H. Qed.

(** A lazy run takes [w] when the rest of the pattern cannot start
    inside [w] and succeeds behind it. *)
Lemma lazy_first (R : Type) (k : cont R) (g : groups) (p : Z -> bool) (sep : Z)
      (rest : str) (v : R) :
  (forall x s' acc', x <> sep -> k (x :: s') acc' g = None) ->
  forall w acc,
    Forall (fun x => p x = true /\ x <> sep) w ->
    k rest (rev w ++ acc) g = Some v ->
    lazy p k g (w ++ rest) acc = Some v.
Proof.
  intros Hk. induction w as [|x w IH]; intros acc Hw Hv.
  - cbn [app rev] in *. destruct rest; cbn [lazy]; now rewrite Hv.
  - inversion Hw as [|? ? [Hx Hs] Hw']; subst. cbn [app lazy].
    rewrite (Hk x _ _ Hs), Hx. apply IH; [assumption|].
    cbn [rev] in Hv. now rewrite <- app_assoc in Hv.
Qed.

(** ** A line written by [to_ass] *)

(** The line of a dialogue, without the line feed. *)
Lemma dialogue_line_match (start_ts end_ts style txt : str) :
  ass_clock_shaped start_ts -> ass_clock_shaped end_ts ->
  Forall (fun x => cs_dot x = true /\ x <> 44) style ->
  Forall (fun c => cs_dot c = true) txt ->
  exists m,
    re_match ass_time_pattern
             (u "Dialogue: 0," ++ start_ts ++ u "," ++ end_ts ++ u "," ++ style
                ++ u ",,0,0,0,," ++ txt)
    = Some m
    /\ group 1 m = start_ts /\ group 2 m = end_ts
    /\ group 3 m = style /\ group 4 m = txt.
Proof.
  intros Hs He Hstyle Htxt.
  unfold re_match, ass_time_pattern.
  change (u "Dialogue: 0,") with (u "Dialogue: " ++ [48; 44]).
  change (u ",,0,0,0,,") with [44; 44; 48; 44; 48; 44; 48; 44; 44].
  change (u ",") with [44].
  rewrite <- app_assoc.
  eexists. split.
  - rewrite exec_cat, exec_lit. cbn [app].
    rewrite exec_cat, exec_plus_one by reflexivity.
    rewrite exec_cat, exec_lit1.
    rewrite exec_cat, exec_group, exec_ass_clock by assumption.
    rewrite exec_cat, exec_lit1.
    rewrite exec_cat, exec_group, exec_ass_clock by assumption.
    rewrite exec_cat, exec_lit1.
    rewrite exec_cat, exec_group.
    change (exec (LazyStar cs_dot) ?s ?a ?g ?k) with (lazy cs_dot k g s a).
    apply (lazy_first _ _ _ cs_dot 44).
    { intros x s' acc' Hx. rewrite exec_cat. now apply exec_lit_fail. }
    { exact Hstyle. }
    rewrite exec_cat, exec_lit1. rewrite exec_cat.
    change (exec (LazyStar cs_dot) ?s ?a ?g ?k) with (lazy cs_dot k g s a).
    apply lazy_now.
    rewrite exec_cat, exec_lit1.
    rewrite exec_cat, exec_plus_one by reflexivity.
    rewrite exec_cat, exec_lit1.
    rewrite exec_cat, exec_plus_one by reflexivity.
    rewrite exec_cat, exec_lit1.
    rewrite exec_cat, exec_plus_one by reflexivity.
    rewrite exec_cat, exec_lit1.
    rewrite exec_cat.
    change (exec (LazyStar cs_dot) ?s ?a ?g ?k) with (lazy cs_dot k g s a).
    apply lazy_now.
    rewrite exec_cat, exec_lit1. rewrite exec_cat, exec_group.
    change (exec (LazyStar cs_dot) ?s ?a ?g ?k) with (lazy cs_dot k g s a).
    rewrite lazy_to_end; [|intros c tl acc' Hc; now apply eos_none|exact Htxt].
    cbn [exec]. reflexivity.
  - unfold group. cbn [m_groups lookup_group Nat.eqb].
    rewrite !app_nil_r, !rev_involutive. auto.
Qed.

(** ** Reading back what [to_ass] wrote *)

Lemma splitlines_aux_lines (lines : list str) :
  Forall single_line lines ->
  splitlines_aux (concat (map (fun l => l ++ [NL]) lines)) [] = lines.
Proof.
  induction 1 as [|l lines Hl Hls IH]; [reflexivity|].
  cbn [map concat]. rewrite <- app_assoc.
  rewrite (splitlines_line l Hl). cbn [app splitlines_aux].
  change (is_linebreak NL) with true. cbv iota. unfold NL at 1.
  rewrite IH, app_nil_r, rev_involutive. reflexivity.
Qed.

Lemma ass_header_as_lines :
  ass_header default_style_str = concat (map (fun l => l ++ [NL]) ass_header_lines).
Proof. vm_compute. reflexivity. Qed.

Lemma forallb_true_Forall {A : Type} (f : A -> bool) (l : list A) :
  forallb f l = true -> Forall (fun x => f x = true) l.
Proof.
  intros H. apply Forall_forall. intros x Hx.
  exact (proj1 (forallb_forall f l) H x Hx).
Qed.

Lemma single_line_forallb (s : str) :
  forallb (fun c => negb (is_linebreak c)) s = true -> single_line s.
Proof.
  intros H. apply forallb_true_Forall in H. unfold single_line.
  eapply Forall_impl; [|exact H]. intros c Hc. now apply negb_true_iff.
Qed.

Lemma ass_header_lines_single : Forall single_line ass_header_lines.
Proof.
  assert (H : forallb (fun l => forallb (fun c => negb (is_linebreak c)) l)
                      ass_header_lines = true) by (vm_compute; reflexivity).
  apply forallb_true_Forall in H. eapply Forall_impl; [|exact H].
  intros l. apply single_line_forallb.
Qed.

Lemma ass_loop_app (ht : bool) (l1 l2 : list str) :
  forall st,
    ass_loop ht st (l1 ++ l2)
    = match ass_loop ht st l1 with
      | Ok st' => ass_loop ht st' l2
      | Raise e => Raise e
      end.
Proof.
  induction l1 as [|l l1 IH]; intros st; cbn [app ass_loop]; [reflexivity|].
  destruct (ass_line_step ht st l); [apply IH | reflexivity].
Qed.

Lemma ass_loop_header (ht : bool) (st : ass_state) :
  ass_loop ht st ass_header_lines = Ok st.
Proof.
  assert (H : forallb (fun l => negb (startswith (u "Dialogue:") l))
                      ass_header_lines = true) by (vm_compute; reflexivity).
  apply forallb_true_Forall in H. revert st.
  induction H as [|l ls Hl Hls IH]; intros st; [reflexivity|].
  cbn [ass_loop]. unfold ass_line_step at 1. destruct st as [segs temp].
  apply negb_true_iff in Hl. rewrite Hl. apply IH.
Qed.

Lemma startswith_app (p a b : str) :
  startswith p a = true -> startswith p (a ++ b) = true.
Proof.
  revert a. induction p as [|x p IH]; intros a H; [reflexivity|].
  destruct a as [|c a]; [discriminate|]. cbn [startswith app] in *.
  apply andb_true_iff in H. destruct H as [-> H]. now apply IH.
Qed.

Lemma contains_app (sub a b : str) :
  contains sub a = true -> contains sub (a ++ b) = true.
Proof.
  induction a as [|c a IH]; cbn [contains app]; intros H.
  - destruct sub; [|discriminate]. destruct b; reflexivity.
  - apply orb_true_iff in H. apply orb_true_iff. destruct H as [H | H].
    + left. exact (startswith_app sub (c :: a) b H).
    + right. now apply IH.
Qed.

(** The three things the reader needs of a time stamp [to_ass] wrote. *)
Lemma ms_to_ass_ts_facts (a : Z) :
  0 <= a ->
  ass_clock_shaped (ms_to_ass_ts a)
  /\ single_line (ms_to_ass_ts a)
  /\ parse_ass_time (ms_to_ass_ts a) = Ok (10 * (a / 10)).
Proof.
  intros Ha. split; [|split; [|now apply parse_ass_time_of_ms_to_ass_ts_aux]].
  - destruct (ms_to_ass_ts_shape a Ha)
      as (h0 & hs & d1 & d2 & d3 & d4 & d5 & d6 & E & Hh & Hd & _).
    exists h0, hs, d1, d2, d3, d4, d5, d6.
    split; [exact E|]. split; now apply ascii_digit_decimal.
  - destruct (ms_to_ass_ts_shape a Ha)
      as (h0 & hs & d1 & d2 & d3 & d4 & d5 & d6 & -> & Hh & Hd & _).
    assert (Hdig : forall c, ascii_digit c -> is_linebreak c = false).
    { intros c Hc. unfold ascii_digit in Hc. unfold is_linebreak, in_range.
      repeat (apply orb_false_iff; split);
        first [apply andb_false_iff; (left; apply Z.leb_gt; lia)
                                     || (right; apply Z.leb_gt; lia)
              | apply Z.eqb_neq; lia]. }
    unfold single_line. apply Forall_app. split.
    + eapply Forall_impl; [|exact Hh]. exact Hdig.
    + repeat match goal with
             | H : Forall _ (_ :: _) |- _ => inversion H; clear H; subst
             end.
      repeat (apply Forall_cons; [first [now apply Hdig | reflexivity]|]).
      apply Forall_nil.
Qed.

Lemma dialogue_as_line (start_ts end_ts style txt : str) :
  dialogue start_ts end_ts style txt
  = dialogue_line start_ts end_ts style txt ++ [NL].
Proof.
  unfold dialogue, dialogue_line. repeat rewrite <- app_assoc. reflexivity.
Qed.

Lemma single_line_app (a b : str) :
  single_line a -> single_line b -> single_line (a ++ b).
Proof. intros Ha Hb. apply Forall_app. split; assumption. Qed.

Lemma single_line_literal (s : str) :
  forallb (fun c => negb (is_linebreak c)) s = true -> single_line s.
Proof. apply single_line_forallb. Qed.

Lemma dialogue_line_single (a b : Z) (style txt : str) :
  0 <= a -> 0 <= b -> single_line style -> single_line txt ->
  single_line (dialogue_line (ms_to_ass_ts a) (ms_to_ass_ts b) style txt).
Proof.
  intros Ha Hb Hstyle Htxt. unfold dialogue_line.
  destruct (ms_to_ass_ts_facts a Ha) as (_ & Hsa & _).
  destruct (ms_to_ass_ts_facts b Hb) as (_ & Hsb & _).
  repeat (apply single_line_app;
          [first [assumption | apply single_line_literal; reflexivity]|]).
  assumption.
Qed.

(** With the lines of every segment known, [from_ass] on the output of
    [to_ass] is the loop over those lines, started behind the header. *)
Lemma from_ass_of_lines (layout : str) (d : ASRData)
      (lines_of : ASRDataSeg -> list str) :
  Forall (fun seg => Forall single_line (lines_of seg)
                     /\ ass_lines layout seg
                        = concat (map (fun l => l ++ [NL]) (lines_of seg)))
         (segments d) ->
  from_ass (to_ass None layout d)
  = match ass_loop true ([], []) (flat_map lines_of (segments d)) with
    | Ok (segs, temp_segments) => Ok (ASRData_init (segs ++ map snd temp_segments))
    | Raise e => Raise e
    end.
Proof.
  intros H.
  assert (E : to_ass None layout d
              = concat (map (fun l => l ++ [NL])
                            (ass_header_lines ++ flat_map lines_of (segments d)))).
  { rewrite to_ass_concat.
    rewrite (map_app (fun l => l ++ [NL]) ass_header_lines), concat_app.
    rewrite <- ass_header_as_lines. f_equal.
    induction H as [|seg l [_ Hseg] Hl IH]; [reflexivity|].
    cbn [map concat flat_map]. rewrite map_app, concat_app, Hseg, IH. reflexivity. }
  assert (Hsingle : Forall single_line
                           (ass_header_lines ++ flat_map lines_of (segments d))).
  { apply Forall_app. split; [apply ass_header_lines_single|]. clear E.
    induction H as [|seg l [Hseg _] Hl IH]; [constructor|].
    cbn [flat_map]. apply Forall_app. split; assumption. }
  unfold from_ass. cbv zeta.
  assert (Hc : contains generated_marker (to_ass None layout d) = true).
  { rewrite to_ass_concat. apply contains_app. vm_compute. reflexivity. }
  rewrite Hc. unfold splitlines. rewrite E, (splitlines_aux_lines _ Hsingle).
  rewrite ass_loop_app, ass_loop_header. reflexivity.
Qed.

Lemma single_line_dot (t : str) :
  single_line t -> Forall (fun c => cs_dot c = true) t.
Proof.
  intros H. eapply Forall_impl; [|exact H]. intros c Hc.
  unfold cs_dot, cs_not. apply negb_true_iff, Z.eqb_neq. intros ->. discriminate.
Qed.

(** What the loop does with a line [to_ass] wrote. *)
Lemma ass_line_step_dialogue (st : ass_state) (a b : Z) (style txt : str) :
  0 <= a -> 0 <= b ->
  Forall (fun x => cs_dot x = true /\ x <> 44) style -> strip style = style ->
  single_line txt ->
  ass_line_step true st (dialogue_line (ms_to_ass_ts a) (ms_to_ass_ts b) style txt)
  = let cleaned :=
      strip (replace [92; 78] [NL] (re_sub override_block_pattern [] txt)) in
    let time_key := str_of_int (10 * (a / 10)) ++ u "-" ++ str_of_int (10 * (b / 10)) in
    if is_empty cleaned then Ok st
    else
      match temp_get time_key (snd st) with
      | Some seg =>
          Ok (fst st ++ [put_by_style style cleaned seg], temp_del time_key (snd st))
      | None =>
          Ok (fst st,
              snd st ++ [(time_key,
                          put_by_style style cleaned
                                       (mkSeg [] [] (10 * (a / 10)) (10 * (b / 10))))])
      end.
Proof.
  intros Ha Hb Hstyle Hstrip Htxt.
  destruct (ms_to_ass_ts_facts a Ha) as (Hca & _ & Hpa).
  destruct (ms_to_ass_ts_facts b Hb) as (Hcb & _ & Hpb).
  destruct (dialogue_line_match _ _ style txt Hca Hcb Hstyle (single_line_dot _ Htxt))
    as (m & Em & G1 & G2 & G3 & G4).
  unfold ass_line_step. destruct st as [segs temp].
  fold (dialogue_line (ms_to_ass_ts a) (ms_to_ass_ts b) style txt) in Em.
  assert (Hsw : startswith (u "Dialogue:")
                           (dialogue_line (ms_to_ass_ts a) (ms_to_ass_ts b) style txt)
                = true) by reflexivity.
  rewrite Hsw, Em, G1, G2, G3, G4, Hpa, Hpb, Hstrip. cbv zeta. cbn [fst snd].
  destruct (is_empty _); [reflexivity|].
  destruct (temp_get _ temp); reflexivity.
Qed.

Lemma default_style_ok :
  Forall (fun x => cs_dot x = true /\ x <> 44) (u "Default")
  /\ strip (u "Default") = u "Default" /\ single_line (u "Default").
Proof.
  split; [|split; [reflexivity | apply single_line_literal; reflexivity]].
  repeat (apply Forall_cons; [split; [reflexivity | discriminate]|]).
  apply Forall_nil.
Qed.

Lemma secondary_style_ok :
  Forall (fun x => cs_dot x = true /\ x <> 44) (u "Secondary")
  /\ strip (u "Secondary") = u "Secondary" /\ single_line (u "Secondary").
Proof.
  split; [|split; [reflexivity | apply single_line_literal; reflexivity]].
  repeat (apply Forall_cons; [split; [reflexivity | discriminate]|]).
  apply Forall_nil.
Qed.

(** Lines of style [Default] alone never give a segment a text. *)
Lemma ass_loop_default_lines (lines : list str) :
  Forall (fun l => exists a b txt,
              0 <= a /\ 0 <= b /\ single_line txt
              /\ l = dialogue_line (ms_to_ass_ts a) (ms_to_ass_ts b) (u "Default") txt)
         lines ->
  forall st : ass_state,
    Forall (fun seg => text seg = []) (fst st) ->
    Forall (fun seg => text seg = []) (map snd (snd st)) ->
    exists st',
      ass_loop true st lines = Ok st'
      /\ Forall (fun seg => text seg = []) (fst st')
      /\ Forall (fun seg => text seg = []) (map snd (snd st')).
Proof.
  destruct default_style_ok as (D1 & D2 & _).
  induction 1 as [|l lines (a & b & txt & Ha & Hb & Htxt & ->) Hls IH];
    intros st H1 H2.
  - exists st. auto.
  - cbn [ass_loop]. rewrite (ass_line_step_dialogue st a b _ txt Ha Hb D1 D2 Htxt).
    cbv zeta. destruct (is_empty _); [now apply IH|].
    destruct (temp_get _ (snd st)) as [seg|] eqn:Eg.
    + apply IH; cbn [fst snd].
      * apply Forall_app. split; [assumption|]. constructor; [|constructor].
        change (put_by_style (u "Default") ?t seg) with (set_translated_text t seg).
        cbn [set_translated_text text].
        apply (proj1 (Forall_forall _ _) H2). exact (temp_get_In _ _ _ Eg).
      * apply Forall_forall. intros x Hx.
        apply (proj1 (Forall_forall _ _) H2). exact (temp_del_incl _ _ _ Hx).
    + apply IH; cbn [fst snd]; [assumption|].
      rewrite map_app. apply Forall_app. split; [assumption|].
      cbn [map snd]. constructor; [reflexivity | constructor].
Qed.

Lemma from_ass_default_lines (layout : str) (d : ASRData)
      (texts : ASRDataSeg -> list str) :
  Forall (fun seg =>
            times_not_negative seg /\ Forall single_line (texts seg)
            /\ ass_lines layout seg
               = concat (map (dialogue (ms_to_ass_ts (start_time seg))
                                       (ms_to_ass_ts (end_time seg)) (u "Default"))
                             (texts seg)))
         (segments d) ->
  from_ass (to_ass None layout d) = Ok (mkData []).
Proof.
  intros H. destruct default_style_ok as (_ & _ & D3).
  rewrite (from_ass_of_lines layout d
             (fun seg => map (dialogue_line (ms_to_ass_ts (start_time seg))
                                            (ms_to_ass_ts (end_time seg)) (u "Default"))
                             (texts seg))).
  - destruct (ass_loop_default_lines
                (flat_map (fun seg =>
                             map (dialogue_line (ms_to_ass_ts (start_time seg))
                                                (ms_to_ass_ts (end_time seg))
                                                (u "Default"))
                                 (texts seg)) (segments d)))
      with (st := (@nil ASRDataSeg, @nil (str * ASRDataSeg)))
      as ([segs temp] & -> & H1 & H2); [|constructor|constructor|].
    + induction H as [|seg l ([Ha Hb] & Hs & _) Hl IH]; [constructor|].
      cbn [flat_map]. apply Forall_app. split; [|exact IH].
      apply Forall_map. eapply Forall_impl; [|exact Hs].
      intros t Ht. exists (start_time seg), (end_time seg), t. auto.
    + f_equal. apply ASRData_init_nil. apply Forall_app. cbn [fst snd] in *.
      split; (eapply Forall_impl; [|eassumption]); intros seg ->; reflexivity.
  - eapply Forall_impl; [|exact H]. intros seg ([Ha Hb] & Hs & E). split.
    + apply Forall_map. eapply Forall_impl; [|exact Hs]. intros t Ht.
      now apply dialogue_line_single.
    + rewrite E, map_map. f_equal. apply map_ext. intros t.
      apply dialogue_as_line.
Qed.

(** X13. A file [to_ass] wrote with the default styles reads back as an
    empty document whenever it holds lines of style [Default] only:
    under any layout when no segment has a translation, and under the
    two one-line layouts in any case.  [from_ass] files the text of
    such a line as a translation and leaves the original text empty, so
    that the constructor drops the segment.  (Texts are taken to be
    single lines and times not to be negative.) *)
Theorem from_ass_to_ass_default_lines_lost (layout : str) (d : ASRData) :
  Forall (fun seg => times_not_negative seg /\ single_line (text seg)
                     /\ single_line (translated_text seg)) (segments d) ->
  (Forall (fun seg => nonblank (translated_text seg) = false) (segments d) ->
   from_ass (to_ass None layout d) = Ok (mkData []))
  /\ from_ass (to_ass None layout_original_only d) = Ok (mkData [])
  /\ from_ass (to_ass None layout_translation_only d) = Ok (mkData []).
Proof.
  intros H. split; [|split].
  - intros Hu.
    apply (from_ass_default_lines layout d
             (fun seg => if recognized_layout layout then [text seg] else [])).
    apply Forall_forall. intros seg Hin.
    destruct (proj1 (Forall_forall _ _) H seg Hin) as (Ht & Hs & _).
    pose proof (proj1 (Forall_forall _ _) Hu seg Hin) as Hn. cbv beta in Hn.
    split; [exact Ht|].
    destruct (recognized_layout layout) eqn:Er.
    + split; [repeat constructor; exact Hs|].
      rewrite (ass_lines_untranslated layout seg Er Hn).
      cbn [map concat]. rewrite app_nil_r. reflexivity.
    + split; [constructor|]. now apply ass_lines_unrecognized.
  - apply (from_ass_default_lines layout_original_only d (fun seg => [text seg])).
    eapply Forall_impl; [|exact H]. intros seg (Ht & Hs & _).
    split; [exact Ht|]. split; [repeat constructor; exact Hs|].
    cbn [map concat]. rewrite app_nil_r. reflexivity.
  - apply (from_ass_default_lines layout_translation_only d
             (fun seg => [if nonblank (translated_text seg)
                          then translated_text seg else text seg])).
    eapply Forall_impl; [|exact H]. intros seg (Ht & Hs & Hs').
    split; [exact Ht|]. split.
    + repeat constructor. now destruct (nonblank (translated_text seg)).
    + cbn [map concat]. rewrite app_nil_r. reflexivity.
Qed.

Lemma from_ass_to_ass_default_lines_lost_witness :
  segments two_line_doc <> []
  /\ from_ass (to_ass None layout_original_on_top two_line_doc) = Ok (mkData [])
  /\ from_ass (to_ass None layout_original_only bilingual_doc) = Ok (mkData []).
Proof.
  split; [discriminate|].
  assert (H2 : Forall (fun seg => times_not_negative seg /\ single_line (text seg)
                                  /\ single_line (translated_text seg))
                      (segments two_line_doc)).
  { repeat constructor; try (cbn; lia); apply single_line_literal; reflexivity. }
  assert (Hb : Forall (fun seg => times_not_negative seg /\ single_line (text seg)
                                  /\ single_line (translated_text seg))
                      (segments bilingual_doc)).
  { repeat constructor; try (cbn; lia); apply single_line_literal; reflexivity. }
  split.
  - apply (proj1 (from_ass_to_ass_default_lines_lost layout_original_on_top
                    two_line_doc H2)).
    repeat constructor.
  - exact (proj1 (proj2 (from_ass_to_ass_default_lines_lost layout_original_on_top
                           bilingual_doc Hb))).
Defined.

(** ** Reading back translated segments *)

Lemma re_sub_aux_no_start (r : regex) (c0 : Z) (w : str) (t : str) :
  Forall (fun c => c <> c0) t ->
  re_sub_aux (Cat (Lit (c0 :: w)) r) [] t 0 = t.
Proof.
  induction 1 as [|c t Hc Ht IH]; [reflexivity|].
  cbn [re_sub_aux]. unfold re_match. rewrite exec_cat, exec_lit_fail by assumption.
  now rewrite IH.
Qed.

Lemma replace_aux_no_start (c0 : Z) (w new t : str) :
  Forall (fun c => c <> c0) t -> replace_aux (c0 :: w) new t 0 = t.
Proof.
  induction 1 as [|c t Hc Ht IH]; [reflexivity|].
  cbn [replace_aux startswith].
  replace (c =? c0) with false by (symmetry; now apply Z.eqb_neq).
  cbn [andb]. now rewrite IH.
Qed.

Lemma ass_clean_plain (t : str) :
  ass_plain t ->
  strip (replace [92; 78] [NL] (re_sub override_block_pattern [] t)) = t.
Proof.
  intros (_ & Hs & _ & Hc). unfold re_sub, override_block_pattern, replace.
  change (u "{") with [123].
  rewrite re_sub_aux_no_start
    by (eapply Forall_impl; [|exact Hc]; intros c [H _]; exact H).
  rewrite replace_aux_no_start
    by (eapply Forall_impl; [|exact Hc]; intros c [_ H]; exact H).
  exact Hs.
Qed.

Lemma ass_plain_nonblank (t : str) : ass_plain t -> nonblank t = true.
Proof.
  intros (_ & Hs & Hne & _). unfold nonblank. rewrite Hs.
  destruct t; [congruence | reflexivity].
Qed.

Lemma ass_plain_single (t : str) : ass_plain t -> single_line t.
Proof. intros H. apply H. Qed.

(** Two lines with the same times, the first of style [Secondary] and
    the second of style [Default], make one segment: the text of the
    first line becomes the original text and the text of the second
    the translation. *)
Lemma ass_loop_pair (segs : list ASRDataSeg) (a b : Z) (t1 t2 : str) :
  0 <= a -> 0 <= b -> ass_plain t1 -> ass_plain t2 ->
  ass_loop true (segs, [])
           [dialogue_line (ms_to_ass_ts a) (ms_to_ass_ts b) (u "Secondary") t1;
            dialogue_line (ms_to_ass_ts a) (ms_to_ass_ts b) (u "Default") t2]
  = Ok (segs ++ [mkSeg t1 t2 (10 * (a / 10)) (10 * (b / 10))], []).
Proof.
  intros Ha Hb H1 H2.
  destruct default_style_ok as (D1 & D2 & _).
  destruct secondary_style_ok as (S1 & S2 & _).
  cbn [ass_loop].
  rewrite (ass_line_step_dialogue _ a b _ t1 Ha Hb S1 S2 (ass_plain_single _ H1)).
  cbv zeta. rewrite (ass_clean_plain t1 H1).
  destruct t1 as [|c1 t1]; [destruct H1 as (_ & _ & F & _); congruence|].
  cbn [is_empty snd fst temp_get app].
  rewrite (ass_line_step_dialogue _ a b _ t2 Ha Hb D1 D2 (ass_plain_single _ H2)).
  cbv zeta. rewrite (ass_clean_plain t2 H2).
  destruct t2 as [|c2 t2]; [destruct H2 as (_ & _ & F & _); congruence|].
  cbn [is_empty snd fst temp_get temp_del]. rewrite str_eqb_refl.
  reflexivity.
Qed.

Lemma ass_loop_pairs (f : ASRDataSeg -> str * str) (l : list ASRDataSeg) :
  Forall (fun seg => times_not_negative seg
                     /\ ass_plain (fst (f seg)) /\ ass_plain (snd (f seg))) l ->
  forall segs,
    ass_loop true (segs, [])
      (flat_map (fun seg =>
                   [dialogue_line (ms_to_ass_ts (start_time seg))
                                  (ms_to_ass_ts (end_time seg))
                                  (u "Secondary") (fst (f seg));
                    dialogue_line (ms_to_ass_ts (start_time seg))
                                  (ms_to_ass_ts (end_time seg))
                                  (u "Default") (snd (f seg))]) l)
    = Ok (segs ++ map (fun seg => mkSeg (fst (f seg)) (snd (f seg))
                                        (10 * (start_time seg / 10))
                                        (10 * (end_time seg / 10))) l, []).
Proof.
  induction 1 as [|seg l ([Ha Hb] & H1 & H2) Hl IH]; intros segs.
  - cbn [flat_map map ass_loop]. now rewrite app_nil_r.
  - cbn [flat_map map].
    rewrite ass_loop_app, (ass_loop_pair segs _ _ _ _ Ha Hb H1 H2), IH.
    rewrite <- app_assoc. reflexivity.
Qed.

Lemma from_ass_pairs (layout : str) (d : ASRData) (f : ASRDataSeg -> str * str) :
  Forall (fun seg =>
            times_not_negative seg
            /\ ass_plain (fst (f seg)) /\ ass_plain (snd (f seg))
            /\ ass_lines layout seg
               = dialogue (ms_to_ass_ts (start_time seg)) (ms_to_ass_ts (end_time seg))
                          (u "Secondary") (fst (f seg))
                 ++ dialogue (ms_to_ass_ts (start_time seg))
                             (ms_to_ass_ts (end_time seg))
                             (u "Default") (snd (f seg)))
         (segments d) ->
  from_ass (to_ass None layout d)
  = Ok (ASRData_init
          (map (fun seg => mkSeg (fst (f seg)) (snd (f seg))
                                 (10 * (start_time seg / 10))
                                 (10 * (end_time seg / 10))) (segments d))).
Proof.
  intros H. destruct default_style_ok as (_ & _ & D3).
  destruct secondary_style_ok as (_ & _ & S3).
  rewrite (from_ass_of_lines layout d
             (fun seg =>
                [dialogue_line (ms_to_ass_ts (start_time seg))
                               (ms_to_ass_ts (end_time seg))
                               (u "Secondary") (fst (f seg));
                 dialogue_line (ms_to_ass_ts (start_time seg))
                               (ms_to_ass_ts (end_time seg))
                               (u "Default") (snd (f seg))])).
  - rewrite (ass_loop_pairs f (segments d)).
    + cbn [app map]. now rewrite app_nil_r.
    + eapply Forall_impl; [|exact H]. intros seg (Ht & H1 & H2 & _). auto.
  - eapply Forall_impl; [|exact H]. intros seg ([Ha Hb] & H1 & H2 & E). split.
    + apply Forall_cons; [|apply Forall_cons; [|apply Forall_nil]];
        apply dialogue_line_single; auto using ass_plain_single.
    + rewrite E. cbn [map concat]. rewrite app_nil_r, !dialogue_as_line.
      reflexivity.
Qed.

(** X14. A document whose segments all have a translation survives
    [to_ass] followed by [from_ass] under the translation-on-top
    layout, with times cut down to hundredths of a second; under the
    original-on-top layout, the default of [to_ass], original and
    translated text come back exchanged.  (Texts are taken to be plain
    single lines and times not to be negative.) *)
Theorem from_ass_to_ass_translated (d : ASRData) :
  Forall (fun seg => times_not_negative seg /\ ass_plain (text seg)
                     /\ ass_plain (translated_text seg)) (segments d) ->
  from_ass (to_ass None layout_translation_on_top d)
  = Ok (ASRData_init (map to_centiseconds (segments d)))
  /\ from_ass (to_ass None layout_original_on_top d)
     = Ok (ASRData_init (map (fun seg => swap_texts (to_centiseconds seg))
                             (segments d))).
Proof.
  intros H. split.
  - rewrite (from_ass_pairs layout_translation_on_top d
               (fun seg => (text seg, translated_text seg))).
    + reflexivity.
    + eapply Forall_impl; [|exact H]. intros seg (Ht & H1 & H2).
      split; [exact Ht|]. split; [exact H1|]. split; [exact H2|].
      unfold ass_lines, to_ass_ts. rewrite (ass_plain_nonblank _ H2). reflexivity.
  - rewrite (from_ass_pairs layout_original_on_top d
               (fun seg => (translated_text seg, text seg))).
    + reflexivity.
    + eapply Forall_impl; [|exact H]. intros seg (Ht & H1 & H2).
      split; [exact Ht|]. split; [exact H2|]. split; [exact H1|].
      unfold ass_lines, to_ass_ts. rewrite (ass_plain_nonblank _ H2). reflexivity.
Qed.

Lemma ass_plain_literal (t : str) :
  forallb (fun c => negb (is_linebreak c)) t = true ->
  str_eqb (strip t) t = true ->
  is_empty t = false ->
  forallb (fun c => negb (c =? 123) && negb (c =? 92)) t = true ->
  ass_plain t.
Proof.
  intros H1 H2 H3 H4. split; [now apply single_line_literal|].
  split; [now apply str_eqb_eq|]. split; [intros ->; discriminate|].
  apply forallb_true_Forall in H4. eapply Forall_impl; [|exact H4].
  intros c Hc. apply andb_true_iff in Hc. destruct Hc as [Ha Hb].
  apply negb_true_iff in Ha, Hb. split; now apply Z.eqb_neq.
Defined.

Lemma from_ass_to_ass_translated_witness :
  from_ass (to_ass None layout_translation_on_top translated_doc)
  = Ok (mkData [mkSeg (u "hello world") (u "bonjour le monde") 0 1230;
                mkSeg (u "good bye now") (u "au revoir") 1200 3723000])
  /\ from_ass (to_ass None layout_original_on_top translated_doc)
     = Ok (mkData [mkSeg (u "bonjour le monde") (u "hello world") 0 1230;
                   mkSeg (u "au revoir") (u "good bye now") 1200 3723000]).
Proof.
  assert (H : Forall (fun seg => times_not_negative seg /\ ass_plain (text seg)
                                 /\ ass_plain (translated_text seg))
                     (segments translated_doc)).
  { repeat constructor; try (cbn; lia); apply ass_plain_literal; reflexivity. }
  destruct (from_ass_to_ass_translated translated_doc H) as [H1 H2].
  split; [rewrite H1 | rewrite H2]; reflexivity.
Defined.

(** ** What every parser returns *)

Lemma int_of_group_nonneg (s : str) : 0 <= int_of_group s.
Proof.
  unfold int_of_group, int_of_str. destruct s as [|c s]; [lia|].
  assert (H : forall w a, 0 <= a ->
                          match int_digits a w with Some n => 0 <= n | None => True end).
  { induction w as [|x w IH]; intros a Ha; cbn [int_digits]; [exact Ha|].
    destruct (decimal_value x) as [dv|] eqn:E; [|exact I].
    apply decimal_in_range in E. apply IH. lia. }
  specialize (H (c :: s) 0 ltac:(lia)).
  destruct (int_digits 0 (c :: s)); [exact H | lia].
Qed.

Lemma time_of_parts_nonneg (h m s ms : Z) :
  0 <= h -> 0 <= m -> 0 <= s -> 0 <= ms -> 0 <= time_of_parts h m s ms.
Proof. unfold time_of_parts. lia. Qed.

Lemma Forall_flat_map_each {A B : Type} (P : B -> Prop) (f : A -> list B) (l : list A) :
  (forall x, Forall P (f x)) -> Forall P (flat_map f l).
Proof.
  intros H. induction l as [|x l IH]; cbn [flat_map]; [constructor|].
  apply Forall_app. split; [apply H | exact IH].
Qed.

Lemma srt_block_segment_times (flag : bool) (block : str) :
  Forall times_not_negative (srt_block_segment flag block).
Proof.
  unfold srt_block_segment.
  destruct (splitlines block) as [|l0 [|l1 [|l2 more]]]; try constructor.
  destruct (re_match srt_time_pattern l1) as [m|]; [|constructor].
  assert (H : forall t tr,
             times_not_negative
               (mkSeg t tr
                  (time_of_parts (int_of_group (group 1 m)) (int_of_group (group 2 m))
                                 (int_of_group (group 3 m)) (int_of_group (group 4 m)))
                  (time_of_parts (int_of_group (group 5 m)) (int_of_group (group 6 m))
                                 (int_of_group (group 7 m)) (int_of_group (group 8 m))))).
  { intros t tr. split; apply time_of_parts_nonneg; apply int_of_group_nonneg. }
  destruct flag, more; repeat constructor; apply H.
Qed.

Lemma vtt_cue_segment_times (block : str) :
  Forall times_not_negative (vtt_cue_segment block).
Proof.
  unfold vtt_cue_segment.
  destruct (split_on NL (strip block)) as [|l0 [|l1 more]]; try constructor.
  destruct (vtt_cue_times _) as [[a b]|] eqn:E; [|constructor].
  destruct (negb _ && negb _); [|constructor].
  repeat constructor; unfold vtt_cue_times in E.
  - destruct (re_match from_vtt_timestamp_pattern _) as [m|].
    + injection E as <- _. cbn [start_time].
      apply time_of_parts_nonneg; apply int_of_group_nonneg.
    + destruct (re_match from_vtt_timestamp_pattern2 _) as [m|]; [|discriminate].
      injection E as <- _. cbn [start_time].
      pose proof (int_of_group_nonneg (group 1 m)).
      pose proof (int_of_group_nonneg (group 2 m)).
      pose proof (int_of_group_nonneg (group 3 m)). lia.
  - destruct (re_match from_vtt_timestamp_pattern _) as [m|].
    + injection E as _ <-. cbn [end_time].
      apply time_of_parts_nonneg; apply int_of_group_nonneg.
    + destruct (re_match from_vtt_timestamp_pattern2 _) as [m|]; [|discriminate].
      injection E as _ <-. cbn [end_time].
      pose proof (int_of_group_nonneg (group 4 m)).
      pose proof (int_of_group_nonneg (group 5 m)).
      pose proof (int_of_group_nonneg (group 6 m)). lia.
Qed.

Lemma not_negative_add (x y : spec_float) :
  not_negative x -> not_negative y -> not_negative (SF64add x y).
Proof.
  unfold SF64add, SFadd. destruct x, y; simpl; intros; subst; auto;
    try reflexivity.
  cbn [cond_Zopp]. unfold binary_normalize.
  destruct (fst (shl_align m e (IntDef.Z.min e e0))),
           (fst (shl_align m0 e0 (IntDef.Z.min e e0)));
    cbn [Z.add]; apply not_negative_round.
Qed.

Lemma not_negative_float_of_str (s : str) :
  not_negative (Prim2SF (float_of_str s)).
Proof.
  unfold float_of_str. destruct (split_on 46 s) as [|ip [|fp [|x l]]].
  - reflexivity.
  - apply not_negative_float_of_int, int_of_group_nonneg.
  - unfold true_div. rewrite div_spec.
    apply not_negative_div; apply not_negative_float_of_int.
    + apply int_of_group_nonneg.
    + apply Z.pow_nonneg. lia.
  - reflexivity.
Qed.

Lemma parse_timestamp_nonneg (ts : str) : 0 <= parse_timestamp ts.
Proof.
  unfold parse_timestamp.
  destruct (split_on 58 ts) as [|h [|m [|s [|x l]]]]; try lia.
  apply int_of_float_nonneg. rewrite !add_spec.
  repeat apply not_negative_add; rewrite mul_spec; apply not_negative_mul;
    first [apply not_negative_float_of_str | apply not_negative_float_of_int; lia].
Qed.

Lemma vtt_block_segments_times (block : str) :
  Forall times_not_negative (vtt_block_segments block).
Proof.
  unfold vtt_block_segments.
  destruct (re_match vtt_timestamp_pattern _) as [m|]; [|constructor].
  destruct (re_search timestamp_row_pattern block) as [[before row]|]; [|constructor].
  unfold split_timestamped_text. apply Forall_flat_map_each. intros i.
  unfold word_segment_at.
  destruct (nth_error _ i) as [cm|]; [|constructor].
  destruct (nth_error _ (S i)) as [nm|]; [|constructor].
  destruct (is_empty _); [constructor|].
  repeat constructor; apply parse_timestamp_nonneg.
Qed.

(** X15. Whatever the input, the documents [from_srt], [from_vtt] and
    [from_youtube_vtt] return are sorted by start time, hold no segment
    with a blank text, and hold no negative time. *)
Theorem parsers_return_valid_documents (s : str) :
  (doc_invariant (from_srt s) /\ Forall times_not_negative (segments (from_srt s)))
  /\ (doc_invariant (from_vtt s) /\ Forall times_not_negative (segments (from_vtt s)))
  /\ (doc_invariant (from_youtube_vtt s)
      /\ Forall times_not_negative (segments (from_youtube_vtt s))).
Proof.
  split; [|split]; (split; [apply ASRData_init_invariant|]);
    apply ASRData_init_Forall, Forall_flat_map_each.
  - apply srt_block_segment_times.
  - apply vtt_cue_segment_times.
  - apply vtt_block_segments_times.
Qed.

(** ** Translations in SRT files *)

(** X16. One block of more than four lines anywhere in the file is enough
    for [from_srt] to read no translation at all: every segment comes
    back with an empty translated text, also those of blocks that have
    exactly four lines. *)
Theorem from_srt_long_block_disables_translations (srt_str : str) (block : str) :
  In block (srt_blocks srt_str) -> (4 < length (splitlines block))%nat ->
  srt_has_translation (srt_blocks srt_str) = false
  /\ Forall (fun seg => translated_text seg = []) (segments (from_srt srt_str)).
Proof.
  intros Hin Hlen.
  assert (E : srt_has_translation (srt_blocks srt_str) = false).
  { unfold srt_has_translation. cbv zeta.
    destruct (forallb (fun count => Nat.leb count 4)
                      (map (fun b => length (splitlines b)) (srt_blocks srt_str)))
      eqn:Ef; [|now rewrite andb_false_r].
    exfalso. rewrite forallb_forall in Ef.
    specialize (Ef (length (splitlines block))
                   (in_map (fun b => length (splitlines b)) _ _ Hin)).
    apply Nat.leb_le in Ef. lia. }
  split; [exact E|].
  unfold from_srt. cbv zeta. fold (srt_blocks srt_str). rewrite E.
  apply ASRData_init_Forall, Forall_flat_map_each. intros b.
  unfold srt_block_segment.
  destruct (splitlines b) as [|l0 [|l1 [|l2 more]]]; try constructor.
  destruct (re_match srt_time_pattern l1); repeat constructor.
Qed.

Lemma from_srt_long_block_disables_translations_witness :
  map (fun b => length (splitlines b)) (srt_blocks long_block_srt) = [4%nat; 5%nat]
  /\ segments (from_srt long_block_srt)
     = [mkSeg (u "one") [] 0 1000; mkSeg (u "two") [] 1000 2000]
  /\ Forall (fun seg => translated_text seg = []) (segments (from_srt long_block_srt)).
Proof.
  split; [vm_compute; reflexivity|]. split; [vm_compute; reflexivity|].
  apply (from_srt_long_block_disables_translations long_block_srt
           (u "2" ++ [NL] ++ u "00:00:01,000 --> 00:00:02,000" ++ [NL]
              ++ u "two" ++ [NL] ++ u "deux" ++ [NL] ++ u "zwei")).
  - vm_compute. right. left. reflexivity.
  - vm_compute. lia.
Defined.

(** ** Long paths *)

(** X17. [handle_long_path] returns the path itself unless the platform is
    Windows and the path is longer than 260 characters and has no
    extended-length prefix yet; it then puts that prefix in front of
    the absolute path.  Applying it twice is the same as applying it
    once, whatever the platform. *)
Theorem handle_long_path_idempotent
        (platform_system : str) (abspath : str -> str) (path : str) :
  (handle_long_path platform_system abspath path = path
   \/ handle_long_path platform_system abspath path
      = long_path_prefix ++ abspath path)
  /\ ((length path <= 260)%nat -> handle_long_path platform_system abspath path = path)
  /\ (platform_system <> u "Windows" ->
      handle_long_path platform_system abspath path = path)
  /\ handle_long_path platform_system abspath
                      (handle_long_path platform_system abspath path)
     = handle_long_path platform_system abspath path.
Proof.
  unfold handle_long_path.
  destruct (str_eqb platform_system (u "Windows")) eqn:Ew.
  - destruct (Nat.ltb 260 (length path)) eqn:El.
    + destruct (startswith long_path_prefix path) eqn:Es; cbn [negb andb].
      * split; [now left|]. split; [reflexivity|]. split; [reflexivity|].
        rewrite El, Es. reflexivity.
      * split; [now right|]. split.
        { intros H. apply Nat.ltb_lt in El. lia. }
        split.
        { intros H. apply str_eqb_eq in Ew. contradiction. }
        assert (Ep : startswith long_path_prefix (long_path_prefix ++ abspath path)
                     = true).
        { apply startswith_app. reflexivity. }
        rewrite Ep. now rewrite andb_false_r.
    + cbn [andb]. split; [now left|]. split; [reflexivity|]. split; [reflexivity|].
      now rewrite El.
  - split; [now left|]. repeat split; reflexivity.
Qed.

Lemma handle_long_path_idempotent_witness :
  handle_long_path (u "Windows") (fun p => u "C:/work/" ++ p) (u "out.srt")
  = u "out.srt"
  /\ handle_long_path (u "Linux") (fun p => u "/work/" ++ p) (repeat 97 300)
     = repeat 97 300.
Proof.
  split.
  - apply (proj1 (proj2 (handle_long_path_idempotent
                           (u "Windows") (fun p => u "C:/work/" ++ p) (u "out.srt")))).
    vm_compute. lia.
  - apply (proj1 (proj2 (proj2 (handle_long_path_idempotent
                           (u "Linux") (fun p => u "/work/" ++ p) (repeat 97 300))))).
    vm_compute. discriminate.
Defined.

(** ** Input that is blank *)

Lemma lstrip_blank (s : str) :
  Forall (fun c => isspace c = true) s -> lstrip s = [].
Proof.
  induction 1 as [|c s Hc Hs IH]; [reflexivity|]. cbn [lstrip]. now rewrite Hc.
Qed.

Lemma strip_blank (s : str) :
  Forall (fun c => isspace c = true) s -> strip s = [].
Proof. intros H. unfold strip. now rewrite (lstrip_blank s H). Qed.

Lemma split_str_aux_Forall (P : Z -> Prop) (sep : str) (s : str) :
  Forall P s ->
  forall skip cur,
    Forall P cur -> Forall (Forall P) (split_str_aux sep s skip cur).
Proof.
  induction 1 as [|c s Hc Hs IH]; intros skip cur Hcur; cbn [split_str_aux].
  - repeat constructor. now apply Forall_rev.
  - destruct skip as [|n]; [|now apply IH].
    destruct (startswith sep (c :: s)).
    + constructor; [now apply Forall_rev | apply IH; constructor].
    + apply IH. now constructor.
Qed.

Lemma splitlines_aux_Forall (P : Z -> Prop) (s : str) (n : nat) :
  (length s <= n)%nat -> Forall P s ->
  forall cur, Forall P cur -> Forall (Forall P) (splitlines_aux s cur).
Proof.
  revert s. induction n as [|n IH]; intros s Hn Hs cur Hcur.
  - destruct s; [|cbn in Hn; lia]. cbn [splitlines_aux].
    destruct cur; repeat constructor. now apply Forall_rev.
  - destruct s as [|c s]; cbn [splitlines_aux].
    + destruct cur; repeat constructor. now apply Forall_rev.
    + inversion Hs as [|? ? Hc Hs']; subst. cbn [length] in Hn.
      destruct (is_linebreak c).
      * assert (Hgen : Forall (Forall P) (rev cur :: splitlines_aux s [])).
        { constructor; [now apply Forall_rev|]. apply IH; [lia | assumption | constructor]. }
        destruct c as [|p|p]; try exact Hgen.
        destruct s as [|c' s']; [do 4 (destruct p as [p|p|]; try exact Hgen)|].
        do 4 (destruct p as [p|p|]; try exact Hgen).
        destruct c' as [|q|q]; try exact Hgen.
        do 4 (destruct q as [q|q|]; try exact Hgen).
        constructor; [now apply Forall_rev|].
        inversion Hs' as [|? ? _ Hs'']; subst.
        apply IH; [cbn [length] in Hn; lia | assumption | constructor].
      * apply IH; [lia | assumption | now constructor].
Qed.

Lemma in_skipn_in {A : Type} (x : A) (n : nat) (l : list A) :
  In x (skipn n l) -> In x l.
Proof.
  revert l. induction n as [|n IH]; intros l H; [exact H|].
  destruct l as [|y l]; [exact H|]. right. now apply IH.
Qed.

Lemma ass_loop_blank_lines (ht : bool) (lines : list str) :
  Forall (Forall (fun c => isspace c = true)) lines ->
  forall st, ass_loop ht st lines = Ok st.
Proof.
  induction 1 as [|l lines Hl Hls IH]; intros st; [reflexivity|].
  cbn [ass_loop]. unfold ass_line_step at 1. destruct st as [segs temp].
  assert (E : startswith (u "Dialogue:") l = false).
  { destruct l as [|c l]; [reflexivity|]. inversion Hl as [|? ? Hc _]; subst.
    change (u "Dialogue:") with (68 :: u "ialogue:"). cbn [startswith].
    destruct (c =? 68) eqn:Ec; [|reflexivity].
    apply Z.eqb_eq in Ec. subst. discriminate. }
  rewrite E. apply IH.
Qed.

(** X18. An input made of white space only, the empty string included, gives
    the empty document with every parser. *)
Theorem blank_input_gives_empty_document (s : str) :
  Forall (fun c => isspace c = true) s ->
  from_srt s = mkData []
  /\ from_vtt s = mkData []
  /\ from_youtube_vtt s = mkData []
  /\ from_ass s = Ok (mkData []).
Proof.
  intros H. split; [|split; [|split]].
  - unfold from_srt. now rewrite (strip_blank s H).
  - unfold from_vtt. cbv zeta. apply ASRData_init_nil.
    assert (E : flat_map vtt_cue_segment (skipn 2 (split_str [NL; NL] s)) = []).
    { assert (Hb : Forall (Forall (fun c => isspace c = true))
                          (skipn 2 (split_str [NL; NL] s))).
      { apply Forall_forall. intros b Hin. apply in_skipn_in in Hin.
        revert b Hin. apply Forall_forall.
        apply split_str_aux_Forall; [assumption | constructor]. }
      induction Hb as [|b l Hb Hl IH]; [reflexivity|].
      cbn [flat_map]. rewrite IH, app_nil_r.
      unfold vtt_cue_segment. now rewrite (strip_blank b Hb). }
    rewrite E. constructor.
  - unfold from_youtube_vtt. now rewrite (strip_blank s H).
  - unfold from_ass. cbv zeta.
    rewrite ass_loop_blank_lines; [reflexivity|].
    apply (splitlines_aux_Forall _ s (length s)); [lia | assumption | constructor].
Qed.

Lemma blank_input_gives_empty_document_witness :
  from_srt (u "  " ++ [NL; NL; NL] ++ u " ") = mkData []
  /\ from_vtt (u "  " ++ [NL; NL; NL] ++ u " ") = mkData []
  /\ from_youtube_vtt [] = mkData []
  /\ from_ass [] = Ok (mkData []).
Proof.
  assert (H : Forall (fun c => isspace c = true) (u "  " ++ [NL; NL; NL] ++ u " "))
    by (repeat constructor).
  destruct (blank_input_gives_empty_document _ H) as (H1 & H2 & _).
  destruct (blank_input_gives_empty_document [] (Forall_nil _)) as (_ & _ & H3 & H4).
  auto.
Defined.

(** ** SRT times out of range *)

(** From 100 on a number is written with three digits or more. *)
Lemma str_of_int_three_digits (h : Z) :
  100 <= h ->
  exists d1 d2 d3 rest,
    str_of_int h = d1 :: d2 :: d3 :: rest
    /\ ascii_digit d1 /\ ascii_digit d2 /\ ascii_digit d3.
Proof.
  intros Hh. destruct (str_of_int_digits h ltac:(lia)) as (ds & E & Hne & Hall & Hv).
  specialize (Hv 0 []). rewrite app_nil_r in Hv. cbn [int_digits] in Hv.
  rewrite E. destruct ds as [|d1 [|d2 [|d3 rest]]].
  - congruence.
  - exfalso. inversion Hall as [|? ? H1 _]; subst. cbn [int_digits length] in Hv.
    rewrite decimal_value_ascii in Hv by assumption. cbn [int_digits] in Hv.
    injection Hv as Hv. change (Z.of_nat 1) with 1 in Hv. lia.
  - exfalso. inversion Hall as [|? ? H1 Hall']; subst.
    inversion Hall' as [|? ? H2 _]; subst. cbn [int_digits length] in Hv.
    rewrite !decimal_value_ascii in Hv by assumption. cbn [int_digits] in Hv.
    injection Hv as Hv. change (Z.of_nat 2) with 2 in Hv. lia.
  - inversion Hall as [|? ? H1 Hall']; subst.
    inversion Hall' as [|? ? H2 Hall'']; subst.
    inversion Hall'' as [|? ? H3 _]; subst.
    exists d1, d2, d3, rest. auto.
Qed.

(** The pattern of one time does not read a time [to_srt] wrote for a
    negative number of milliseconds or for 100 hours or more. *)
Lemma exec_srt_time_out_of_range (R : Type) (n : nat) (a : Z)
      (rest acc : str) (g : groups) (k : cont R) :
  ~ srt_time_ok a ->
  exec (srt_time n) (ms_to_srt_time a ++ rest) acc g k = None.
Proof.
  unfold srt_time_ok. intros Ha. unfold ms_to_srt_time. cbv zeta.
  set (h := a / 1000 / 60 / 60).
  assert (Hh : h < 0 \/ 100 <= h).
  { unfold h. destruct (Z_lt_dec a 0) as [Hn | Hp].
    - left.
      assert (H1 : a / 1000 < 0) by (apply Z.div_lt_upper_bound; lia).
      assert (H2 : a / 1000 / 60 < 0) by (apply Z.div_lt_upper_bound; lia).
      apply Z.div_lt_upper_bound; lia.
    - right. rewrite !Z.div_div by lia. apply Z.div_le_lower_bound; lia. }
  unfold srt_time. change (u ":") with [58]. rewrite exec_cat, exec_group.
  destruct Hh as [Hh | Hh].
  - unfold fmt_int at 1.
    replace (h <? 0) with true by (symmetry; apply Z.ltb_lt; lia).
    cbn [app Rep exec]. reflexivity.
  - unfold fmt_int at 1, zfill.
    replace (h <? 0) with false by (symmetry; apply Z.ltb_ge; lia).
    destruct (str_of_int_three_digits h Hh) as (d1 & d2 & d3 & r & -> & H1 & H2 & H3).
    cbn [length Nat.sub repeat app].
    rewrite exec_rep2 by (now apply isdecimal_ascii).
    rewrite exec_cat. apply exec_lit_fail. unfold ascii_digit in H3. lia.
Qed.

(** X19. A segment that starts or ends before zero or at 100 hours or later
    is written by [to_srt] with a time line that [from_srt] does not
    recognise, so that the block of the segment is passed over. *)
Theorem srt_time_out_of_range_not_read (seg : ASRDataSeg) :
  ~ srt_time_ok (start_time seg) \/ ~ srt_time_ok (end_time seg) ->
  re_match srt_time_pattern (to_srt_ts seg) = None
  /\ forall flag block line0 more,
       splitlines block = line0 :: to_srt_ts seg :: more ->
       srt_block_segment flag block = [].
Proof.
  intros H.
  assert (E : re_match srt_time_pattern (to_srt_ts seg) = None).
  { unfold re_match, srt_time_pattern, to_srt_ts.
    destruct (Z_lt_dec (start_time seg) 0) as [Hs | Hs];
      [rewrite exec_cat; apply exec_srt_time_out_of_range; unfold srt_time_ok; lia|].
    destruct (Z_lt_dec (start_time seg) 360000000) as [Hs' | Hs'];
      [|rewrite exec_cat; apply exec_srt_time_out_of_range; unfold srt_time_ok; lia].
    assert (He : ~ srt_time_ok (end_time seg)).
    { destruct H as [H | H]; [|exact H]. exfalso. apply H. unfold srt_time_ok. lia. }
    destruct (ms_to_srt_time_shape (start_time seg))
      as (d1 & d2 & d3 & d4 & d5 & d6 & d7 & d8 & d9 & -> & Hd & _);
      [unfold srt_time_ok; lia|].
    change (u " --> ") with [32; 45; 45; 62; 32]. change (u "-->") with [45; 45; 62].
    cbn [app]. rewrite exec_cat.
    rewrite (exec_srt_time _ 0) by (assumption || reflexivity).
    rewrite exec_cat. cbn [exec]. change (isspace 32) with true. cbv iota.
    change (45 :: 45 :: 62 :: 32 :: ?r) with ([45; 45; 62] ++ 32 :: r).
    rewrite exec_lit. change (isspace 32) with true. cbv iota.
    rewrite <- (app_nil_r (ms_to_srt_time (end_time seg))).
    now apply exec_srt_time_out_of_range. }
  split; [exact E|].
  intros flag block line0 more Hl. unfold srt_block_segment. rewrite Hl.
  destruct more as [|line2 more]; [reflexivity|]. now rewrite E.
Qed.

Lemma srt_time_out_of_range_not_read_witness :
  to_srt_ts (mkSeg (u "late") [] 360000000 360001000)
  = u "100:00:00,000 --> 100:00:01,000"
  /\ re_match srt_time_pattern
              (to_srt_ts (mkSeg (u "late") [] 360000000 360001000)) = None
  /\ segments (from_srt (to_srt layout_original_only
                                (mkData [mkSeg (u "late") [] 360000000 360001000])))
     = [].
Proof.
  split; [vm_compute; reflexivity|].
  split; [|vm_compute; reflexivity].
  apply (srt_time_out_of_range_not_read (mkSeg (u "late") [] 360000000 360001000)).
  left. unfold srt_time_ok. cbn [start_time]. lia.
Defined.

(** ** WebVTT cues: the time line *)

Lemma vtt_long_clock_shape (a : Z) :
  srt_time_ok a ->
  exists d1 d2 d3 d4 d5 d6 d7 d8 d9,
    vtt_long_clock a = [d1; d2; 58; d3; d4; 58; d5; d6; 46; d7; d8; d9]
    /\ Forall ascii_digit [d1; d2; d3; d4; d5; d6; d7; d8; d9]
    /\ time_of_parts ((d1 - 48) * 10 + (d2 - 48)) ((d3 - 48) * 10 + (d4 - 48))
                     ((d5 - 48) * 10 + (d6 - 48))
                     (((d7 - 48) * 10 + (d8 - 48)) * 10 + (d9 - 48))
       = a.
Proof.
  unfold srt_time_ok. intros Ha. unfold vtt_long_clock.
  set (h := a / 3600000). set (mi := a / 60000 mod 60).
  set (sec := a / 1000 mod 60). set (ms := a mod 1000).
  assert (Hms : 0 <= ms < 1000) by (apply Z.mod_pos_bound; lia).
  assert (Hsec : 0 <= sec < 60) by (apply Z.mod_pos_bound; lia).
  assert (Hmi : 0 <= mi < 60) by (apply Z.mod_pos_bound; lia).
  assert (Hh : 0 <= h < 100).
  { unfold h. split; [apply Z.div_pos; lia | apply Z.div_lt_upper_bound; lia]. }
  assert (Ea : a = 3600000 * h + 60000 * mi + 1000 * sec + ms).
  { unfold h, mi, sec, ms.
    pose proof (Z.div_mod a 1000 ltac:(lia)).
    pose proof (Z.div_mod (a / 1000) 60 ltac:(lia)).
    pose proof (Z.div_mod (a / 1000 / 60) 60 ltac:(lia)).
    replace (a / 60000) with (a / 1000 / 60) by (rewrite Z.div_div by lia; reflexivity).
    replace (a / 3600000) with (a / 1000 / 60 / 60)
      by (rewrite !Z.div_div by lia; reflexivity).
    lia. }
  rewrite !fmt_int_2, fmt_int_3 by lia.
  do 9 eexists. split; [reflexivity|].
  pose proof (Z.div_mod h 10 ltac:(lia)). pose proof (Z.mod_pos_bound h 10 ltac:(lia)).
  pose proof (Z.div_mod mi 10 ltac:(lia)). pose proof (Z.mod_pos_bound mi 10 ltac:(lia)).
  pose proof (Z.div_mod sec 10 ltac:(lia)). pose proof (Z.mod_pos_bound sec 10 ltac:(lia)).
  pose proof (Z.div_mod ms 10 ltac:(lia)). pose proof (Z.mod_pos_bound ms 10 ltac:(lia)).
  pose proof (Z.div_mod (ms / 10) 10 ltac:(lia)).
  pose proof (Z.mod_pos_bound (ms / 10) 10 ltac:(lia)).
  assert (E100 : ms / 100 = ms / 10 / 10) by (rewrite Z.div_div by lia; reflexivity).
  split.
  - unfold ascii_digit. repeat constructor; lia.
  - unfold time_of_parts. lia.
Qed.

Lemma vtt_short_clock_shape (a : Z) :
  0 <= a < 6000000 ->
  exists d1 d2 d3 d4 d5 d6 d7,
    vtt_short_clock a = [d1; d2; 58; d3; d4; 46; d5; d6; d7]
    /\ Forall ascii_digit [d1; d2; d3; d4; d5; d6; d7]
    /\ ((d1 - 48) * 10 + (d2 - 48)) * 60000 + ((d3 - 48) * 10 + (d4 - 48)) * 1000
       + (((d5 - 48) * 10 + (d6 - 48)) * 10 + (d7 - 48))
       = a.
Proof.
  intros Ha. unfold vtt_short_clock.
  set (mi := a / 60000). set (sec := a / 1000 mod 60). set (ms := a mod 1000).
  assert (Hms : 0 <= ms < 1000) by (apply Z.mod_pos_bound; lia).
  assert (Hsec : 0 <= sec < 60) by (apply Z.mod_pos_bound; lia).
  assert (Hmi : 0 <= mi < 100).
  { unfold mi. split; [apply Z.div_pos; lia | apply Z.div_lt_upper_bound; lia]. }
  assert (Ea : a = 60000 * mi + 1000 * sec + ms).
  { unfold mi, sec, ms.
    pose proof (Z.div_mod a 1000 ltac:(lia)).
    pose proof (Z.div_mod (a / 1000) 60 ltac:(lia)).
    replace (a / 60000) with (a / 1000 / 60) by (rewrite Z.div_div by lia; reflexivity).
    lia. }
  rewrite !fmt_int_2, fmt_int_3 by lia.
  do 7 eexists. split; [reflexivity|].
  pose proof (Z.div_mod mi 10 ltac:(lia)). pose proof (Z.mod_pos_bound mi 10 ltac:(lia)).
  pose proof (Z.div_mod sec 10 ltac:(lia)). pose proof (Z.mod_pos_bound sec 10 ltac:(lia)).
  pose proof (Z.div_mod ms 10 ltac:(lia)). pose proof (Z.mod_pos_bound ms 10 ltac:(lia)).
  pose proof (Z.div_mod (ms / 10) 10 ltac:(lia)).
  pose proof (Z.mod_pos_bound (ms / 10) 10 ltac:(lia)).
  assert (E100 : ms / 100 = ms / 10 / 10) by (rewrite Z.div_div by lia; reflexivity).
  split.
  - unfold ascii_digit. repeat constructor; lia.
  - lia.
Qed.

Lemma exec_rep3 (R : Type) (p : Z -> bool) (k : cont R) (g : groups)
      (d1 d2 d3 : Z) (rest acc : str) :
  p d1 = true -> p d2 = true -> p d3 = true ->
  exec (Rep 3 p) (d1 :: d2 :: d3 :: rest) acc g k = k rest (d3 :: d2 :: d1 :: acc) g.
Proof. intros H1 H2 H3. cbn [Rep exec]. now rewrite H1, H2, H3. Qed.

Lemma exec_vtt_long_time (R : Type) (n : nat) (d1 d2 d3 d4 d5 d6 d7 d8 d9 : Z)
      (s acc : str) (g : groups) (k : cont R) :
  Forall ascii_digit [d1; d2; d3; d4; d5; d6; d7; d8; d9] ->
  exec (vtt_long_time n)
       (d1 :: d2 :: 58 :: d3 :: d4 :: 58 :: d5 :: d6 :: 46 :: d7 :: d8 :: d9 :: s)
       acc g k
  = k s (d9 :: d8 :: d7 :: 46 :: d6 :: d5 :: 58 :: d4 :: d3 :: 58 :: d2 :: d1 :: acc)
      (((n + 4)%nat, [d7; d8; d9]) :: ((n + 3)%nat, [d5; d6])
         :: ((n + 2)%nat, [d3; d4]) :: ((n + 1)%nat, [d1; d2]) :: g).
Proof.
  intros Hd.
  repeat match goal with
         | H : Forall _ (_ :: _) |- _ => inversion H; clear H; subst
         end.
  unfold vtt_long_time. change (u ":") with [58]. change (u ".") with [46].
  rewrite exec_cat, exec_group, exec_rep2 by (now apply isdecimal_ascii).
  rewrite exec_cat, exec_lit1.
  rewrite exec_cat, exec_group, exec_rep2 by (now apply isdecimal_ascii).
  rewrite exec_cat, exec_lit1.
  rewrite exec_cat, exec_group, exec_rep2 by (now apply isdecimal_ascii).
  rewrite exec_cat, exec_lit1.
  rewrite exec_group, exec_rep3 by (now apply isdecimal_ascii).
  reflexivity.
Qed.

Lemma exec_vtt_short_time (R : Type) (n : nat) (d1 d2 d3 d4 d5 d6 d7 : Z)
      (s acc : str) (g : groups) (k : cont R) :
  Forall ascii_digit [d1; d2; d3; d4; d5; d6; d7] ->
  exec (vtt_short_time n)
       (d1 :: d2 :: 58 :: d3 :: d4 :: 46 :: d5 :: d6 :: d7 :: s) acc g k
  = k s (d7 :: d6 :: d5 :: 46 :: d4 :: d3 :: 58 :: d2 :: d1 :: acc)
      (((n + 3)%nat, [d5; d6; d7]) :: ((n + 2)%nat, [d3; d4])
         :: ((n + 1)%nat, [d1; d2]) :: g).
Proof.
  intros Hd.
  repeat match goal with
         | H : Forall _ (_ :: _) |- _ => inversion H; clear H; subst
         end.
  unfold vtt_short_time. change (u ":") with [58]. change (u ".") with [46].
  rewrite exec_cat, exec_group, exec_rep2 by (now apply isdecimal_ascii).
  rewrite exec_cat, exec_lit1.
  rewrite exec_cat, exec_group, exec_rep2 by (now apply isdecimal_ascii).
  rewrite exec_cat, exec_lit1.
  rewrite exec_group, exec_rep3 by (now apply isdecimal_ascii).
  reflexivity.
Qed.

(** The pattern with hours does not read a time without hours. *)
Lemma exec_vtt_long_time_on_short (R : Type) (n : nat) (d1 d2 d3 d4 : Z)
      (s acc : str) (g : groups) (k : cont R) :
  Forall ascii_digit [d1; d2; d3; d4] ->
  exec (vtt_long_time n) (d1 :: d2 :: 58 :: d3 :: d4 :: 46 :: s) acc g k = None.
Proof.
  intros Hd.
  repeat match goal with
         | H : Forall _ (_ :: _) |- _ => inversion H; clear H; subst
         end.
  unfold vtt_long_time. change (u ":") with [58]. change (u ".") with [46].
  rewrite exec_cat, exec_group, exec_rep2 by (now apply isdecimal_ascii).
  rewrite exec_cat, exec_lit1.
  rewrite exec_cat, exec_group, exec_rep2 by (now apply isdecimal_ascii).
  rewrite exec_cat. apply exec_lit_fail. discriminate.
Qed.

(** The arrow between two times, with one space on either side. *)
Lemma exec_arrow (R : Type) (r : regex) (d : Z) (s acc : str) (g : groups)
      (k : cont R) :
  ascii_digit d ->
  (forall x s' acc' g', isspace x = true -> exec r (x :: s') acc' g' k = None) ->
  exec (Cat (Star isspace) (Cat (Lit (u "-->")) (Cat (Star isspace) r)))
       (32 :: 45 :: 45 :: 62 :: 32 :: d :: s) acc g k
  = exec r (d :: s) (32 :: 62 :: 45 :: 45 :: 32 :: acc) g k.
Proof.
  intros Hd Hr. change (u "-->") with [45; 45; 62].
  rewrite exec_cat.
  change (exec (Star isspace) ?s0 ?a ?g0 ?k0) with (greedy isspace k0 g0 s0 a).
  change (32 :: 45 :: 45 :: 62 :: 32 :: d :: s)
    with ([32] ++ 45 :: 45 :: 62 :: 32 :: d :: s).
  rewrite greedy_until; [|reflexivity| |repeat constructor].
  2:{ intros x s' acc' Hx. rewrite exec_cat. apply exec_lit_fail.
      intros ->. discriminate. }
  cbn [rev app]. rewrite exec_cat.
  change (45 :: 45 :: 62 :: 32 :: d :: s) with ([45; 45; 62] ++ 32 :: d :: s).
  rewrite exec_lit. cbn [rev app]. rewrite exec_cat.
  change (exec (Star isspace) ?s0 ?a ?g0 ?k0) with (greedy isspace k0 g0 s0 a).
  change (32 :: d :: s) with ([32] ++ d :: s).
  rewrite greedy_until; [reflexivity| | |repeat constructor].
  - destruct (isspace d) eqn:E; [|reflexivity].
    pose proof (isdecimal_not_space d (isdecimal_ascii d Hd)). congruence.
  - intros x s' acc' Hx. now apply Hr.
Qed.

Lemma vtt_time_fails_on_space (R : Type) (r : regex) (n : nat) (x : Z)
      (s acc : str) (g : groups) (k : cont R) :
  isspace x = true ->
  exec (Cat (Group n (Rep 2 isdecimal)) r) (x :: s) acc g k = None.
Proof.
  intros Hx. rewrite exec_cat, exec_group. cbn [Rep exec].
  destruct (isdecimal x) eqn:E; [|reflexivity].
  pose proof (isdecimal_not_space x E). congruence.
Qed.

(** A line of two times with hours gives both times, whatever follows
    them on the line. *)
Lemma vtt_cue_times_long (a b : Z) (settings : str) :
  srt_time_ok a -> srt_time_ok b ->
  vtt_cue_times (vtt_long_clock a ++ u " --> " ++ vtt_long_clock b ++ settings)
  = Some (a, b).
Proof.
  intros Ha Hb.
  destruct (vtt_long_clock_shape a Ha)
    as (d1 & d2 & d3 & d4 & d5 & d6 & d7 & d8 & d9 & -> & Hd & Hdv).
  destruct (vtt_long_clock_shape b Hb)
    as (e1 & e2 & e3 & e4 & e5 & e6 & e7 & e8 & e9 & -> & He & Hev).
  change (u " --> ") with [32; 45; 45; 62; 32]. cbn [app].
  unfold vtt_cue_times, re_match, from_vtt_timestamp_pattern.
  rewrite exec_cat, (exec_vtt_long_time _ 0) by assumption.
  rewrite exec_arrow.
  2:{ inversion He; assumption. }
  2:{ intros x s' acc' g' Hx. unfold vtt_long_time. now apply vtt_time_fails_on_space. }
  rewrite (exec_vtt_long_time _ 4) by assumption.
  unfold group. cbn [m_groups lookup_group Nat.eqb Nat.add].
  repeat match goal with
         | H : Forall _ (_ :: _) |- _ => inversion H; clear H; subst
         end.
  rewrite !int_of_group_2, !int_of_group_3 by assumption.
  reflexivity.
Qed.

(** So does a line of two times without hours. *)
Lemma vtt_cue_times_short (a b : Z) (settings : str) :
  0 <= a < 6000000 -> 0 <= b < 6000000 ->
  vtt_cue_times (vtt_short_clock a ++ u " --> " ++ vtt_short_clock b ++ settings)
  = Some (a, b).
Proof.
  intros Ha Hb.
  destruct (vtt_short_clock_shape a Ha)
    as (d1 & d2 & d3 & d4 & d5 & d6 & d7 & -> & Hd & Hdv).
  destruct (vtt_short_clock_shape b Hb)
    as (e1 & e2 & e3 & e4 & e5 & e6 & e7 & -> & He & Hev).
  change (u " --> ") with [32; 45; 45; 62; 32]. cbn [app].
  unfold vtt_cue_times, re_match, from_vtt_timestamp_pattern,
    from_vtt_timestamp_pattern2.
  rewrite exec_cat, exec_vtt_long_time_on_short.
  2:{ apply Forall_forall. intros x Hx. apply (proj1 (Forall_forall _ _) Hd).
      cbn [In] in *. tauto. }
  rewrite exec_cat, (exec_vtt_short_time _ 0) by assumption.
  rewrite exec_arrow.
  2:{ inversion He; assumption. }
  2:{ intros x s' acc' g' Hx. unfold vtt_short_time. now apply vtt_time_fails_on_space. }
  rewrite (exec_vtt_short_time _ 3) by assumption.
  unfold group. cbn [m_groups lookup_group Nat.eqb Nat.add].
  repeat match goal with
         | H : Forall _ (_ :: _) |- _ => inversion H; clear H; subst
         end.
  rewrite !int_of_group_2, !int_of_group_3 by assumption.
  reflexivity.
Qed.

(** ** WebVTT cues: the block *)

Lemma startswith_refl_app (sub post : str) : startswith sub (sub ++ post) = true.
Proof.
  induction sub as [|c sub IH]; [reflexivity|]. cbn [app startswith].
  now rewrite Z.eqb_refl, IH.
Qed.

Lemma contains_middle (sub pre post : str) :
  contains sub (pre ++ sub ++ post) = true.
Proof.
  induction pre as [|c pre IH]; cbn [app].
  - destruct (sub ++ post) as [|x l] eqn:E.
    + destruct sub; [reflexivity | discriminate].
    + cbn [contains]. rewrite <- E, startswith_refl_app. reflexivity.
  - cbn [contains]. rewrite IH. apply orb_true_r.
Qed.

Lemma nonspace_head (t : str) : lstrip t = t -> t <> [] -> has_nonspace t.
Proof.
  intros H Hne. destruct t as [|c t]; [congruence|].
  exists c. split; [now left|]. exact (lstrip_head _ _ _ H).
Qed.

Lemma strip_two_lines (line txt : str) :
  lstrip line = line -> line <> [] ->
  lstrip txt = txt -> rstrip txt = txt -> txt <> [] ->
  strip (line ++ [NL] ++ txt) = line ++ [NL] ++ txt.
Proof.
  intros Hl Hne Ht1 Ht2 Hnt. unfold strip.
  rewrite (lstrip_app_nonspace line _ (nonspace_head _ Hl Hne)), Hl.
  rewrite app_assoc, (rstrip_app_nonspace _ txt (nonspace_head _ Ht1 Hnt)), Ht2.
  now rewrite <- app_assoc.
Qed.

(** What [from_vtt] makes of a block of two lines: a time line and one
    line of plain text. *)
Lemma vtt_cue_segment_two_lines (line txt : str) (a b : Z) :
  Forall (fun c => c <> NL) line -> lstrip line = line -> line <> [] ->
  contains (u "-->") line = true ->
  vtt_cue_times line = Some (a, b) ->
  vtt_plain txt ->
  vtt_cue_segment (line ++ [NL] ++ txt) = [mkSeg txt [] a b].
Proof.
  intros Hnl Hl Hne Hc Ht (Hp & Ht1 & Ht2 & Hnt).
  unfold vtt_cue_segment.
  rewrite (strip_two_lines line txt Hl Hne Ht1 Ht2 Hnt).
  unfold split_on. cbn [app].
  rewrite (split_on_aux_prefix NL line Hnl).
  rewrite (split_on_aux_last NL txt)
    by (eapply Forall_impl; [|exact Hp]; intros c [H _]; exact H).
  cbn [rev app]. cbv zeta. rewrite Hc, Ht. cbn [join].
  unfold re_sub, inline_timestamp_pattern, c_open_close_pattern.
  change (u "<") with [60].
  assert (H60 : Forall (fun c => c <> 60) txt)
    by (eapply Forall_impl; [|exact Hp]; intros c [_ H]; exact H).
  rewrite (re_sub_aux_no_start (Cat vtt_clock (Lit (u ">"))) 60 [] txt H60).
  rewrite (re_sub_aux_no_start _ 60 [] txt H60).
  assert (Es : strip txt = txt) by (unfold strip; now rewrite Ht1).
  rewrite Es.
  destruct txt as [|c t]; [congruence|]. cbn [is_empty negb andb].
  destruct (str_eqb (c :: t) (u " ")) eqn:E; [|reflexivity].
  apply str_eqb_eq in E. rewrite E in Es. discriminate.
Qed.

Lemma digit_not_nl (d : Z) : ascii_digit d -> d <> NL.
Proof. unfold ascii_digit, NL. lia. Qed.

Lemma digit_lstrip (d : Z) (s : str) : ascii_digit d -> lstrip (d :: s) = d :: s.
Proof.
  intros Hd. cbn [lstrip].
  now rewrite (isdecimal_not_space d (isdecimal_ascii d Hd)).
Qed.

Lemma vtt_long_line_facts (a b : Z) (settings : str) :
  srt_time_ok a -> srt_time_ok b -> Forall (fun c => c <> NL) settings ->
  let line := vtt_long_clock a ++ u " --> " ++ vtt_long_clock b ++ settings in
  Forall (fun c => c <> NL) line /\ lstrip line = line /\ line <> []
  /\ contains (u "-->") line = true.
Proof.
  intros Ha Hb Hs.
  destruct (vtt_long_clock_shape a Ha)
    as (d1 & d2 & d3 & d4 & d5 & d6 & d7 & d8 & d9 & Ea & Hd & _).
  destruct (vtt_long_clock_shape b Hb)
    as (e1 & e2 & e3 & e4 & e5 & e6 & e7 & e8 & e9 & Eb & He & _).
  cbv zeta. split; [|split; [|split]].
  - rewrite Ea, Eb.
    repeat match goal with
           | H : Forall _ (_ :: _) |- _ => inversion H; clear H; subst
           end.
    change (u " --> ") with [32; 45; 45; 62; 32]. cbn [app].
    repeat (apply Forall_cons; [first [now apply digit_not_nl | discriminate]|]).
    exact Hs.
  - rewrite Ea. cbn [app]. apply digit_lstrip. now inversion Hd.
  - rewrite Ea. discriminate.
  - change (u " --> ") with ([32] ++ u "-->" ++ [32]).
    rewrite <- !app_assoc.
    rewrite (app_assoc (vtt_long_clock a) [32]). apply contains_middle.
Qed.

Lemma vtt_short_line_facts (a b : Z) (settings : str) :
  0 <= a < 6000000 -> 0 <= b < 6000000 -> Forall (fun c => c <> NL) settings ->
  let line := vtt_short_clock a ++ u " --> " ++ vtt_short_clock b ++ settings in
  Forall (fun c => c <> NL) line /\ lstrip line = line /\ line <> []
  /\ contains (u "-->") line = true.
Proof.
  intros Ha Hb Hs.
  destruct (vtt_short_clock_shape a Ha)
    as (d1 & d2 & d3 & d4 & d5 & d6 & d7 & Ea & Hd & _).
  destruct (vtt_short_clock_shape b Hb)
    as (e1 & e2 & e3 & e4 & e5 & e6 & e7 & Eb & He & _).
  cbv zeta. split; [|split; [|split]].
  - rewrite Ea, Eb.
    repeat match goal with
           | H : Forall _ (_ :: _) |- _ => inversion H; clear H; subst
           end.
    change (u " --> ") with [32; 45; 45; 62; 32]. cbn [app].
    repeat (apply Forall_cons; [first [now apply digit_not_nl | discriminate]|]).
    exact Hs.
  - rewrite Ea. cbn [app]. apply digit_lstrip. now inversion Hd.
  - rewrite Ea. discriminate.
  - change (u " --> ") with ([32] ++ u "-->" ++ [32]).
    rewrite <- !app_assoc.
    rewrite (app_assoc (vtt_short_clock a) [32]). apply contains_middle.
Qed.

Lemma vtt_cue_segment_long (a b : Z) (settings txt : str) :
  srt_time_ok a -> srt_time_ok b ->
  Forall (fun c => c <> NL) settings -> vtt_plain txt ->
  vtt_cue_segment (vtt_cue (vtt_long_clock a) (vtt_long_clock b) settings txt)
  = [mkSeg txt [] a b].
Proof.
  intros Ha Hb Hs Ht. unfold vtt_cue.
  destruct (vtt_long_line_facts a b settings Ha Hb Hs) as (F1 & F2 & F3 & F4).
  pose proof (vtt_cue_segment_two_lines _ txt a b F1 F2 F3 F4
                (vtt_cue_times_long a b settings Ha Hb) Ht) as H.
  repeat rewrite <- app_assoc in H. repeat rewrite <- app_assoc. exact H.
Qed.

Lemma vtt_cue_segment_short (a b : Z) (settings txt : str) :
  0 <= a < 6000000 -> 0 <= b < 6000000 ->
  Forall (fun c => c <> NL) settings -> vtt_plain txt ->
  vtt_cue_segment (vtt_cue (vtt_short_clock a) (vtt_short_clock b) settings txt)
  = [mkSeg txt [] a b].
Proof.
  intros Ha Hb Hs Ht. unfold vtt_cue.
  destruct (vtt_short_line_facts a b settings Ha Hb Hs) as (F1 & F2 & F3 & F4).
  pose proof (vtt_cue_segment_two_lines _ txt a b F1 F2 F3 F4
                (vtt_cue_times_short a b settings Ha Hb) Ht) as H.
  repeat rewrite <- app_assoc in H. repeat rewrite <- app_assoc. exact H.
Qed.

(** X20. A cue of two lines, the first [start --> end] followed by any
    settings and the second a plain text, is read by [from_vtt] as one
    segment with that text and exactly those times, whether the times
    are written with hours ([HH:MM:SS.mmm], below 100 hours) or without
    ([MM:SS.mmm], below 100 minutes). *)
Theorem vtt_cue_segment_reads_cue (a b : Z) (settings txt : str) :
  Forall (fun c => c <> NL) settings -> vtt_plain txt ->
  (srt_time_ok a -> srt_time_ok b ->
   vtt_cue_segment (vtt_cue (vtt_long_clock a) (vtt_long_clock b) settings txt)
   = [mkSeg txt [] a b])
  /\ (0 <= a < 6000000 -> 0 <= b < 6000000 ->
      vtt_cue_segment (vtt_cue (vtt_short_clock a) (vtt_short_clock b) settings txt)
      = [mkSeg txt [] a b]).
Proof.
  intros Hs Ht. split; intros Ha Hb.
  - now apply vtt_cue_segment_long.
  - now apply vtt_cue_segment_short.
Qed.

Lemma vtt_plain_literal (t : str) :
  forallb (fun c => negb (c =? NL) && negb (c =? 60)) t = true ->
  str_eqb (lstrip t) t = true -> str_eqb (rstrip t) t = true ->
  is_empty t = false ->
  vtt_plain t.
Proof.
  intros H1 H2 H3 H4. split; [|split; [|split]].
  - apply forallb_true_Forall in H1. eapply Forall_impl; [|exact H1].
    intros c Hc. apply andb_true_iff in Hc. destruct Hc as [Ha Hb].
    apply negb_true_iff in Ha, Hb. split; now apply Z.eqb_neq.
  - now apply str_eqb_eq.
  - now apply str_eqb_eq.
  - intros ->. discriminate.
Defined.

Lemma vtt_cue_segment_reads_cue_witness :
  vtt_cue (vtt_long_clock 3723004) (vtt_long_clock 3725500) (u " align:start")
          (u "hello world")
  = u "01:02:03.004 --> 01:02:05.500 align:start" ++ [NL] ++ u "hello world"
  /\ vtt_cue_segment (vtt_cue (vtt_long_clock 3723004) (vtt_long_clock 3725500)
                              (u " align:start") (u "hello world"))
     = [mkSeg (u "hello world") [] 3723004 3725500]
  /\ vtt_cue_segment (vtt_cue (vtt_short_clock 61500) (vtt_short_clock 63000)
                              (u " align:start") (u "hello world"))
     = [mkSeg (u "hello world") [] 61500 63000].
Proof.
  split; [vm_compute; reflexivity|].
  assert (Hs : Forall (fun c => c <> NL) (u " align:start"))
    by (repeat constructor; discriminate).
  assert (Ht : vtt_plain (u "hello world")) by (apply vtt_plain_literal; reflexivity).
  split.
  - apply (proj1 (vtt_cue_segment_reads_cue 3723004 3725500 _ _ Hs Ht));
      unfold srt_time_ok; lia.
  - apply (proj2 (vtt_cue_segment_reads_cue 61500 63000 _ _ Hs Ht)); lia.
Defined.

(** ** WebVTT files: the header *)

Lemma split_str_aux_line (w : str) :
  Forall (fun c => c <> NL) w ->
  forall cur,
    (forall rest,
        split_str_aux [NL; NL] (w ++ NL :: NL :: rest) 0 cur
        = (rev cur ++ w) :: split_str_aux [NL; NL] rest 0 [])
    /\ (forall c rest,
           c <> NL ->
           split_str_aux [NL; NL] (w ++ NL :: c :: rest) 0 cur
           = split_str_aux [NL; NL] (c :: rest) 0 (NL :: rev w ++ cur))
    /\ split_str_aux [NL; NL] w 0 cur = [rev cur ++ w].
Proof.
  induction 1 as [|x w Hx Hw IH]; intros cur.
  - split; [|split].
    + intros rest. cbn [app split_str_aux startswith]. unfold NL.
      cbn. rewrite app_nil_r. reflexivity.
    + intros c rest Hc. cbn [app split_str_aux startswith rev].
      rewrite Z.eqb_refl.
      replace (c =? NL) with false by (symmetry; now apply Z.eqb_neq).
      reflexivity.
    + cbn [split_str_aux]. now rewrite app_nil_r.
  - destruct (IH (x :: cur)) as (I1 & I2 & I3).
    assert (E : forall tl, startswith [NL; NL] (x :: tl) = false).
    { intros tl. cbn [startswith].
      now replace (x =? NL) with false by (symmetry; now apply Z.eqb_neq). }
    split; [|split].
    + intros rest. cbn [app split_str_aux]. rewrite E, I1. cbn [rev].
      now rewrite <- app_assoc.
    + intros c rest Hc. cbn [app split_str_aux]. rewrite E, (I2 c rest Hc).
      cbn [rev]. now rewrite <- app_assoc.
    + cbn [split_str_aux]. rewrite E, I3. cbn [rev]. now rewrite <- app_assoc.
Qed.

Lemma split_str_aux_block (line txt : str) :
  Forall (fun c => c <> NL) line -> Forall (fun c => c <> NL) txt -> txt <> [] ->
  (forall rest,
      split_str_aux [NL; NL] ((line ++ [NL] ++ txt) ++ NL :: NL :: rest) 0 []
      = (line ++ [NL] ++ txt) :: split_str_aux [NL; NL] rest 0 [])
  /\ split_str_aux [NL; NL] (line ++ [NL] ++ txt) 0 [] = [line ++ [NL] ++ txt].
Proof.
  intros Hl Ht Hne. destruct txt as [|c t]; [congruence|].
  assert (Hc : c <> NL) by (now inversion Ht).
  destruct (split_str_aux_line line Hl []) as (_ & L2 & _).
  rewrite app_nil_r in L2.
  destruct (split_str_aux_line (c :: t) Ht (NL :: rev line)) as (T1 & _ & T3).
  cbn [rev] in T1, T3. rewrite rev_involutive in T1, T3.
  rewrite <- app_assoc in T1, T3. cbn [app] in T1, T3.
  split.
  - intros rest. rewrite <- !app_assoc. cbn [app].
    rewrite (L2 c (t ++ NL :: NL :: rest) Hc).
    change (c :: t ++ NL :: NL :: rest) with ((c :: t) ++ NL :: NL :: rest).
    cbn [app]. rewrite T1. reflexivity.
  - cbn [app]. rewrite (L2 c t Hc), T3. reflexivity.
Qed.

Lemma vtt_plain_no_nl (t : str) : vtt_plain t -> Forall (fun c => c <> NL) t.
Proof.
  intros (Hp & _). eapply Forall_impl; [|exact Hp]. intros c [H _]. exact H.
Qed.

Lemma vtt_plain_nonblank (t : str) : vtt_plain t -> nonblank t = true.
Proof.
  intros (_ & H1 & H2 & Hne). unfold nonblank, strip. rewrite H1, H2.
  destruct t; [congruence | reflexivity].
Qed.

(** X21. [from_vtt] takes the first two blocks of a file for its header
    without looking at them.  In a file whose header is a single line
    directly followed by the cues, the first cue is therefore lost,
    although it is a cue the parser would read: such a file with one cue
    gives the empty document, and with two cues the second one only. *)
Theorem from_vtt_skips_first_two_blocks
        (header txt txt' : str) (a b a' b' : Z) :
  Forall (fun c => c <> NL) header ->
  srt_time_ok a -> srt_time_ok b -> srt_time_ok a' -> srt_time_ok b' ->
  vtt_plain txt -> vtt_plain txt' ->
  vtt_cue_segment (vtt_cue (vtt_long_clock a) (vtt_long_clock b) [] txt)
  = [mkSeg txt [] a b]
  /\ from_vtt (header ++ [NL; NL]
                 ++ vtt_cue (vtt_long_clock a) (vtt_long_clock b) [] txt)
     = mkData []
  /\ from_vtt (header ++ [NL; NL]
                 ++ vtt_cue (vtt_long_clock a) (vtt_long_clock b) [] txt
                 ++ [NL; NL]
                 ++ vtt_cue (vtt_long_clock a') (vtt_long_clock b') [] txt')
     = mkData [mkSeg txt' [] a' b'].
Proof.
  intros Hh Ha Hb Ha' Hb' Ht Ht'.
  pose proof (vtt_cue_segment_long a b [] txt Ha Hb (Forall_nil _) Ht) as C1.
  pose proof (vtt_cue_segment_long a' b' [] txt' Ha' Hb' (Forall_nil _) Ht') as C2.
  destruct (vtt_long_line_facts a b [] Ha Hb (Forall_nil _)) as (F1 & _).
  destruct (vtt_long_line_facts a' b' [] Ha' Hb' (Forall_nil _)) as (F1' & _).
  cbv zeta in F1, F1'.
  assert (Hne : txt <> []) by apply Ht. assert (Hne' : txt' <> []) by apply Ht'.
  destruct (split_str_aux_block _ txt F1 (vtt_plain_no_nl _ Ht) Hne) as [B1 B2].
  destruct (split_str_aux_block _ txt' F1' (vtt_plain_no_nl _ Ht') Hne') as [_ B2'].
  destruct (split_str_aux_line header Hh []) as (H1 & _ & _).
  assert (E1 : vtt_cue (vtt_long_clock a) (vtt_long_clock b) [] txt
               = (vtt_long_clock a ++ u " --> " ++ vtt_long_clock b ++ [])
                   ++ [NL] ++ txt).
  { unfold vtt_cue. now repeat rewrite <- app_assoc. }
  assert (E2 : vtt_cue (vtt_long_clock a') (vtt_long_clock b') [] txt'
               = (vtt_long_clock a' ++ u " --> " ++ vtt_long_clock b' ++ [])
                   ++ [NL] ++ txt').
  { unfold vtt_cue. now repeat rewrite <- app_assoc. }
  assert (A2 : forall r : str, [NL; NL] ++ r = NL :: NL :: r) by reflexivity.
  split; [exact C1|]. split.
  - unfold from_vtt, split_str. cbv zeta.
    rewrite !A2, H1, E1, B2. reflexivity.
  - unfold from_vtt, split_str. cbv zeta.
    rewrite !A2, H1, E1, B1, E2, B2'. rewrite <- E2. cbn [skipn flat_map].
    rewrite C2. cbn [app]. unfold ASRData_init. cbn [filter text].
    now rewrite (vtt_plain_nonblank _ Ht').
Qed.

Lemma from_vtt_skips_first_two_blocks_witness :
  from_vtt (u "WEBVTT" ++ [NL; NL]
              ++ u "00:00:01.000 --> 00:00:02.500" ++ [NL] ++ u "hello world")
  = mkData []
  /\ from_vtt (u "WEBVTT" ++ [NL; NL]
                 ++ vtt_cue (vtt_long_clock 1000) (vtt_long_clock 2500) []
                            (u "hello world")
                 ++ [NL; NL]
                 ++ vtt_cue (vtt_long_clock 3000) (vtt_long_clock 4000) []
                            (u "good bye now"))
     = mkData [mkSeg (u "good bye now") [] 3000 4000].
Proof.
  split; [vm_compute; reflexivity|].
  apply (from_vtt_skips_first_two_blocks (u "WEBVTT") (u "hello world")
           (u "good bye now") 1000 2500 3000 4000);
    try (unfold srt_time_ok; lia);
    try (apply vtt_plain_literal; reflexivity).
  repeat constructor; discriminate.
Defined.
